(** * Krutrim RLG backend: a shallow embedding of the grounded-QA core

    The development follows the layout of [rlg-backend/app]:

    - [Text]        the string and regular-expression primitives the services use
                    ([str.lower], [str.strip], [in], [re.sub], [re.findall], [re.split]);
    - [Config]      [core/config.py];
    - [Models]      [models/chunk.py] and [models/document.py];
    - [Database]    [core/database.py];
    - [Embedding]   [services/embedding_service.py];
    - [VectorIndex] [services/vector_index_service.py];
    - [Retrieval]   [services/retrieval_service.py];
    - [Context]     [services/context_service.py];
    - [Validation]  [services/validation_service.py];
    - [Extractive]  [ExtractiveLLMService] of [services/llm_service.py];
    - [Ingestion]   [services/ingestion_service.py];
    - [Tokenizer]   [utils/tokenizer.py];
    - [Scoring]     [utils/scoring.py].

    [Samples] holds small instances of the external interfaces and a few
    rows; the [...Spec] modules hold the notions the statements use; the
    [...Facts] modules hold the theorems, one module per service.  They are
    followed by [TextFacts], on the string primitives, and by the modules
    [IndexMaintenance], [RetrievalGuarantees], [ContextAssembly],
    [GroundingDecisions], [QuoteExtraction], [IngestionStorage],
    [TokenizerFacts] and [ScoringFacts], which hold further properties of
    the services and of the utilities.

    Modelling conventions.  Text is ASCII: a Python [str] is a [string], one
    [ascii] per character, and the character classes of [re] and [str] are
    their ASCII restrictions.  A Python [float] is an exact rational [Q]; the
    statements about scores use [==] on [Q].  In [Scoring], whose functions
    take differences and sums of arbitrary scores and weights, the results
    are floats that can also be infinite or NaN.  A [dict] whose iteration
    order is irrelevant is a [gmap]; one whose order is observed is an
    association list.  The embedding model, the FAISS index search, the FTS5
    query and the file parsers are external: they are the fields of small
    interfaces.  The database is SQLite: a table is the list of its rows in
    the order of insertion, a query on the primary key returns its rows in
    the order of the key, and the calls of the SQLAlchemy session that can
    raise are the fields of a [Session]. *)

From Stdlib Require Import ZArith QArith Qabs Qminmax Lia List Bool Ascii String DecimalString.
From Stdlib Require Import Permutation Sorted Lqa.
From stdpp Require Import gmap strings list.

Import ListNotations.
Local Open Scope string_scope.

(* ===================================================================== *)
(** * Text primitives *)
(* ===================================================================== *)

Module Text.

Definition code (c : ascii) : nat := nat_of_ascii c.

Definition between (lo hi : nat) (c : ascii) : bool :=
  Nat.leb lo (code c) && Nat.leb (code c) hi.

(** [str.isspace] and the class [\s] on ASCII: TAB..CR, FS..US and space. *)
Definition is_space (c : ascii) : bool := between 9 13 c || between 28 32 c.
(** the class [\d] *)
Definition is_digit (c : ascii) : bool := between 48 57 c.
(** the class [[A-Z]] *)
Definition is_upper (c : ascii) : bool := between 65 90 c.
(** the class [[a-z]] *)
Definition is_lower (c : ascii) : bool := between 97 122 c.
(** the class [\w] *)
Definition is_word (c : ascii) : bool :=
  is_digit c || is_upper c || is_lower c || Nat.eqb (code c) 95.

Definition dquote : ascii := ascii_of_nat 34.
Definition newline : ascii := ascii_of_nat 10.
Definition lbracket : ascii := ascii_of_nat 91.
Definition rbracket : ascii := ascii_of_nat 93.

Definition lower_char (c : ascii) : ascii :=
  if is_upper c then ascii_of_nat (code c + 32) else c.
Definition upper_char (c : ascii) : ascii :=
  if is_lower c then ascii_of_nat (code c - 32) else c.

Fixpoint map_string (f : ascii -> ascii) (s : string) : string :=
  match s with
  | EmptyString => EmptyString
  | String c s' => String (f c) (map_string f s')
  end.

(** [s.lower()] and [s.upper()] *)
Definition lower : string -> string := map_string lower_char.
Definition upper : string -> string := map_string upper_char.

(** Python truthiness of a [str]. *)
Definition nonempty (s : string) : bool :=
  match s with EmptyString => false | String _ _ => true end.

(** [not l] for a list *)
Definition is_nil {A} (l : list A) : bool :=
  match l with [] => true | _ :: _ => false end.

(** [x in l] for a list of strings *)
Definition str_in (x : string) (l : list string) : bool :=
  List.existsb (String.eqb x) l.

(** [enumerate(l)] *)
Definition enumerate {A} (l : list A) : list (nat * A) :=
  List.combine (List.seq 0 (List.length l)) l.

Fixpoint lstrip (s : string) : string :=
  match s with
  | EmptyString => EmptyString
  | String c s' => if is_space c then lstrip s' else s
  end.

Fixpoint rstrip (s : string) : string :=
  match s with
  | EmptyString => EmptyString
  | String c s' =>
      match rstrip s' with
      | EmptyString => if is_space c then EmptyString else String c EmptyString
      | r => String c r
      end
  end.

(** [s.strip()] *)
Definition strip (s : string) : string := rstrip (lstrip s).

(** [needle in hay] *)
Fixpoint contains (needle hay : string) : bool :=
  String.prefix needle hay
  || match hay with
     | EmptyString => false
     | String _ hay' => contains needle hay'
     end.

(** The longest prefix of [s] whose characters satisfy [p], and the rest. *)
Fixpoint span (p : ascii -> bool) (s : string) : string * string :=
  match s with
  | EmptyString => (EmptyString, EmptyString)
  | String c s' =>
      if p c then let '(a, b) := span p s' in (String c a, b) else (EmptyString, s)
  end.

(** [s[:n]] for [0 <= n] *)
Definition take (n : nat) (s : string) : string := String.substring 0 n s.

(** [sep.join(parts)] *)
Definition join (sep : string) (parts : list string) : string := String.concat sep parts.

(** [str(n)] for a natural number *)
Definition str_of_nat (n : nat) : string := NilEmpty.string_of_uint (Nat.to_uint n).

(** [int(s)] for a string of decimal digits *)
Fixpoint int_of_digits_from (acc : Z) (s : string) : Z :=
  match s with
  | EmptyString => acc
  | String c s' => int_of_digits_from (10 * acc + Z.of_nat (code c - 48)) s'
  end.
Definition int_of_digits : string -> Z := int_of_digits_from 0.

(** ** [\[(\d+)\]]: a citation marker at the head of [s] *)

(** The digits of the marker and the length of the whole match. *)
Definition match_marker (s : string) : option (string * nat) :=
  match s with
  | String c s1 =>
      if Ascii.eqb c lbracket then
        let '(ds, rest) := span is_digit s1 in
        match ds, rest with
        | String _ _, String r _ =>
            if Ascii.eqb r rbracket then Some (ds, String.length ds + 2) else None
        | _, _ => None
        end
      else None
  | EmptyString => None
  end.

(** [re.sub(r'\[\d+\]', '', s)]: the scan restarts after each match;
    [skip] counts the characters of the current match still to be dropped. *)
Fixpoint sub_markers_from (skip : nat) (s : string) : string :=
  match s with
  | EmptyString => EmptyString
  | String c s' =>
      match skip with
      | S k => sub_markers_from k s'
      | O =>
          match match_marker s with
          | Some (_, n) => sub_markers_from (Nat.pred n) s'
          | None => String c (sub_markers_from 0 s')
          end
      end
  end.
Definition sub_markers : string -> string := sub_markers_from 0.

(** [re.findall(r'\[(\d+)\]', s)] *)
Fixpoint findall_markers_from (skip : nat) (s : string) : list string :=
  match s with
  | EmptyString => []
  | String c s' =>
      match skip with
      | S k => findall_markers_from k s'
      | O =>
          match match_marker s with
          | Some (ds, n) => ds :: findall_markers_from (Nat.pred n) s'
          | None => findall_markers_from 0 s'
          end
      end
  end.
Definition findall_markers : string -> list string := findall_markers_from 0.

(** [re.search(r'\[\d+\]', s)] as a truth value *)
Definition search_marker (s : string) : bool :=
  match findall_markers s with [] => false | _ :: _ => true end.

(** ** The quote pattern of the extractive parser: a double quote, one or
    more characters other than a double quote, a double quote, [\s*] and a
    citation marker [\[(\d+)\]] *)

Definition not_dquote (c : ascii) : bool := negb (Ascii.eqb c dquote).

(** The quote, the digits and the length of the whole match. *)
Definition match_quote (s : string) : option (string * string * nat) :=
  match s with
  | String c s1 =>
      if Ascii.eqb c dquote then
        let '(q, r1) := span not_dquote s1 in
        match q, r1 with
        | String _ _, String _ r2 =>
            (* [r1] starts with the closing quote: [span] stopped on it *)
            let '(ws, r3) := span is_space r2 in
            match match_marker r3 with
            | Some (ds, n) => Some (q, ds, 1 + String.length q + 1 + String.length ws + n)
            | None => None
            end
        | _, _ => None
        end
      else None
  | EmptyString => None
  end.

(** [re.findall(quote_pattern, s)] *)
Fixpoint findall_quotes_from (skip : nat) (s : string) : list (string * string) :=
  match s with
  | EmptyString => []
  | String c s' =>
      match skip with
      | S k => findall_quotes_from k s'
      | O =>
          match match_quote s with
          | Some (q, ds, n) => (q, ds) :: findall_quotes_from (Nat.pred n) s'
          | None => findall_quotes_from 0 s'
          end
      end
  end.
Definition findall_quotes : string -> list (string * string) := findall_quotes_from 0.

(** ** [re.findall(r'\b\w+\b', s)]: the maximal runs of word characters *)

Definition push (c : ascii) (pieces : list string) : list string :=
  match pieces with
  | p :: ps => String c p :: ps
  | [] => [String c EmptyString]
  end.

Fixpoint word_runs (s : string) : list string :=
  match s with
  | EmptyString => [EmptyString]
  | String c s' =>
      if is_word c then push c (word_runs s') else EmptyString :: word_runs s'
  end.
Definition findall_words (s : string) : list string := List.filter nonempty (word_runs s).

(** ** [s.split(sep)] for a one-character separator *)

Fixpoint split_char (sep : ascii) (s : string) : list string :=
  match s with
  | EmptyString => [EmptyString]
  | String c s' =>
      if Ascii.eqb c sep then EmptyString :: split_char sep s'
      else push c (split_char sep s')
  end.

(** ** [re.split(pattern, s)] for a pattern that consumes at least one character

    [m prev s] is the length of the match of the pattern at the head of [s],
    [prev] being the character before it (for a lookbehind). *)
Fixpoint re_split_from (m : option ascii -> string -> option nat)
    (prev : option ascii) (skip : nat) (s : string) : list string :=
  match s with
  | EmptyString => [EmptyString]
  | String c s' =>
      match skip with
      | S k => re_split_from m (Some c) k s'
      | O =>
          match m prev s with
          | Some n => EmptyString :: re_split_from m (Some c) (Nat.pred n) s'
          | None => push c (re_split_from m (Some c) 0 s')
          end
      end
  end.
Definition re_split (m : option ascii -> string -> option nat) (s : string) : list string :=
  re_split_from m None 0 s.

(** The position after the last newline of [s], if it has one. *)
Fixpoint after_last_newline (s : string) : option nat :=
  match s with
  | EmptyString => None
  | String c s' =>
      match after_last_newline s' with
      | Some n => Some (S n)
      | None => if Ascii.eqb c newline then Some 1 else None
      end
  end.

(** [\n\s*\n]: a newline, then the whitespace run up to its last newline *)
Definition match_blank_line (_ : option ascii) (s : string) : option nat :=
  match s with
  | String c s' =>
      if Ascii.eqb c newline then
        match after_last_newline (fst (span is_space s')) with
        | Some n => Some (S n)
        | None => None
        end
      else None
  | EmptyString => None
  end.

Definition is_terminator (c : ascii) : bool :=
  Nat.eqb (code c) 46 || Nat.eqb (code c) 33 || Nat.eqb (code c) 63.

(** [(?<=[.!?])\s+]: a whitespace run right after a sentence terminator *)
Definition match_sentence_gap (prev : option ascii) (s : string) : option nat :=
  match prev with
  | Some p =>
      if is_terminator p then
        match fst (span is_space s) with
        | EmptyString => None
        | ws => Some (String.length ws)
        end
      else None
  | None => None
  end.

End Text.

(* ===================================================================== *)
(** * [core/config.py] *)
(* ===================================================================== *)

Module Config.

(** The fields of [Settings] that the modelled services read. *)
Record Settings : Type := {
  EMBEDDING_DIMENSION : nat;
  BM25_WEIGHT : Q;
  DENSE_WEIGHT : Q;
  STRUCTURAL_WEIGHT : Q;
  TOP_K_RETRIEVAL : nat;
  CHUNK_SIZE : nat;
  CHUNK_OVERLAP : nat;
  MIN_GROUNDING_CONFIDENCE : Q
}.

(** The defaults written in the class body. *)
Definition settings : Settings := {|
  EMBEDDING_DIMENSION := 384;
  BM25_WEIGHT := 3 # 10;
  DENSE_WEIGHT := 5 # 10;
  STRUCTURAL_WEIGHT := 2 # 10;
  TOP_K_RETRIEVAL := 20;
  CHUNK_SIZE := 512;
  CHUNK_OVERLAP := 50;
  MIN_GROUNDING_CONFIDENCE := 7 # 10
|}.

End Config.

(* ===================================================================== *)
(** * [models/chunk.py], [models/document.py] *)
(* ===================================================================== *)

Module Models.

Inductive ChunkType : Type :=
  | PARAGRAPH | HEADING | LIST_ITEM | TABLE_CELL
  | CODE_BLOCK | CAPTION | FOOTNOTE | QUOTE.

Definition ChunkType_eqb (a b : ChunkType) : bool :=
  match a, b with
  | PARAGRAPH, PARAGRAPH | HEADING, HEADING | LIST_ITEM, LIST_ITEM
  | TABLE_CELL, TABLE_CELL | CODE_BLOCK, CODE_BLOCK | CAPTION, CAPTION
  | FOOTNOTE, FOOTNOTE | QUOTE, QUOTE => true
  | _, _ => false
  end.

Inductive DocumentStatus : Type := PENDING | PROCESSING | INDEXED | FAILED.

Inductive DocumentType : Type := PDF | DOCX | TXT | HTML | XLSX | MARKDOWN | IMAGE.

(** A [Chunk] object.  [id] is the primary key (a uuid drawn when the row is
    inserted; the empty string on an object not yet inserted).  An attribute
    the constructor call leaves out is [None]; [sequence_index] then takes
    the column default when the row is written. *)
Record Chunk : Type := {
  id : string;
  document_id : string;
  content : string;
  content_hash : option string;
  page_number : option nat;
  section_title : option string;
  chunk_type : ChunkType;
  heading_level : option nat;
  confidence_weight : Q;
  sequence_index : option nat
}.

(** [sequence_index = Column(Integer, default=0)  # Order in document] *)
Definition stored_sequence_index (c : Chunk) : nat :=
  match sequence_index c with Some n => n | None => 0 end.

Definition set_content (c : Chunk) (s : string) : Chunk :=
  {| id := id c; document_id := document_id c; content := s;
     content_hash := content_hash c; page_number := page_number c;
     section_title := section_title c; chunk_type := chunk_type c;
     heading_level := heading_level c; confidence_weight := confidence_weight c;
     sequence_index := sequence_index c |}.

(** A [Document] row (the timestamps are left out). *)
Record Document : Type := {
  doc_id : string;
  filename : string;
  filepath : string;
  file_type : DocumentType;
  file_size : nat;
  file_hash : string;
  status : DocumentStatus;
  error_message : option string;
  title : option string;
  author : option string;
  category : option string;
  tags : option string;
  reliability_score : Q;
  page_count : nat;
  chunk_count : nat
}.

End Models.

(* ===================================================================== *)
(** * [core/database.py] *)
(* ===================================================================== *)

Module Database.
Import Models.

(** What a session [db] sees: the two tables in row order, and the FTS5 query
    [SELECT chunk_id, bm25(chunks_fts) ... MATCH :query ORDER BY score LIMIT :limit],
    whose rows are external ([None] when the statement raises). *)
Record Db : Type := {
  chunk_rows : list Chunk;
  document_rows : list Document;
  fts_bm25 : string -> nat -> option (list (string * Q))
}.

End Database.

(* ===================================================================== *)
(** * [services/embedding_service.py] *)
(* ===================================================================== *)

Module Embedding.
Import Text Config.

Definition vec : Type := list Q.

(** The sentence-transformers model: [self._model.encode(text, ...)].
    A batch is encoded text by text. *)
Class EmbeddingModel : Type := { encode : string -> vec }.

Definition zeros (n : nat) : vec := repeat 0%Q n.

Definition embed_text `{EmbeddingModel} (cfg : Settings) (text : string) : vec :=
  if nonempty (strip text) then encode text else zeros (EMBEDDING_DIMENSION cfg).

(** [embed_batch]: the rows of the result, one per text.  An empty batch is
    the empty array; a text that strips to nothing keeps its row of zeros. *)
Definition embed_batch `{EmbeddingModel} (cfg : Settings) (texts : list string) : list vec :=
  List.map (fun t => if nonempty (strip t) then encode t
                     else zeros (EMBEDDING_DIMENSION cfg)) texts.

(** [np.dot] on two vectors *)
Fixpoint dot (a b : vec) : Q :=
  match a, b with
  | x :: a', y :: b' => (x * y + dot a' b')%Q
  | _, _ => 0%Q
  end.

(** [embed_batch], statement by statement: the indices of the texts that do
    not strip to nothing, the batch encoding of those texts, and the rows
    written back into an array of zeros ([texts[i]] is in range for every
    index kept; a row of the model has the configured dimension). *)
Definition embed_batch_rows `{EmbeddingModel} (cfg : Settings) (texts : list string)
    : list vec :=
  if is_nil texts then []
  else
    let valid_indices :=
      List.map fst (List.filter (fun p => nonempty (strip (snd p))) (enumerate texts)) in
    let valid_texts := List.map (fun i => List.nth i texts EmptyString) valid_indices in
    let result := List.repeat (zeros (EMBEDDING_DIMENSION cfg)) (List.length texts) in
    if is_nil valid_texts then result
    else
      let embeddings := List.map encode valid_texts in
      List.fold_left
        (fun result p => <[snd p := List.nth (fst p) embeddings []]> result)
        (enumerate valid_indices) result.

End Embedding.

(* ===================================================================== *)
(** * [services/vector_index_service.py] *)
(* ===================================================================== *)

Module VectorIndex.
Import Text Config Embedding.

(** [faiss.IndexFlatIP.search(q, k)]: the pairs of [zip(scores[0], indices[0])].
    Nothing is assumed of the indices it returns. *)
Class FlatIndex : Type := { flat_search : list vec -> vec -> nat -> list (Q * Z) }.

(** The service's state: the vectors held by [self.index], in slot order, and
    [self.chunk_ids], which maps a slot to its chunk id. *)
Record VectorIndexService : Type := {
  index : list vec;
  chunk_ids : list string
}.

Definition ntotal (svc : VectorIndexService) : nat := List.length (index svc).

Definition create_index : VectorIndexService := {| index := []; chunk_ids := [] |}.

Definition add_chunks `{EmbeddingModel} (cfg : Settings) (svc : VectorIndexService)
    (ids : list string) (contents : list string) : VectorIndexService :=
  if is_nil ids || is_nil contents then svc
  else
    let embeddings := embed_batch cfg contents in
    {| index := index svc ++ embeddings; chunk_ids := chunk_ids svc ++ ids |}.

(** [[f(i) for i in idxs]] where [f] raises out of range: [None] when it raised. *)
Fixpoint gather {A} (l : list A) (idxs : list nat) : option (list A) :=
  match idxs with
  | [] => Some []
  | i :: idxs' =>
      match List.nth_error l i, gather l idxs' with
      | Some x, Some r => Some (x :: r)
      | _, _ => None
      end
  end.

(** [remove_chunks]: the new state, or [None] when [reconstruct] raised (the
    state is then as before, the assignments come after it). *)
Definition remove_chunks (svc : VectorIndexService) (chunk_ids_to_remove : list string)
    : option VectorIndexService :=
  let indices_to_keep :=
    List.map fst
      (List.filter (fun p => negb (str_in (snd p) chunk_ids_to_remove))
         (enumerate (chunk_ids svc))) in
  if Nat.eqb (List.length indices_to_keep) (List.length (chunk_ids svc)) then Some svc
  else if negb (is_nil indices_to_keep) then
    match gather (index svc) indices_to_keep, gather (chunk_ids svc) indices_to_keep with
    | Some vectors, Some ids => Some {| index := vectors; chunk_ids := ids |}
    | _, _ => None
    end
  else Some create_index.

Definition search `{EmbeddingModel} `{FlatIndex} (cfg : Settings)
    (svc : VectorIndexService) (query : string) (top_k : nat) : list (string * Q) :=
  if Nat.eqb (ntotal svc) 0 then []
  else
    let query_embedding := embed_text cfg query in
    let k := Nat.min top_k (ntotal svc) in
    let hits := flat_search (index svc) query_embedding k in
    List.flat_map
      (fun '(score, idx) =>
         if Z.leb 0 idx && Z.ltb idx (Z.of_nat (List.length (chunk_ids svc))) then
           match List.nth_error (chunk_ids svc) (Z.to_nat idx) with
           | Some cid => [(cid, score)]
           | None => []
           end
         else [])
      hits.

(** The invariant: one chunk id per stored vector. *)
Definition aligned (svc : VectorIndexService) : Prop :=
  ntotal svc = List.length (chunk_ids svc).

End VectorIndex.

(* ===================================================================== *)
(** * [services/retrieval_service.py] *)
(* ===================================================================== *)

Module Retrieval.
Import Text Config Models Database Embedding VectorIndex.

Record RetrievedChunk : Type := {
  chunk_id : string;
  r_content : string;
  r_document_id : string;
  document_name : string;
  r_page_number : option nat;
  r_section_title : option string;
  r_chunk_type : ChunkType;
  bm25_score : Q;
  dense_score : Q;
  structural_score : Q;
  final_score : Q;
  r_confidence_weight : Q
}.

(** The value of a candidate: the dict with the keys [bm25_score] and [dense_score]. *)
Record Scores : Type := { s_bm25 : Q; s_dense : Q }.

(** [defaultdict(lambda: {bm25_score: 0.0, dense_score: 0.0})] *)
Definition no_scores : Scores := {| s_bm25 := 0%Q; s_dense := 0%Q |}.

(** [{k: v for k, v in pairs}]: a later pair overwrites an earlier one. *)
Definition dict_of_pairs {V} (pairs : list (string * V)) : gmap string V :=
  List.fold_left (fun m p => <[fst p := snd p]> m) pairs ∅.

(** Python truthiness of an optional list argument. *)
Definition truthy {A} (o : option (list A)) : bool :=
  match o with Some (_ :: _) => true | _ => false end.

Definition stopwords : list string :=
  ["the"; "a"; "an"; "is"; "are"; "was"; "were"; "what"; "how";
   "when"; "where"; "why"; "who"; "which"; "can"; "could"; "would";
   "should"; "do"; "does"; "did"; "have"; "has"; "had"; "be"; "been";
   "being"; "for"; "to"; "of"; "in"; "on"; "at"; "by"; "with"].

Definition _extract_query_terms (query : string) : list string :=
  List.filter (fun w => negb (str_in w stopwords) && Nat.ltb 2 (String.length w))
    (findall_words (lower query)).

Definition _bm25_search (db : Db) (query_terms : list string) (limit : nat) : gmap string Q :=
  if is_nil query_terms then ∅
  else
    let fts_query := join " OR " query_terms in
    match fts_bm25 db fts_query limit with
    | Some rows => dict_of_pairs (List.map (fun row => (fst row, Qabs (snd row))) rows)
    | None => ∅
    end.

(** [max(values)] of a non-empty sequence *)
Definition max_of (values : list Q) : Q :=
  match values with
  | [] => 0%Q
  | v :: vs => List.fold_left Qmax vs v
  end.

Definition scores_of (candidates : gmap string Scores) (cid : string) : Scores :=
  match candidates !! cid with Some sc => sc | None => no_scores end.

Definition _merge_results (bm25_results : gmap string Q) (dense_results : list (string * Q))
    : gmap string Scores :=
  let normalized : gmap string Scores :=
    (* the first loop fills an empty dict, one fresh key per BM25 hit *)
    let max_bm25 := max_of (List.map snd (map_to_list bm25_results)) in
    (fun score => {| s_bm25 := if Qlt_le_dec 0 max_bm25 then (score / max_bm25)%Q else 0%Q;
                     s_dense := 0%Q |}) <$> bm25_results in
  List.fold_left
    (fun candidates hit =>
       <[fst hit := {| s_bm25 := s_bm25 (scores_of candidates (fst hit));
                       s_dense := snd hit |}]> candidates)
    dense_results normalized.

(** The order in which SQLite returns rows it finds through the index of the
    primary key: ascending in [id], the strings compared byte by byte. *)
Fixpoint insert_by_id (x : Chunk) (l : list Chunk) : list Chunk :=
  match l with
  | [] => [x]
  | y :: l' =>
      if String.leb (id x) (id y) then x :: l else y :: insert_by_id x l'
  end.

Definition by_primary_key (l : list Chunk) : list Chunk :=
  List.fold_right insert_by_id [] l.

(** [self.db.query(Chunk).filter(Chunk.id.in_(chunk_ids)).all()]: the query
    has no [ORDER BY]; SQLite answers it by looking each id up in the index
    of the primary key, smallest id first. *)
Definition chunks_in {V} (db : Db) (candidates : gmap string V) : list Chunk :=
  by_primary_key
    (List.filter (fun c => bool_decide (is_Some (candidates !! id c))) (chunk_rows db)).

(** [{d.id: d for d in self.db.query(Document).filter(Document.id.in_(doc_ids)).all()}] *)
Definition docs_of (db : Db) (chunks : list Chunk) : gmap string Document :=
  let doc_ids := List.map document_id chunks in
  dict_of_pairs
    (List.map (fun d => (doc_id d, d))
       (List.filter (fun d => str_in (doc_id d) doc_ids) (document_rows db))).

Definition passes (doc : Document) (document_ids categories : option (list string))
    (min_reliability : Q) : bool :=
  negb (truthy document_ids
        && negb (str_in (doc_id doc) (default [] document_ids)))
  && negb (truthy categories
           && negb (match category doc with
                    | Some cat => str_in cat (default [] categories)
                    | None => false
                    end))
  && negb (if Qlt_le_dec (reliability_score doc) min_reliability then true else false).

Definition _filter_candidates (db : Db) (candidates : gmap string Scores)
    (document_ids categories : option (list string)) (min_reliability : Q)
    : gmap string Scores :=
  if bool_decide (candidates = ∅) then ∅
  else
    let chunks := chunks_in db candidates in
    let docs := docs_of db chunks in
    List.fold_left
      (fun filtered chunk =>
         match docs !! document_id chunk with
         | None => filtered
         | Some doc =>
             if passes doc document_ids categories min_reliability
             then <[id chunk := scores_of candidates (id chunk)]> filtered
             else filtered
         end)
      chunks ∅.

(** The structural score of one chunk. *)
Definition structural (query : string) (query_terms : list string) (chunk : Chunk) : Q :=
  let query_lower := lower query in
  let content_lower := lower (content chunk) in
  let s0 : Q := 0%Q in
  let s1 := if contains query_lower content_lower then (s0 + (5 # 10))%Q else s0 in
  let term_coverage :=
    (inject_Z (Z.of_nat (List.length (List.filter (fun t => contains t content_lower) query_terms)))
     / inject_Z (Z.of_nat (Nat.max (List.length query_terms) 1)))%Q in
  let s2 := (s1 + term_coverage * (3 # 10))%Q in
  if ChunkType_eqb (chunk_type chunk) HEADING then (s2 + (2 # 10))%Q else s2.

Definition _structural_rerank (cfg : Settings) (db : Db) (candidates : gmap string Scores)
    (query : string) (query_terms : list string) : list RetrievedChunk :=
  if bool_decide (candidates = ∅) then []
  else
    let chunks := chunks_in db candidates in
    let docs := docs_of db chunks in
    List.map
      (fun chunk =>
         let scores := scores_of candidates (id chunk) in
         let doc := docs !! document_id chunk in
         let structural_score := structural query query_terms chunk in
         let doc_boost :=
           ((match doc with Some d => reliability_score d | None => 1 end)
            * confidence_weight chunk)%Q in
         let final_score :=
           ((BM25_WEIGHT cfg * s_bm25 scores
             + DENSE_WEIGHT cfg * s_dense scores
             + STRUCTURAL_WEIGHT cfg * structural_score) * doc_boost)%Q in
         {| chunk_id := id chunk;
            r_content := content chunk;
            r_document_id := document_id chunk;
            document_name := match doc with Some d => filename d | None => "Unknown" end;
            r_page_number := page_number chunk;
            r_section_title := section_title chunk;
            r_chunk_type := chunk_type chunk;
            bm25_score := s_bm25 scores;
            dense_score := s_dense scores;
            structural_score := structural_score;
            final_score := final_score;
            r_confidence_weight := confidence_weight chunk |})
      chunks.

(** ** [sorted(results, key=..., reverse=True)]

    [sorted] is stable, also with [reverse=True]: elements with equal keys
    keep their order.  Insertion from the right, each element going in front
    of the first one whose key is not greater, computes that list. *)
Fixpoint insert_desc {A} (key : A -> Q) (x : A) (l : list A) : list A :=
  match l with
  | [] => [x]
  | y :: l' =>
      if Qle_bool (key y) (key x) then x :: l else y :: insert_desc key x l'
  end.

Definition sorted_desc {A} (key : A -> Q) (l : list A) : list A :=
  List.fold_right (insert_desc key) [] l.

(** [l[:k]]: a negative [k] counts from the end. *)
Definition slice_to {A} (k : Z) (l : list A) : list A :=
  if Z.leb 0 k then List.firstn (Z.to_nat k) l
  else List.firstn (List.length l - Z.to_nat (- k)) l.

(** Steps 1 to 4 of [retrieve]: its local [candidates] before the filter. *)
Definition retrieve_candidates `{EmbeddingModel} `{FlatIndex} (cfg : Settings) (db : Db)
    (vector_index : VectorIndexService) (query : string) : gmap string Scores :=
  let query_terms := _extract_query_terms query in
  let bm25_results := _bm25_search db query_terms (TOP_K_RETRIEVAL cfg * 2) in
  let dense_results := search cfg vector_index query (TOP_K_RETRIEVAL cfg * 2) in
  _merge_results bm25_results dense_results.

(** [document_ids or categories or min_reliability > 0] *)
Definition filter_requested (document_ids categories : option (list string))
    (min_reliability : Q) : bool :=
  truthy document_ids || truthy categories
  || (if Qlt_le_dec 0 min_reliability then true else false).

(** Steps 1 to 6 of [retrieve]: its local [results]. *)
Definition retrieve_results `{EmbeddingModel} `{FlatIndex} (cfg : Settings) (db : Db)
    (vector_index : VectorIndexService) (query : string)
    (document_ids categories : option (list string)) (min_reliability : Q)
    : list RetrievedChunk :=
  let query_terms := _extract_query_terms query in
  let candidates := retrieve_candidates cfg db vector_index query in
  let candidates :=
    if filter_requested document_ids categories min_reliability
    then _filter_candidates db candidates document_ids categories min_reliability
    else candidates in
  _structural_rerank cfg db candidates query query_terms.

Definition retrieve `{EmbeddingModel} `{FlatIndex} (cfg : Settings) (db : Db)
    (vector_index : VectorIndexService) (query : string)
    (document_ids categories : option (list string)) (min_reliability : Q) (top_k : Z)
    : list RetrievedChunk :=
  let results :=
    retrieve_results cfg db vector_index query document_ids categories min_reliability in
  slice_to top_k (sorted_desc final_score results).

(** ** [get_context_window] *)

(** [ORDER BY sequence_index]: ascending.  SQLite leaves the order of rows
    with equal keys open; they are kept in table order here. *)
Fixpoint insert_asc {A} (key : A -> Z) (x : A) (l : list A) : list A :=
  match l with
  | [] => [x]
  | y :: l' =>
      if Z.leb (key x) (key y) then x :: l else y :: insert_asc key x l'
  end.

Definition order_by {A} (key : A -> Z) (l : list A) : list A :=
  List.fold_right (insert_asc key) [] l.

(** [Chunk.sequence_index.between(lo, hi)]: false of a NULL. *)
Definition in_window (lo hi : Z) (c : Chunk) : bool :=
  match sequence_index c with
  | Some n => Z.leb lo (Z.of_nat n) && Z.leb (Z.of_nat n) hi
  | None => false
  end.

Definition sequence_key (c : Chunk) : Z := Z.of_nat (stored_sequence_index c).

(** The rows returned, or [None] when the target has no sequence index
    ([None - window_size] raises a [TypeError]). *)
Definition get_context_window (db : Db) (chunk_id : string) (window_size : Z)
    : option (list Chunk) :=
  match List.find (fun c => String.eqb (id c) chunk_id) (chunk_rows db) with
  | None => Some []
  | Some target =>
      match sequence_index target with
      | None => None
      | Some t =>
          let lo := (Z.of_nat t - window_size)%Z in
          let hi := (Z.of_nat t + window_size)%Z in
          Some (order_by sequence_key
                  (List.filter
                     (fun c => String.eqb (document_id c) (document_id target)
                               && in_window lo hi c)
                     (chunk_rows db)))
      end
  end.

End Retrieval.

(* ===================================================================== *)
(** * [services/context_service.py] *)
(* ===================================================================== *)

Module Context.
Import Text Models Retrieval.

Record ContextChunk : Type := {
  marker : string;
  cc_content : string;
  citation : string;
  cc_chunk_id : string
}.

(** [ContextService(max_tokens=4000)] *)
Record ContextService : Type := { max_tokens : Z }.
Definition default_service : ContextService := {| max_tokens := 4000 |}.

(** The two characters written in front of a section title, as the source
    file holds them (UTF-8 bytes). *)
Definition section_sign : string :=
  String (ascii_of_nat 224) (String (ascii_of_nat 184) (String (ascii_of_nat 162)
  (String (ascii_of_nat 224) (String (ascii_of_nat 184) (String (ascii_of_nat 135)
  EmptyString))))).

(** The first loop: keep a chunk unless the first 100 characters of its
    content were seen before. *)
Fixpoint dedup (seen_content : gset string) (chunks : list RetrievedChunk)
    : list RetrievedChunk :=
  match chunks with
  | [] => []
  | chunk :: rest =>
      let content_key := take 100 (r_content chunk) in
      if bool_decide (content_key ∈ seen_content) then dedup seen_content rest
      else chunk :: dedup ({[content_key]} ∪ seen_content) rest
  end.

Definition make_marker (i : nat) : string := "[" ++ str_of_nat i ++ "]".

Definition make_citation (chunk : RetrievedChunk) : string :=
  let page_part :=
    match r_page_number chunk with
    | Some (S n) => ["p." ++ str_of_nat (S n)]
    | _ => []
    end in
  let section_part :=
    match r_section_title chunk with
    | Some t => if nonempty t then [section_sign ++ t] else []
    | None => []
    end in
  let citation_parts := ([document_name chunk] ++ page_part ++ section_part)%list in
  join " | " citation_parts.

Definition format_chunk (i : nat) (chunk : RetrievedChunk) : string :=
  make_marker i ++ " " ++ r_content chunk.

(** [sum(len(p) for p in context_parts)] *)
Definition total_length (parts : list string) : nat :=
  List.fold_right (fun p n => String.length p + n) 0 parts.

(** [n // 4] on a length *)
Definition tokens_of (n : nat) : Z := Z.of_nat n / 4.

(** The second loop, from the chunk of rank [i] on; it stops at the first
    chunk that does not fit ([break]). *)
Fixpoint pack (svc : ContextService) (i : nat)
    (context_parts : list string) (context_chunks : list ContextChunk)
    (unique_chunks : list RetrievedChunk) : list string * list ContextChunk :=
  match unique_chunks with
  | [] => (context_parts, context_chunks)
  | chunk :: rest =>
      let formatted := format_chunk i chunk in
      let estimated_tokens := tokens_of (total_length context_parts) in
      if Z.ltb (max_tokens svc) (estimated_tokens + tokens_of (String.length formatted))
      then (context_parts, context_chunks)
      else
        pack svc (S i) (context_parts ++ [formatted])%list
          (context_chunks ++ [{| marker := make_marker i;
                                 cc_content := r_content chunk;
                                 citation := make_citation chunk;
                                 cc_chunk_id := chunk_id chunk |}])%list
          rest
  end.

Definition context_header : string :=
  "REFERENCE SOURCES (use citation markers in your answer):"
  ++ String newline (String newline EmptyString).

Definition blank_line : string := String newline (String newline EmptyString).

Definition build_context (svc : ContextService) (chunks : list RetrievedChunk)
    (query : string) : string * list ContextChunk :=
  match chunks with
  | [] => (EmptyString, [])
  | _ :: _ =>
      let unique_chunks := dedup ∅ chunks in
      let '(context_parts, context_chunks) := pack svc 1 [] [] unique_chunks in
      (context_header ++ join blank_line context_parts, context_chunks)
  end.

(** The parts [build_context] joins into the context string. *)
Definition context_parts_of (svc : ContextService) (chunks : list RetrievedChunk)
    : list string :=
  fst (pack svc 1 [] [] (dedup ∅ chunks)).

(** ** [expand_context_window] *)

(** The [RetrievedChunk] built from an adjacent row: it takes the document
    name of the chunk it stands next to and half its final score; the other
    scores keep the defaults of the dataclass. *)
Definition adjacent_chunk (chunk : RetrievedChunk) (adj : Chunk) : RetrievedChunk :=
  {| chunk_id := id adj;
     r_content := content adj;
     r_document_id := document_id adj;
     document_name := document_name chunk;
     r_page_number := page_number adj;
     r_section_title := section_title adj;
     r_chunk_type := chunk_type adj;
     bm25_score := 0;
     dense_score := 0;
     structural_score := 0;
     final_score := (final_score chunk * (5 # 10))%Q;
     r_confidence_weight := confidence_weight adj |}.

(** The query for the adjacent rows.  A [RetrievedChunk] has no attribute
    [sequence_index], so [hasattr] is false and both bounds of [between]
    are 0, whatever [window_size] is. *)
Definition adjacent_rows (db : Database.Db) (chunk : RetrievedChunk) (window_size : Z)
    : list Chunk :=
  List.filter
    (fun c => String.eqb (document_id c) (r_document_id chunk)
              && match sequence_index c with
                 | Some n => Z.leb 0 (Z.of_nat n) && Z.leb (Z.of_nat n) 0
                 | None => false
                 end)
    (Database.chunk_rows db).

(** The locals [expanded] and [seen_ids]. *)
Definition Expansion : Type := (list RetrievedChunk * gset string)%type.

Definition add_unseen (cid : string) (r : RetrievedChunk) (st : Expansion) : Expansion :=
  let '(expanded, seen_ids) := st in
  if bool_decide (cid ∈ seen_ids) then st
  else ((expanded ++ [r])%list, {[cid]} ∪ seen_ids).

(** The body of the loop over [chunks]. *)
Definition expand_step (db : Database.Db) (window_size : Z) (st : Expansion)
    (chunk : RetrievedChunk) : Expansion :=
  let st := add_unseen (chunk_id chunk) chunk st in
  List.fold_left (fun st adj => add_unseen (id adj) (adjacent_chunk chunk adj) st)
    (adjacent_rows db chunk window_size) st.

Definition expand_context_window (chunks : list RetrievedChunk) (db : Database.Db)
    (window_size : Z) : list RetrievedChunk :=
  let '(expanded, _) := List.fold_left (expand_step db window_size) chunks ([], ∅) in
  sorted_desc final_score expanded.

End Context.

(* ===================================================================== *)
(** * [services/validation_service.py] *)
(* ===================================================================== *)

Module Validation.
Import Text Config Embedding Context.

Inductive MatchType : Type := CITED | EXACT | PARAPHRASE | INFERRED | UNGROUNDED.

Record GroundingResult : Type := {
  sentence : string;
  is_grounded : bool;
  confidence : Q;
  matched_chunks : list string;
  matched_excerpts : list string;
  match_type : MatchType
}.

Record ValidationResult : Type := {
  is_valid : bool;
  grounding_score : Q;
  sentence_results : list GroundingResult;
  warnings : list string;
  errors : list string
}.

(** [a > b] and [a >= b] on floats *)
Definition gt (a b : Q) : bool := negb (Qle_bool a b).
Definition ge (a b : Q) : bool := Qle_bool b a.

(** ** [_split_sentences] *)

(** The three lookbehinds of the pattern, on the characters before the
    position, the nearest first: [(?<=\.|\?|\!)] holds, [(?<!\w\.\w.)] and
    [(?<![A-Z][a-z]\.)] do not match. *)
Definition ends_sentence (before : list ascii) : bool :=
  match before with
  | p1 :: rest =>
      is_terminator p1
      && negb (match rest with
               | p2 :: p3 :: p4 :: _ =>
                   is_word p4 && Nat.eqb (code p3) 46 && is_word p2
                   && negb (Ascii.eqb p1 newline)
               | _ => false
               end)
      && negb (match rest with
               | p2 :: p3 :: _ => is_upper p3 && is_lower p2 && Nat.eqb (code p1) 46
               | _ => false
               end)
  | [] => false
  end.

(** [re.sub(pattern, '\n', text)]: the pattern matches one whitespace character. *)
Fixpoint mark_sentence_ends (before : list ascii) (text : string) : string :=
  match text with
  | EmptyString => EmptyString
  | String c text' =>
      String (if is_space c && ends_sentence before then newline else c)
        (mark_sentence_ends (c :: before) text')
  end.

Definition _split_sentences (text : string) : list string :=
  List.filter nonempty
    (List.map strip (split_char newline (mark_sentence_ends [] text))).

(** ** [_semantic_similarity] *)
Definition _semantic_similarity `{EmbeddingModel} (cfg : Settings) (text1 text2 : string) : Q :=
  let emb1 := embed_text cfg text1 in
  let emb2 := embed_text cfg text2 in
  let similarity := dot emb1 emb2 in
  Qmax 0 (Qmin 1 similarity).

(** ** [_fuzzy_match_score] *)

Definition fuzzy_stopwords : gset string :=
  list_to_set
    ["the"; "a"; "an"; "is"; "are"; "was"; "were"; "be"; "been";
     "to"; "of"; "in"; "for"; "on"; "with"; "at"; "by"; "from";
     "this"; "that"; "these"; "those"; "it"; "its"].

(** [set(re.findall(r'\b\w+\b', s))] *)
Definition word_set (s : string) : gset string := list_to_set (findall_words s).

Definition _fuzzy_match_score (sentence content : string) : Q :=
  let sentence_lower := strip (sub_markers (lower sentence)) in
  let content_lower := lower content in
  let sentence_words := word_set sentence_lower ∖ fuzzy_stopwords in
  let content_words := word_set content_lower ∖ fuzzy_stopwords in
  if bool_decide (sentence_words = ∅) then 0%Q
  else
    let overlap := size (sentence_words ∩ content_words) in
    (inject_Z (Z.of_nat overlap) / inject_Z (Z.of_nat (size sentence_words)))%Q.

(** ** [_find_matching_excerpt] *)
Definition _find_matching_excerpt (sentence content : string) (max_length : nat) : string :=
  let sentence_words := word_set (lower sentence) in
  let content_sentences := _split_sentences content in
  let '(best_excerpt, _) :=
    List.fold_left
      (fun '(best_excerpt, best_score) excerpt =>
         let excerpt_words := word_set (lower excerpt) in
         let overlap := size (sentence_words ∩ excerpt_words) in
         if Nat.ltb best_score overlap then (excerpt, overlap)
         else (best_excerpt, best_score))
      content_sentences (EmptyString, 0) in
  if Nat.ltb max_length (String.length best_excerpt)
  then take max_length best_excerpt ++ "..."
  else best_excerpt.

Definition default_max_length : nat := 200.

(** ** [_validate_sentence] *)

(** [content_index]: a dict comprehension keeps a key at the place of its
    first insertion and gives it the value of the last one. *)
Fixpoint index_set (k v : string) (items : list (string * string)) : list (string * string) :=
  match items with
  | [] => [(k, v)]
  | (k', v') :: rest =>
      if String.eqb k k' then (k, v) :: rest else (k', v') :: index_set k v rest
  end.

Definition build_content_index (context_chunks : list ContextChunk) : list (string * string) :=
  List.fold_left (fun items chunk => index_set (cc_chunk_id chunk) (lower (cc_content chunk)) items)
    context_chunks [].

(** Strategy 1: the first cited chunk whose similarity with the sentence
    exceeds 0.5. *)
Fixpoint check_citations `{EmbeddingModel} (cfg : Settings) (sentence : string)
    (context_chunks : list ContextChunk) (citations : list string) : option GroundingResult :=
  match citations with
  | [] => None
  | citation_num :: rest =>
      let idx := (int_of_digits citation_num - 1)%Z in
      let next := check_citations cfg sentence context_chunks rest in
      if Z.leb 0 idx && Z.ltb idx (Z.of_nat (List.length context_chunks)) then
        match List.nth_error context_chunks (Z.to_nat idx) with
        | Some chunk =>
            let similarity := _semantic_similarity cfg sentence (cc_content chunk) in
            if gt similarity (5 # 10) then
              Some {| sentence := sentence;
                      is_grounded := true;
                      confidence := similarity;
                      matched_chunks := [cc_chunk_id chunk];
                      matched_excerpts :=
                        [_find_matching_excerpt sentence (cc_content chunk) default_max_length];
                      match_type := CITED |}
            else next
        | None => next
        end
      else next
  end.

(** Strategy 2: the first entry of the content index that holds the cleaned
    sentence. *)
Fixpoint check_exact (sentence sentence_lower : string) (items : list (string * string))
    : option GroundingResult :=
  match items with
  | [] => None
  | (chunk_id, content) :: rest =>
      let clean_sentence := strip (sub_markers sentence_lower) in
      if Nat.ltb 20 (String.length clean_sentence) && contains clean_sentence content then
        Some {| sentence := sentence;
                is_grounded := true;
                confidence := 1;
                matched_chunks := [chunk_id];
                matched_excerpts := [clean_sentence];
                match_type := EXACT |}
      else check_exact sentence sentence_lower rest
  end.

(** The state of the loops of strategies 3 and 4: the best chunk so far
    ([None] before any), its score and its excerpt. *)
Definition Best : Type := (option string * Q * string)%type.
Definition no_best : Best := (None, 0%Q, EmptyString).

Definition best_by (score_of : string -> string -> Q) (sentence : string)
    (context_chunks : list ContextChunk) : Best :=
  List.fold_left
    (fun '(best_chunk, best_score, best_excerpt) chunk =>
       let score := score_of sentence (cc_content chunk) in
       if gt score best_score then
         (Some (cc_chunk_id chunk), score,
          _find_matching_excerpt sentence (cc_content chunk) default_max_length)
       else (best_chunk, best_score, best_excerpt))
    context_chunks no_best.

(** [[x] if x else []] on a chunk id that may be [None], and on a string *)
Definition singleton_if_id (o : option string) : list string :=
  match o with
  | Some s => if nonempty s then [s] else []
  | None => []
  end.
Definition singleton_if (s : string) : list string := if nonempty s then [s] else [].

Definition _validate_sentence `{EmbeddingModel} (cfg : Settings) (sentence : string)
    (context_chunks : list ContextChunk) (content_index : list (string * string))
    : GroundingResult :=
  let sentence_lower := lower sentence in
  let citations := findall_markers sentence in
  match check_citations cfg sentence context_chunks citations with
  | Some r => r
  | None =>
  match check_exact sentence sentence_lower content_index with
  | Some r => r
  | None =>
  let '(best_match_chunk, best_match_score, best_excerpt) :=
    best_by _fuzzy_match_score sentence context_chunks in
  if gt best_match_score (6 # 10) then
    {| sentence := sentence;
       is_grounded := true;
       confidence := best_match_score;
       matched_chunks := singleton_if_id best_match_chunk;
       matched_excerpts := singleton_if best_excerpt;
       match_type := PARAPHRASE |}
  else
  let '(best_semantic_chunk, best_semantic_score, best_semantic_excerpt) :=
    best_by (_semantic_similarity cfg) sentence context_chunks in
  if gt best_semantic_score (7 # 10) then
    {| sentence := sentence;
       is_grounded := true;
       confidence := best_semantic_score;
       matched_chunks := singleton_if_id best_semantic_chunk;
       matched_excerpts := singleton_if best_semantic_excerpt;
       match_type := INFERRED |}
  else
    {| sentence := sentence;
       is_grounded := false;
       confidence := Qmax best_match_score best_semantic_score;
       matched_chunks := [];
       matched_excerpts := [];
       match_type := UNGROUNDED |}
  end end.

(** ** [validate_answer] *)

Definition grounded_count (results : list GroundingResult) : nat :=
  List.length (List.filter is_grounded results).

Definition validate_answer `{EmbeddingModel} (cfg : Settings) (answer : string)
    (context_chunks : list ContextChunk) : ValidationResult :=
  if negb (nonempty answer) || is_nil context_chunks then
    {| is_valid := false;
       grounding_score := 0;
       sentence_results := [];
       warnings := ["Empty answer or context"];
       errors := [] |}
  else
    let min_confidence := MIN_GROUNDING_CONFIDENCE cfg in
    let sentences := _split_sentences answer in
    let content_index := build_content_index context_chunks in
    let sentence_results :=
      List.map (fun s => _validate_sentence cfg s context_chunks content_index) sentences in
    let grounding_score :=
      match sentence_results with
      | [] => 0%Q
      | _ :: _ =>
          (inject_Z (Z.of_nat (grounded_count sentence_results))
           / inject_Z (Z.of_nat (List.length sentence_results)))%Q
      end in
    let is_valid := ge grounding_score min_confidence in
    let ungrounded :=
      List.map sentence (List.filter (fun r => negb (is_grounded r)) sentence_results) in
    let warnings1 :=
      if is_nil ungrounded then []
      else [str_of_nat (List.length ungrounded) ++ " sentence(s) could not be verified"] in
    let errors :=
      if gt (5 # 10) grounding_score
      then ["Less than 50% of the answer is grounded in sources"] else [] in
    let warnings2 :=
      if search_marker answer then warnings1
      else (warnings1 ++ ["Answer contains no citation markers"])%list in
    {| is_valid := is_valid;
       grounding_score := grounding_score;
       sentence_results := sentence_results;
       warnings := warnings2;
       errors := errors |}.

(** ** [reject_if_ungrounded] *)

(** [f"{x:.0%}"]: the text Python prints for a float as a percentage. *)
Class PercentFormat : Type := { format_percent : Q -> string }.

(** [(should_reject, rejection_reason)] *)
Definition reject_if_ungrounded `{PercentFormat} (cfg : Settings)
    (validation_result : ValidationResult) : bool * option string :=
  match errors validation_result with
  | e :: _ => (true, Some e)
  | [] =>
      if gt (MIN_GROUNDING_CONFIDENCE cfg) (grounding_score validation_result) then
        (true,
         Some ("Answer grounding (" ++ format_percent (grounding_score validation_result)
               ++ ") below threshold ("
               ++ format_percent (MIN_GROUNDING_CONFIDENCE cfg) ++ ")"))
      else (false, None)
  end.

End Validation.

(* ===================================================================== *)
(** * [ExtractiveLLMService] of [services/llm_service.py] *)
(* ===================================================================== *)

Module Extractive.
Import Text Context.

(** One entry of the [quotes] list. *)
Record VerifiedQuote : Type := {
  quote : string;
  q_citation : string;
  source : string;
  verified : bool
}.

(** The dict [_parse_extractive_response] returns; [all_verified] is [None]
    when the dict has no such key. *)
Record ExtractiveAnswer : Type := {
  answer : option string;
  found : bool;
  quotes : list VerifiedQuote;
  all_verified : option bool
}.

(** [0 <= idx < len(context_chunks)] for [idx = int(citation_num) - 1] *)
Definition in_range (context_chunks : list ContextChunk) (citation_num : string) : bool :=
  let idx := (int_of_digits citation_num - 1)%Z in
  Z.leb 0 idx && Z.ltb idx (Z.of_nat (List.length context_chunks)).

(** The body of the loop over the extracted pairs. *)
Definition verify_quote (context_chunks : list ContextChunk) (pair : string * string)
    : list VerifiedQuote :=
  let '(quote, citation_num) := pair in
  let idx := (int_of_digits citation_num - 1)%Z in
  if in_range context_chunks citation_num then
    match List.nth_error context_chunks (Z.to_nat idx) with
    | Some chunk =>
        [{| quote := quote;
            q_citation := "[" ++ citation_num ++ "]";
            source := citation chunk;
            verified := contains (lower quote) (lower (cc_content chunk)) |}]
    | None => []
    end
  else [].

Definition _parse_extractive_response (response : string)
    (context_chunks : list ContextChunk) : ExtractiveAnswer :=
  if contains "NOT_FOUND" (upper response) then
    {| answer := None; found := false; quotes := []; all_verified := None |}
  else
    let quotes := findall_quotes response in
    let verified_quotes := List.flat_map (verify_quote context_chunks) quotes in
    {| answer := Some response;
       found := true;
       quotes := verified_quotes;
       all_verified :=
         Some (match verified_quotes with
               | [] => false
               | _ :: _ => List.forallb verified verified_quotes
               end) |}.

End Extractive.

(* ===================================================================== *)
(** * [services/ingestion_service.py] *)
(* ===================================================================== *)

Module Ingestion.
Import Text Config Models Database.
Local Open Scope list_scope.

(** A raised exception, with [str(e)]. *)
Inductive exn : Type := Exception (message : string).
Definition str_of_exn (e : exn) : string := match e with Exception m => m end.

(** The outcome of a call that may raise. *)
Definition result (A : Type) : Type := (exn + A)%type.

(** What the service reads off a [Path]: its name, its suffix, its size and
    the SHA-256 digest of its bytes. *)
Record Path : Type := {
  path_str : string;
  name : string;
  suffix : string;
  st_size : nat;
  sha256_of_bytes : string
}.

Inductive HtmlTag : Type := H (level : nat) | P | LI.

(** The libraries that open and parse a file, and the digest of a text:
    - [pdf_pages]: [PdfReader(str(filepath))] opens the file or raises; once
      it is open, [page.extract_text() or ""] gives the text of a page or
      raises, page by page;
    - [docx_paragraphs]: [para.text] and [para.style.name] of each paragraph;
    - [read_text]: [f.read()];
    - [html_tags]: the tags of [soup.find_all([h1..h6, p, li])] with [get_text(strip=True)];
    - [ocr_text]: [pytesseract.image_to_string], or the [ImportError];
    - [sha256_hex]: [hashlib.sha256(s.encode()).hexdigest()]. *)
Class Readers : Type := {
  pdf_pages : Path -> result (list (result string));
  docx_paragraphs : Path -> result (list (string * option string));
  read_text : Path -> result string;
  html_tags : Path -> result (list (HtmlTag * string));
  ocr_text : Path -> result string;
  sha256_hex : string -> string
}.

Definition _detect_file_type (filepath : Path) : DocumentType :=
  let ext := lower (suffix filepath) in
  if String.eqb ext ".pdf" then PDF
  else if String.eqb ext ".docx" then DOCX
  else if String.eqb ext ".doc" then DOCX
  else if String.eqb ext ".txt" then TXT
  else if String.eqb ext ".html" then HTML
  else if String.eqb ext ".htm" then HTML
  else if String.eqb ext ".xlsx" then XLSX
  else if String.eqb ext ".xls" then XLSX
  else if String.eqb ext ".md" then MARKDOWN
  else if String.eqb ext ".png" then IMAGE
  else if String.eqb ext ".jpg" then IMAGE
  else if String.eqb ext ".jpeg" then IMAGE
  else TXT.

Definition _compute_file_hash (filepath : Path) : string := sha256_of_bytes filepath.

(** ** [_chunk_text_with_structure] *)

(** The local variables of the loop. *)
Record Chunker : Type := {
  chunks : list Chunk;
  current_chunk : list string;
  current_length : nat;
  next_index : nat
}.

(** The chunk built at each of the four flush sites. *)
Definition text_chunk `{Readers} (document : Document) (page_number : option nat)
    (pieces : list string) (sequence_index : nat) : Chunk :=
  let content := join " " pieces in
  {| id := EmptyString;
     document_id := doc_id document;
     content := content;
     content_hash := Some (take 32 (sha256_hex content));
     page_number := page_number;
     section_title := None;
     chunk_type := PARAGRAPH;
     heading_level := None;
     confidence_weight := 1;
     sequence_index := Some sequence_index |}.

(** Append the chunk, advance [sequence_index], reset the buffer. *)
Definition flush `{Readers} (document : Document) (page_number : option nat)
    (st : Chunker) : Chunker :=
  {| chunks := chunks st
               ++ [text_chunk document page_number (current_chunk st) (next_index st)];
     current_chunk := [];
     current_length := 0;
     next_index := S (next_index st) |}.

(** Add a sentence or a whole paragraph: flush first when it would not fit. *)
Definition add_piece `{Readers} (cfg : Settings) (document : Document)
    (page_number : option nat) (st : Chunker) (piece : string) : Chunker :=
  let st :=
    if Nat.ltb (CHUNK_SIZE cfg) (current_length st + String.length piece)
       && negb (is_nil (current_chunk st))
    then flush document page_number st else st in
  {| chunks := chunks st;
     current_chunk := current_chunk st ++ [piece];
     current_length := current_length st + String.length piece + 1;
     next_index := next_index st |}.

(** The body of the loop over the paragraphs. *)
Definition add_paragraph `{Readers} (cfg : Settings) (document : Document)
    (page_number : option nat) (st : Chunker) (para : string) : Chunker :=
  let para := strip para in
  if negb (nonempty para) then st
  else if Nat.ltb (CHUNK_SIZE cfg) (String.length para) then
    let st := if negb (is_nil (current_chunk st))
              then flush document page_number st else st in
    let sentences := re_split match_sentence_gap para in
    List.fold_left
      (fun st sent =>
         let sent := strip sent in
         if negb (nonempty sent) then st
         else add_piece cfg document page_number st sent)
      sentences st
  else add_piece cfg document page_number st para.

Definition _chunk_text_with_structure `{Readers} (cfg : Settings) (text : string)
    (document : Document) (page_number : option nat) : list Chunk :=
  let paragraphs := re_split match_blank_line text in
  let st :=
    List.fold_left (add_paragraph cfg document page_number) paragraphs
      {| chunks := []; current_chunk := []; current_length := 0; next_index := 0 |} in
  if negb (is_nil (current_chunk st))
  then chunks st ++ [text_chunk document page_number (current_chunk st) (next_index st)]
  else chunks st.

(** ** [_merge_small_chunks] *)

Definition default_min_size : nat := 100.

Definition is_small (min_size : nat) (chunk : Chunk) : bool :=
  Nat.ltb (String.length (content chunk)) min_size
  && negb (ChunkType_eqb (chunk_type chunk) HEADING).

(** [a.content += " " + b.content] *)
Definition append_content (a b : Chunk) : Chunk :=
  set_content a (content a ++ " " ++ content b)%string.

(** The body of the loop, on the locals [merged] and [buffer]. *)
Definition merge_step (min_size : nat) (st : list Chunk * option Chunk) (chunk : Chunk)
    : list Chunk * option Chunk :=
  let '(merged, buffer) := st in
  if is_small min_size chunk then
    match buffer with
    | Some b => (merged, Some (append_content b chunk))
    | None => (merged, Some chunk)
    end
  else
    match buffer with
    | Some b =>
        if Nat.ltb (String.length (content b)) min_size
        then (merged ++ [set_content chunk (content b ++ " " ++ content chunk)%string], None)
        else (merged ++ [b; chunk], None)
    | None => (merged ++ [chunk], None)
    end.

(** [merged[-1].content += " " + buffer.content] *)
Fixpoint append_to_last (merged : list Chunk) (b : Chunk) : list Chunk :=
  match merged with
  | [] => []
  | [c] => [append_content c b]
  | c :: rest => c :: append_to_last rest b
  end.

Definition _merge_small_chunks (chunks : list Chunk) (min_size : nat) : list Chunk :=
  if Nat.ltb (List.length chunks) 2 then chunks
  else
    let '(merged, buffer) := List.fold_left (merge_step min_size) chunks ([], None) in
    match buffer with
    | Some b =>
        match merged with
        | [] => [b]
        | _ :: _ => append_to_last merged b
        end
    | None => merged
    end.

(** ** The processors *)

Definition structured_chunk (document : Document) (text : string) (type : ChunkType)
    (level : option nat) (section : option string) (weight : Q) : Chunk :=
  {| id := EmptyString;
     document_id := doc_id document;
     content := text;
     content_hash := None;
     page_number := None;
     section_title := section;
     chunk_type := type;
     heading_level := level;
     confidence_weight := weight;
     sequence_index := None |}.

(** What a processor leaves behind: it returns the chunks or raises, and
    either way the document is as the processor left it. *)
Definition processed : Type := (exn * Document + Document * list Chunk)%type.

(** [enumerate(reader.pages, 1)]: the pages from number [page_num] on.  The
    first page whose extraction raises ends the loop with its exception. *)
Fixpoint pdf_chunks `{Readers} (cfg : Settings) (document : Document)
    (page_num : nat) (pages : list (result string)) : result (list Chunk) :=
  match pages with
  | [] => inr []
  | inl e :: _ => inl e
  | inr text :: rest =>
      if negb (nonempty (strip text)) then pdf_chunks cfg document (S page_num) rest
      else
        let page_chunks := _chunk_text_with_structure cfg text document (Some page_num) in
        match pdf_chunks cfg document (S page_num) rest with
        | inl e => inl e
        | inr chunks => inr (page_chunks ++ chunks)
        end
  end.

Definition set_page_count (d : Document) (n : nat) : Document :=
  {| doc_id := doc_id d; filename := filename d; filepath := filepath d;
     file_type := file_type d; file_size := file_size d; file_hash := file_hash d;
     status := status d; error_message := error_message d; title := title d;
     author := author d; category := category d; tags := tags d;
     reliability_score := reliability_score d; page_count := n;
     chunk_count := chunk_count d |}.

(** [document.page_count] is set as soon as the file is open, before any
    page is read. *)
Definition _process_pdf `{Readers} (cfg : Settings) (document : Document) (filepath : Path)
    : processed :=
  match pdf_pages filepath with
  | inl e => inl (e, document)
  | inr pages =>
      let document := set_page_count document (List.length pages) in
      match pdf_chunks cfg document 1 pages with
      | inl e => inl (e, document)
      | inr chunks => inr (document, chunks)
      end
  end.

(** [int(re.search(r"\d", style).group())], or 1 without a digit *)
Fixpoint first_digit (style : string) : nat :=
  match style with
  | EmptyString => 1
  | String c rest => if is_digit c then code c - 48 else first_digit rest
  end.

Fixpoint docx_chunks (document : Document) (current_section : option string)
    (paragraphs : list (string * option string)) : list Chunk :=
  match paragraphs with
  | [] => []
  | (para_text, para_style) :: rest =>
      let text := strip para_text in
      if negb (nonempty text) then docx_chunks document current_section rest
      else
        let style := match para_style with Some n => lower n | None => EmptyString end in
        if contains "heading" style then
          structured_chunk document text HEADING (Some (first_digit style)) (Some text) (12 # 10)
          :: docx_chunks document (Some text) rest
        else
          structured_chunk document text PARAGRAPH None current_section 1
          :: docx_chunks document current_section rest
  end.

Definition _process_docx `{Readers} (document : Document) (filepath : Path)
    : processed :=
  match docx_paragraphs filepath with
  | inl e => inl (e, document)
  | inr paragraphs =>
      inr (document, _merge_small_chunks (docx_chunks document None paragraphs) default_min_size)
  end.

Definition _process_text `{Readers} (cfg : Settings) (document : Document) (filepath : Path)
    : processed :=
  match read_text filepath with
  | inl e => inl (e, document)
  | inr text => inr (document, _chunk_text_with_structure cfg text document None)
  end.

Definition html_chunk (document : Document) (tag : HtmlTag) (text : string) : Chunk :=
  match tag with
  | H level => structured_chunk document text HEADING (Some level) None (12 # 10)
  | LI => structured_chunk document text LIST_ITEM None None 1
  | P => structured_chunk document text PARAGRAPH None None 1
  end.

Definition _process_html `{Readers} (document : Document) (filepath : Path)
    : processed :=
  match html_tags filepath with
  | inl e => inl (e, document)
  | inr tags =>
      let chunks :=
        List.flat_map
          (fun '(tag, text) => if nonempty text then [html_chunk document tag text] else [])
          tags in
      inr (document, _merge_small_chunks chunks default_min_size)
  end.

Definition is_hash (c : ascii) : bool := Nat.eqb (code c) 35.

(** [re.match(r"^(#{1,6})\s+(.+)$", line)] on a stripped line: the level and
    the text of the header. *)
Definition match_header (line : string) : option (nat * string) :=
  let '(hashes, rest) := span is_hash line in
  let '(ws, text) := span is_space rest in
  let level := String.length hashes in
  if Nat.leb 1 level && Nat.leb level 6 && nonempty ws && nonempty text
  then Some (level, text) else None.

Fixpoint markdown_chunks (document : Document) (current_section : option string)
    (lines : list string) : list Chunk :=
  match lines with
  | [] => []
  | line :: rest =>
      let line := strip line in
      if negb (nonempty line) then markdown_chunks document current_section rest
      else
        match match_header line with
        | Some (level, text) =>
            structured_chunk document text HEADING (Some level) (Some text) (12 # 10)
            :: markdown_chunks document (Some text) rest
        | None =>
            structured_chunk document line PARAGRAPH None current_section 1
            :: markdown_chunks document current_section rest
        end
  end.

Definition _process_markdown `{Readers} (document : Document) (filepath : Path)
    : processed :=
  match read_text filepath with
  | inl e => inl (e, document)
  | inr content =>
      let chunks := markdown_chunks document None (split_char newline content) in
      inr (document, _merge_small_chunks chunks default_min_size)
  end.

Definition _process_image `{Readers} (cfg : Settings) (document : Document) (filepath : Path)
    : processed :=
  match ocr_text filepath with
  | inl e => inl (e, document)
  | inr text =>
      if negb (nonempty (strip text)) then inr (document, [])
      else inr (document, _chunk_text_with_structure cfg text document None)
  end.

Definition _process_document `{Readers} (cfg : Settings) (document : Document)
    (filepath : Path) : processed :=
  match file_type document with
  | PDF => _process_pdf cfg document filepath
  | DOCX => _process_docx document filepath
  | TXT => _process_text cfg document filepath
  | HTML => _process_html document filepath
  | MARKDOWN => _process_markdown document filepath
  | IMAGE => _process_image cfg document filepath
  | XLSX => _process_text cfg document filepath
  end.

(** ** [ingest_file] *)

(** The keys of the [metadata] dict the upload handler passes. *)
Record Metadata : Type := {
  m_title : option string;
  m_author : option string;
  m_category : option string;
  m_tags : option string;
  m_reliability_score : option Q
}.

Definition no_metadata : Metadata :=
  {| m_title := None; m_author := None; m_category := None; m_tags := None;
     m_reliability_score := None |}.

Definition set_status (d : Document) (s : DocumentStatus) (msg : option string)
    (n_chunks : nat) : Document :=
  {| doc_id := doc_id d; filename := filename d; filepath := filepath d;
     file_type := file_type d; file_size := file_size d; file_hash := file_hash d;
     status := s; error_message := msg; title := title d;
     author := author d; category := category d; tags := tags d;
     reliability_score := reliability_score d; page_count := page_count d;
     chunk_count := n_chunks |}.

(** The row written for a chunk: its primary key is drawn, and a column the
    object leaves unset takes its default. *)
Definition chunk_row (uuid : string) (c : Chunk) : Chunk :=
  {| id := uuid; document_id := document_id c; content := content c;
     content_hash := content_hash c; page_number := page_number c;
     section_title := section_title c; chunk_type := chunk_type c;
     heading_level := heading_level c; confidence_weight := confidence_weight c;
     sequence_index := Some (stored_sequence_index c) |}.

Fixpoint chunk_rows_from (uuid4 : nat -> string) (n : nat) (chunks : list Chunk) : list Chunk :=
  match chunks with
  | [] => []
  | c :: rest => chunk_row (uuid4 n) c :: chunk_rows_from uuid4 (S n) rest
  end.

(** [self.db.commit()] with the document and the chunks added to the session. *)
Definition commit (db : Db) (document : Document) (new_chunks : list Chunk) : Db :=
  {| chunk_rows := chunk_rows db ++ new_chunks;
     document_rows := document_rows db ++ [document];
     fts_bm25 := fts_bm25 db |}.

Definition new_document (uuid4 : nat -> string) (filepath : Path) (metadata : Metadata)
    : Document :=
  {| doc_id := uuid4 0;
     filename := name filepath;
     Models.filepath := path_str filepath;
     file_type := _detect_file_type filepath;
     file_size := st_size filepath;
     file_hash := _compute_file_hash filepath;
     status := PROCESSING;
     error_message := None;
     title := m_title metadata;
     author := m_author metadata;
     category := m_category metadata;
     tags := m_tags metadata;
     reliability_score := default 1%Q (m_reliability_score metadata);
     page_count := 0;
     chunk_count := 0 |}.

(** ** The session

    [self.db] is a SQLAlchemy session.  [add] records an object in the
    session, [flush] writes the recorded objects within the open
    transaction, and [commit] writes them and ends the transaction.  Each
    call does its work or raises; which calls raise is the environment's:
    - [flush_raises]: [self.db.flush()], once the document is added;
    - [add_raises k]: [self.db.add(chunk)] for the chunk of rank [k];
    - [commit_raises]: [self.db.commit()] of the try block;
    - [handler_commit_raises]: [self.db.commit()] of the handler.
    A call that raises writes nothing.  Whether the commit of the handler
    does its work after the commit of the try block has raised is the
    environment's as well: SQLAlchemy, which has rolled the transaction
    back by then, makes it raise until [rollback()] is called, which
    [ingest_file] never does. *)
Record Session : Type := {
  flush_raises : option exn;
  add_raises : nat -> option exn;
  commit_raises : option exn;
  handler_commit_raises : option exn
}.

(** The session on which no call raises. *)
Definition reliable : Session :=
  {| flush_raises := None;
     add_raises := fun _ => None;
     commit_raises := None;
     handler_commit_raises := None |}.

(** [for chunk in chunks: self.db.add(chunk)], from the chunk of rank [k]
    on: the chunks the session has recorded when the loop ends, and the
    exception that ended it, if one did. *)
Fixpoint add_all (session : Session) (k : nat) (chunks : list Chunk)
    : list Chunk * option exn :=
  match chunks with
  | [] => ([], None)
  | chunk :: rest =>
      match add_raises session k with
      | Some e => ([], Some e)
      | None =>
          let '(added, raised) := add_all session (S k) rest in
          (chunk :: added, raised)
      end
  end.

(** The handler of [ingest_file], entered with the exception [e], the
    document as the try block left it and the chunks the session has
    recorded.  Nothing is rolled back: the commit writes the document and
    those chunks, and [e] is raised again; when the commit itself raises,
    nothing is written and its exception is the one that leaves the call. *)
Definition mark_failed (session : Session) (uuid4 : nat -> string) (db : Db)
    (document : Document) (added : list Chunk) (e : exn) : Db * result Document :=
  let document := set_status document FAILED (Some (str_of_exn e))
                    (chunk_count document) in
  match handler_commit_raises session with
  | Some e' => (db, inl e')
  | None => (commit db document (chunk_rows_from uuid4 1 added), inl e)
  end.

(** [ingest_file] on the session [session]: the database after the call, and
    the document returned or the exception raised.  [uuid4] is the sequence
    of primary keys drawn: the document's first, then one per chunk
    written. *)
Definition ingest_file_on `{Readers} (session : Session) (cfg : Settings)
    (uuid4 : nat -> string) (db : Db) (filepath : Path) (metadata : Metadata)
    : Db * result Document :=
  let file_hash := _compute_file_hash filepath in
  match List.find (fun d => String.eqb (Models.file_hash d) file_hash) (document_rows db) with
  | Some existing => (db, inr existing)
  | None =>
      let document := new_document uuid4 filepath metadata in
      match flush_raises session with
      | Some e => (db, inl e)
      | None =>
          match _process_document cfg document filepath with
          | inl (e, document) => mark_failed session uuid4 db document [] e
          | inr (document, chunks) =>
              match add_all session 0 chunks with
              | (added, Some e) => mark_failed session uuid4 db document added e
              | (added, None) =>
                  let document := set_status document INDEXED (error_message document)
                                    (List.length chunks) in
                  match commit_raises session with
                  | Some e => mark_failed session uuid4 db document added e
                  | None =>
                      (commit db document (chunk_rows_from uuid4 1 chunks), inr document)
                  end
              end
          end
      end
  end.

(** [ingest_file] when the session does its work. *)
Definition ingest_file `{Readers} (cfg : Settings) (uuid4 : nat -> string) (db : Db)
    (filepath : Path) (metadata : Metadata) : Db * result Document :=
  ingest_file_on reliable cfg uuid4 db filepath metadata.

(** The rows of the chunks of a document. *)
Definition chunks_of (db : Db) (document_id : string) : list Chunk :=
  List.filter (fun c => String.eqb (Models.document_id c) document_id) (chunk_rows db).

End Ingestion.

(* ===================================================================== *)
(** * [utils/tokenizer.py] *)
(* ===================================================================== *)

Module Tokenizer.
Import Text.

Definition STOPWORDS : list string :=
  ["a"; "an"; "and"; "are"; "as"; "at"; "be"; "been"; "being"; "but"; "by";
   "can"; "could"; "did"; "do"; "does"; "doing"; "done"; "for"; "from";
   "had"; "has"; "have"; "having"; "he"; "her"; "here"; "hers"; "herself";
   "him"; "himself"; "his"; "how"; "i"; "if"; "in"; "into"; "is"; "it";
   "its"; "itself"; "just"; "me"; "might"; "more"; "most"; "must"; "my";
   "myself"; "no"; "nor"; "not"; "now"; "of"; "on"; "only"; "or"; "other";
   "our"; "ours"; "ourselves"; "out"; "over"; "own"; "same"; "she"; "should";
   "so"; "some"; "such"; "than"; "that"; "the"; "their"; "theirs"; "them";
   "themselves"; "then"; "there"; "these"; "they"; "this"; "those"; "through";
   "to"; "too"; "under"; "until"; "up"; "very"; "was"; "we"; "were"; "what";
   "when"; "where"; "which"; "while"; "who"; "whom"; "why"; "will"; "with";
   "would"; "you"; "your"; "yours"; "yourself"; "yourselves"].

(** Every character of [s] satisfies [p]. *)
Fixpoint all_chars (p : ascii -> bool) (s : string) : bool :=
  match s with
  | EmptyString => true
  | String c s' => p c && all_chars p s'
  end.

(** the class [[a-z0-9]] *)
Definition is_token_char (c : ascii) : bool := is_lower c || is_digit c.

(** [re.findall(r'\b[a-z0-9]+\b', s)].  The two word boundaries make a match
    a whole maximal run of word characters, and the class keeps the runs
    that hold nothing but small letters and digits: a run with an underscore
    or a capital gives no match at all. *)
Definition findall_tokens (s : string) : list string :=
  List.filter (all_chars is_token_char) (findall_words s).

Definition tokenize (text : string) : list string := findall_tokens (lower text).

Definition tokenize_without_stopwords (text : string) : list string :=
  List.filter (fun t => negb (str_in t STOPWORDS) && Nat.ltb 2 (String.length t))
    (tokenize text).

(** [l[i:j]]: a negative bound counts from the end, and both are clipped. *)
Definition py_slice {A} (i j : Z) (l : list A) : list A :=
  let len := Z.of_nat (List.length l) in
  let clip := fun x : Z => if Z.ltb x 0 then Z.max 0 (x + len) else Z.min x len in
  List.firstn (Z.to_nat (clip j - clip i)) (List.skipn (Z.to_nat (clip i)) l).

Definition extract_ngrams (text : string) (n : Z) : list string :=
  let tokens := tokenize text in
  if Z.ltb (Z.of_nat (List.length tokens)) n then []
  else
    List.map (fun i => join " " (py_slice (Z.of_nat i) (Z.of_nat i + n) tokens))
      (List.seq 0 (Z.to_nat (Z.of_nat (List.length tokens) - n + 1))).

Definition estimate_tokens (text : string) : Z := Z.of_nat (String.length text) / 4.

(** [s[:k]]: a negative [k] counts from the end. *)
Definition str_slice_to (k : Z) (s : string) : string :=
  if Z.leb 0 k then take (Z.to_nat k) s
  else take (String.length s - Z.to_nat (- k)) s.

(** [s.rfind(c)] for a character: the last index of [c], or -1. *)
Fixpoint rfind_char (c : ascii) (s : string) : Z :=
  match s with
  | EmptyString => (-1)%Z
  | String a s' =>
      let r := rfind_char c s' in
      if Z.leb 0 r then (r + 1)%Z else if Ascii.eqb a c then 0%Z else (-1)%Z
  end.

Definition period : ascii := ascii_of_nat 46.

Definition truncate_to_tokens (text : string) (max_tokens : Z) : string :=
  let max_chars := (max_tokens * 4)%Z in
  if Z.leb (Z.of_nat (String.length text)) max_chars then text
  else
    let truncated := str_slice_to max_chars text in
    let last_period := rfind_char period truncated in
    if Qlt_le_dec (inject_Z max_chars * (8 # 10)) (inject_Z last_period)
    then str_slice_to (last_period + 1) truncated
    else truncated ++ "...".

End Tokenizer.

(* ===================================================================== *)
(** * [utils/scoring.py] *)
(* ===================================================================== *)

(** [bm25_score] takes a logarithm and is left out. *)
Module Scoring.
Import Text.

Inductive error : Type :=
  | ValueError (message : string)
  | IndexError
  | ZeroDivisionError.

(** [len(s)] of a set, as a float *)
Definition count (s : gset string) : Q := inject_Z (Z.of_nat (size s)).

Definition compute_recall (retrieved relevant : list string) : Q :=
  if is_nil relevant then 0%Q
  else
    let retrieved_set : gset string := list_to_set retrieved in
    let relevant_set : gset string := list_to_set relevant in
    (count (retrieved_set ∩ relevant_set) / count relevant_set)%Q.

Definition compute_precision (retrieved relevant : list string) : Q :=
  if is_nil retrieved then 0%Q
  else
    let retrieved_set : gset string := list_to_set retrieved in
    let relevant_set : gset string := list_to_set relevant in
    (count (retrieved_set ∩ relevant_set) / count retrieved_set)%Q.

Definition compute_f1 (retrieved relevant : list string) : Q :=
  let precision := compute_precision retrieved relevant in
  let recall := compute_recall retrieved relevant in
  if Qeq_bool (precision + recall) 0 then 0%Q
  else (2 * (precision * recall) / (precision + recall))%Q.

(** The inner loop of [compute_mrr]: [1 / i] for the rank [i] of the first
    relevant item, counted from [i]; 0 when the ranking has none. *)
Fixpoint reciprocal_rank (relevant_set : gset string) (i : nat) (ranking : list string) : Q :=
  match ranking with
  | [] => 0%Q
  | item :: rest =>
      if bool_decide (item ∈ relevant_set) then (1 / inject_Z (Z.of_nat i))%Q
      else reciprocal_rank relevant_set (S i) rest
  end.

(** [sum(values)] *)
Definition sum (values : list Q) : Q := List.fold_left Qplus values 0%Q.

Definition compute_mrr (rankings : list (list string)) (relevant_items : list string) : Q :=
  let relevant_set : gset string := list_to_set relevant_items in
  let reciprocal_ranks := List.map (reciprocal_rank relevant_set 1) rankings in
  if is_nil reciprocal_ranks then 0%Q
  else (sum reciprocal_ranks / inject_Z (Z.of_nat (List.length reciprocal_ranks)))%Q.

(** [min(values)] and [max(values)] of a non-empty list *)
Definition min_of (values : list Q) : Q :=
  match values with
  | [] => 0%Q
  | v :: vs => List.fold_left Qmin vs v
  end.
Definition max_of (values : list Q) : Q :=
  match values with
  | [] => 0%Q
  | v :: vs => List.fold_left Qmax vs v
  end.

(** ** Floats

    A Python float is a binary64 number, an infinity or a NaN.  The scores
    and the weights passed in are taken to be finite and are held as the
    rationals they stand for.  What the code computes from them is followed
    exactly where the code rounds to the nearest binary64 number, up to the
    point where rounding gives an infinity: a result whose magnitude reaches
    [overflow_threshold], half a unit in the last place above the largest
    binary64 number.  From there on the arithmetic is that of the infinities
    and of NaN. *)
Inductive float : Type :=
  | Finite (q : Q)
  | Infinity (negative : bool)
  | NaN.

Definition overflow_threshold : Q := inject_Z (2 ^ 1024 - 2 ^ 970).

(** The float that stands for a computed rational. *)
Definition round (q : Q) : float :=
  if Qle_bool overflow_threshold q then Infinity false
  else if Qle_bool q (- overflow_threshold) then Infinity true
  else Finite q.

Definition is_negative (q : Q) : bool := negb (Qle_bool 0 q).

Definition fneg (x : float) : float :=
  match x with
  | Finite a => Finite (- a)
  | Infinity s => Infinity (negb s)
  | NaN => NaN
  end.

Definition fadd (x y : float) : float :=
  match x, y with
  | NaN, _ | _, NaN => NaN
  | Finite a, Finite b => round (a + b)
  | Infinity s, Finite _ | Finite _, Infinity s => Infinity s
  | Infinity s, Infinity s' => if Bool.eqb s s' then Infinity s else NaN
  end.

Definition fsub (x y : float) : float := fadd x (fneg y).

Definition fmul (x y : float) : float :=
  match x, y with
  | NaN, _ | _, NaN => NaN
  | Finite a, Finite b => round (a * b)
  | Infinity s, Finite b | Finite b, Infinity s =>
      if Qeq_bool b 0 then NaN else Infinity (xorb s (is_negative b))
  | Infinity s, Infinity s' => Infinity (xorb s s')
  end.

(** [x / y] for a divisor that is not 0; on a divisor 0 Python raises a
    [ZeroDivisionError], which the callers below test for or exclude. *)
Definition fdiv (x y : float) : float :=
  match x, y with
  | NaN, _ | _, NaN => NaN
  | Finite a, Finite b => round (a / b)
  | Finite _, Infinity _ => Finite 0
  | Infinity s, Finite b => Infinity (xorb s (is_negative b))
  | Infinity _, Infinity _ => NaN
  end.

Definition is_zero (x : float) : bool :=
  match x with
  | Finite a => Qeq_bool a 0
  | _ => false
  end.

(** [sum(values)] of floats: from 0, value by value *)
Definition fsum (values : list float) : float :=
  List.fold_left fadd values (Finite 0).

(** The divisor [max_score - min_score] is not 0: the two scores differ,
    and so does every pair of binary64 numbers that differ. *)
Definition normalize_scores (scores : list Q) : list float :=
  if is_nil scores then []
  else
    let min_score := min_of scores in
    let max_score := max_of scores in
    if Qeq_bool max_score min_score then List.repeat (Finite 1) (List.length scores)
    else
      List.map
        (fun s => fdiv (fsub (Finite s) (Finite min_score))
                    (fsub (Finite max_score) (Finite min_score)))
        scores.

(** [sum(normalized[j][i] * weights[j] for j in range(len(weights)))]: the
    terms in order, or [None] when an index is out of range. *)
Fixpoint weighted_terms (normalized : list (list float)) (weights : list Q) (i : nat)
    : option (list float) :=
  match weights with
  | [] => Some []
  | w :: weights' =>
      match normalized with
      | [] => None
      | row :: normalized' =>
          match List.nth_error row i with
          | None => None
          | Some x =>
              match weighted_terms normalized' weights' i with
              | Some terms => Some (fmul x (Finite w) :: terms)
              | None => None
              end
          end
      end
  end.

(** The loop over the items, from item [i] on.  The sum of the weights is
    computed without rounding, so the test of the divisor is that of the
    code as long as the weights have one sign; rounding can cancel a sum of
    weights of both signs. *)
Fixpoint combine_from (normalized : list (list float)) (weights : list Q)
    (items : list nat) : error + list float :=
  match items with
  | [] => inr []
  | i :: rest =>
      match weighted_terms normalized weights i with
      | None => inl IndexError
      | Some terms =>
          let total := fsum (List.map Finite weights) in
          if is_zero total then inl ZeroDivisionError
          else
            match combine_from normalized weights rest with
            | inl e => inl e
            | inr combined => inr (fdiv (fsum terms) total :: combined)
            end
      end
  end.

Definition combine_scores (scores_list : list (list Q)) (weights : list Q)
    : error + list float :=
  if is_nil scores_list || is_nil weights then inr []
  else if negb (Nat.eqb (List.length scores_list) (List.length weights)) then
    inl (ValueError "Number of score lists must match number of weights")
  else
    let normalized := List.map normalize_scores scores_list in
    let num_items := List.length (List.hd [] normalized) in
    combine_from normalized weights (List.seq 0 num_items).

End Scoring.

(* ===================================================================== *)
(** * Sample data *)
(* ===================================================================== *)

(** Small instances of the external interfaces and a few rows, on which the
    services are run below. *)
Module Samples.
Import Text Config Models Database Embedding VectorIndex Retrieval Context Ingestion.
Local Open Scope list_scope.

(** A model under which no two texts are similar. *)
Definition null_embedding : EmbeddingModel := {| encode := fun _ => [0%Q] |}.

(** A one-dimensional model: a tenth of the length of the text. *)
Definition length_embedding : EmbeddingModel :=
  {| encode := fun t => [(inject_Z (Z.of_nat (String.length t)) / 10)%Q] |}.

(** Exhaustive inner-product search, best first. *)
Definition exact_search : FlatIndex :=
  {| flat_search := fun vectors q k =>
       List.firstn k
         (sorted_desc fst
            (List.combine (List.map (dot q) vectors)
               (List.map Z.of_nat (List.seq 0 (List.length vectors))))) |}.

(** [n] times the character [c] *)
Fixpoint filler (n : nat) (c : ascii) : string :=
  match n with
  | O => EmptyString
  | S n' => String c (filler n' c)
  end.

Definition row (cid did text : string) (type : ChunkType) : Chunk :=
  {| id := cid; document_id := did; content := text; content_hash := None;
     page_number := None; section_title := None; chunk_type := type;
     heading_level := None; confidence_weight := 1; sequence_index := Some 0 |}.

Definition indexed (did : string) (reliability : Q) : Document :=
  {| doc_id := did; filename := "notes.txt"; filepath := "/data/uploads/notes.txt";
     file_type := TXT; file_size := 0; file_hash := did; status := INDEXED;
     error_message := None; title := None; author := None; category := None;
     tags := None; reliability_score := reliability; page_count := 0;
     chunk_count := 1 |}.

Definition no_hits : string -> nat -> option (list (string * Q)) := fun _ _ => Some [].



(** Two chunks of two documents, of reliability 1 and 0.8. *)
Definition tie_db : Db :=
  {| chunk_rows := [row "b" "d2" "beta" PARAGRAPH; row "a" "d1" "alpha" PARAGRAPH];
     document_rows := [indexed "d1" (8 # 10); indexed "d2" 1];
     fts_bm25 := no_hits |}.

Definition tie_index : VectorIndexService :=
  @add_chunks length_embedding settings create_index ["b"; "a"] ["beta"; "alpha"].



Definition retrieved (cid text : string) : RetrievedChunk :=
  {| chunk_id := cid; r_content := text; r_document_id := "d1";
     document_name := "notes.txt"; r_page_number := None; r_section_title := None;
     r_chunk_type := PARAGRAPH; bm25_score := 0; dense_score := 0;
     structural_score := 0; final_score := 0; r_confidence_weight := 1 |}.

(** A retrieved chunk of the document [did], with its final score. *)
Definition scored (cid did : string) (score : Q) : RetrievedChunk :=
  {| chunk_id := cid; r_content := cid; r_document_id := did;
     document_name := "notes.txt"; r_page_number := None; r_section_title := None;
     r_chunk_type := PARAGRAPH; bm25_score := 0; dense_score := 1;
     structural_score := 0; final_score := score; r_confidence_weight := 1 |}.

(** A short chunk and one of 15995 characters. *)
Definition long_context : list RetrievedChunk :=
  [retrieved "c1" "abc"; retrieved "c2" (filler (3199 * 5) "x")].

Definition context_chunk (cid text : string) : ContextChunk :=
  {| marker := "[1]"; cc_content := text; citation := "notes.txt"; cc_chunk_id := cid |}.

Definition paris_context : list ContextChunk :=
  [context_chunk "c1" "Paris is the capital of France."].

(** Two context chunks under one chunk id. *)
Definition repeated_id_context : list ContextChunk :=
  [context_chunk "c1" "Paris is the capital of France."; context_chunk "c1" "Other text."].

(** The configuration with a grounding threshold of 0.3. *)
Definition lenient_settings : Settings :=
  {| EMBEDDING_DIMENSION := 384; BM25_WEIGHT := 3 # 10; DENSE_WEIGHT := 5 # 10;
     STRUCTURAL_WEIGHT := 2 # 10; TOP_K_RETRIEVAL := 20; CHUNK_SIZE := 512;
     CHUNK_OVERLAP := 50; MIN_GROUNDING_CONFIDENCE := 3 # 10 |}.

(** A response with two quoted passages, citing [1] and [2]. *)
Definition two_quotes : string :=
  String dquote "Paris" ++ String dquote " [1] " ++ String dquote "Rome" ++ String dquote " [2]".

(** Files: a PDF of two pages, a DOCX of two long paragraphs, and no OCR. *)
Definition sample_readers : Readers :=
  {| pdf_pages := fun _ => inr [inr "Alpha."; inr "Beta."];
     docx_paragraphs := fun _ =>
       inr [(filler 120 "a", Some "Normal"); (filler 120 "b", Some "Normal")];
     read_text := fun _ => inr "Gamma.";
     html_tags := fun _ => inr [];
     ocr_text := fun _ => inl (Exception "pytesseract and Pillow required for OCR");
     sha256_hex := fun s => s |}.




Definition file (file_name ext : string) : Path :=
  {| path_str := "/data/uploads/" ++ file_name; name := file_name; suffix := ext;
     st_size := 1; sha256_of_bytes := file_name |}.

Definition sample_uuid4 (n : nat) : string := "id-" ++ str_of_nat n.

Definition empty_db : Db := {| chunk_rows := []; document_rows := []; fts_bm25 := no_hits |}.

(** Two chunks of one document, both found by the full-text search (SQLite
    reports the better match with the more negative number). *)
Definition fts_db : Db :=
  {| chunk_rows := [row "c1" "d1" "alpha beta" PARAGRAPH; row "c2" "d1" "alpha" PARAGRAPH];
     document_rows := [indexed "d1" 1];
     fts_bm25 := fun _ _ => Some [("c1", - (2 # 1))%Q; ("c2", - (1 # 1))%Q] |}.

(** Three chunks of one document at places 0, 1 and 2, and one of another. *)
Definition placed (cid did : string) (n : nat) : Chunk :=
  {| id := cid; document_id := did; content := cid; content_hash := None;
     page_number := None; section_title := None; chunk_type := PARAGRAPH;
     heading_level := None; confidence_weight := 1; sequence_index := Some n |}.

Definition window_db : Db :=
  {| chunk_rows := [placed "c2" "d1" 2; placed "c0" "d1" 0; placed "c1" "d1" 1;
                    placed "e0" "d2" 0];
     document_rows := [indexed "d1" 1; indexed "d2" 1];
     fts_bm25 := no_hits |}.

End Samples.

(* ===================================================================== *)
(** * Vocabulary of the statements *)
(* ===================================================================== *)

(** The notions the theorems below are stated with, service by service. *)

Module VectorIndexSpec.
Import Text Embedding VectorIndex.

(** The pairs (chunk id, vector) the service holds, slot by slot. *)
Definition entries (svc : VectorIndexService) : list (string * vec) :=
  List.combine (chunk_ids svc) (index svc).

(** The entries [remove_chunks] is asked to keep. *)
Definition kept (to_remove : list string) (e : string * vec) : bool :=
  negb (str_in (fst e) to_remove).

End VectorIndexSpec.

Module RetrievalSpec.
Import Text Config Models Database Embedding VectorIndex Retrieval.

(** [a] may stand before [b] in a list sorted by descending key. *)
Definition desc {A} (key : A -> Q) (a b : A) : Prop := (key b <= key a)%Q.


(** The document row of key [did]: the last one, should the table repeat a key. *)
Definition document_row (db : Db) (did : string) : option Document :=
  List.find (fun d => String.eqb (doc_id d) did) (rev (document_rows db)).

(** The body of the loop of [_filter_candidates]. *)
Definition keep_passing (candidates : gmap string Scores) (docs : gmap string Document)
    (document_ids categories : option (list string)) (min_reliability : Q)
    (filtered : gmap string Scores) (chunk : Chunk) : gmap string Scores :=
  match docs !! document_id chunk with
  | None => filtered
  | Some doc =>
      if passes doc document_ids categories min_reliability
      then <[id chunk := scores_of candidates (id chunk)]> filtered
      else filtered
  end.

(** The fraction of the query terms that occur in the lowercased content. *)
Definition term_coverage (query_terms : list string) (content_lower : string) : Q :=
  (inject_Z (Z.of_nat (List.length
                         (List.filter (fun t => contains t content_lower) query_terms)))
   / inject_Z (Z.of_nat (Nat.max (List.length query_terms) 1)))%Q.






(** What [_filter_candidates] asks of the document of a chunk: it is in the
    list of document ids when one is given, its category is in the list of
    categories when one is given, and it is reliable enough. *)
Definition allowed (doc : Document) (document_ids categories : option (list string))
    (min_reliability : Q) : Prop :=
  (truthy document_ids = true -> In (doc_id doc) (default [] document_ids))
  /\ (truthy categories = true ->
      exists cat, category doc = Some cat /\ In cat (default [] categories))
  /\ (min_reliability <= reliability_score doc)%Q.

(** [a] may stand before [b] in a list in ascending order of [key]. *)
Definition asc {A} (key : A -> Z) (a b : A) : Prop := (key a <= key b)%Z.

(** A row within [w] places of place [t] in the document [did]. *)
Definition near (did : string) (t : nat) (w : Z) (c : Chunk) : Prop :=
  document_id c = did
  /\ exists n, sequence_index c = Some n
               /\ (Z.of_nat t - w <= Z.of_nat n <= Z.of_nat t + w)%Z.

(** A word of a query: word characters only, none of them a capital. *)
Definition is_term_char (c : ascii) : bool := is_word c && negb (is_upper c).

(** The body of the loop of [_merge_results] over the dense hits. *)
Definition set_dense (candidates : gmap string Scores) (hit : string * Q)
    : gmap string Scores :=
  <[fst hit := {| s_bm25 := s_bm25 (scores_of candidates (fst hit)); s_dense := snd hit |}]>
    candidates.

End RetrievalSpec.

Module ContextSpec.
Import Text Models Retrieval Context.

(** The lines [pack] builds for the chunks of [l], ranked from [i]. *)
Fixpoint format_from (i : nat) (l : list RetrievedChunk) : list string :=
  match l with
  | [] => []
  | chunk :: rest => format_chunk i chunk :: format_from (S i) rest
  end.

(** The entry [pack] builds for the chunk of rank [i]. *)
Definition context_chunk_of (i : nat) (chunk : RetrievedChunk) : ContextChunk :=
  {| marker := make_marker i;
     cc_content := r_content chunk;
     citation := make_citation chunk;
     cc_chunk_id := chunk_id chunk |}.

(** The entries [pack] builds for the chunks of [l], ranked from [i]. *)
Fixpoint chunks_from (i : nat) (l : list RetrievedChunk) : list ContextChunk :=
  match l with
  | [] => []
  | chunk :: rest => context_chunk_of i chunk :: chunks_from (S i) rest
  end.

(** The key under which [build_context] recognises a content it has seen. *)
Definition content_key (content : string) : string := take 100 content.

(** Where a chunk of the expanded list comes from: it is one of the chunks
    given, or it was built from a row at place 0 of the document of one of
    them. *)
Definition expanded_from (db : Database.Db) (chunks : list RetrievedChunk)
    (x : RetrievedChunk) : Prop :=
  In x chunks
  \/ exists chunk adj,
       In chunk chunks /\ In adj (Database.chunk_rows db)
       /\ document_id adj = r_document_id chunk
       /\ sequence_index adj = Some 0%nat
       /\ x = adjacent_chunk chunk adj.

(** The id [cid] is met among the chunks of [before]: it is the id of one of
    them, or of a row at place 0 of the document of one of them. *)
Definition met_before (db : Database.Db) (before : list RetrievedChunk) (cid : string)
    : Prop :=
  In cid (List.map chunk_id before)
  \/ exists chunk adj,
       In chunk before /\ In adj (Database.chunk_rows db)
       /\ document_id adj = r_document_id chunk
       /\ sequence_index adj = Some 0%nat
       /\ id adj = cid.

(** The state of the loop of [expand_context_window] is consistent: the ids
    seen are those of the chunks gathered, none of them twice. *)
Definition tracks (st : Expansion) : Prop :=
  List.NoDup (List.map chunk_id (fst st))
  /\ forall k, k ∈ snd st <-> In k (List.map chunk_id (fst st)).

End ContextSpec.

Module ValidationSpec.
Import Text Config Embedding Context Validation.

(** The body of the loop that builds [content_index]. *)
Definition add_to_index (items : list (string * string)) (chunk : ContextChunk) :=
  index_set (cc_chunk_id chunk) (lower (cc_content chunk)) items.

(** A character other than a line break. *)
Definition not_newline (c : ascii) : bool := negb (Ascii.eqb c newline).

(** The number of words two texts share, as [_find_matching_excerpt] counts them. *)
Definition shared_words (a b : string) : nat :=
  size (word_set (lower a) ∩ word_set (lower b)).

(** The state of the loop of [_find_matching_excerpt] is consistent: no
    excerpt yet, or a sentence of the content with the number of words it
    shares with the sentence, which is not 0. *)
Definition best_of (sentence : string) (sentences : list string) (st : string * nat) : Prop :=
  (fst st = EmptyString /\ snd st = 0%nat)
  \/ (In (fst st) sentences /\ (0 < shared_words sentence (fst st))%nat
      /\ snd st = shared_words sentence (fst st)).

End ValidationSpec.

Module ExtractiveSpec.
Import Text Context Extractive.

(** The entry the parser builds for the pair [(q, k)] checked against [c]. *)
Definition checked (q k : string) (c : ContextChunk) : VerifiedQuote :=
  {| quote := q;
     q_citation := ("[" ++ k ++ "]")%string;
     source := citation c;
     verified := contains (lower q) (lower (cc_content c)) |}.

(** The chunk a citation number refers to: [context_chunks[int(k) - 1]]. *)
Definition cited_chunk (context_chunks : list ContextChunk) (k : string) : option ContextChunk :=
  nth_error context_chunks (Z.to_nat (int_of_digits k - 1)).

End ExtractiveSpec.

Module IngestionSpec.
Import Text Config Models Database Ingestion.
Local Open Scope list_scope.

(** The input read as groups, each a run of small chunks and the chunk that
    ends it (one that is large or a heading), and the run left at the end. *)
Fixpoint group_runs (min_size : nat) (l : list Chunk)
    : list (list Chunk * Chunk) * list Chunk :=
  match l with
  | [] => ([], [])
  | c :: rest =>
      let '(groups, trailing) := group_runs min_size rest in
      if is_small min_size c then
        match groups with
        | [] => ([], c :: trailing)
        | (run, stop) :: groups' => ((c :: run, stop) :: groups', trailing)
        end
      else (([], c) :: groups, trailing)
  end.

(** The list a grouping stands for. *)
Definition ungroup (groups : list (list Chunk * Chunk)) (trailing : list Chunk) : list Chunk :=
  List.flat_map (fun g => fst g ++ [snd g]) groups ++ trailing.

(** A run as one chunk: its first chunk, holding the contents of the run
    separated by spaces. *)
Definition joined (run : list Chunk) : option Chunk :=
  match run with
  | [] => None
  | first :: _ => Some (set_content first (join " " (List.map content run)))
  end.

(** What a group leaves in the output: a run still shorter than [min_size]
    goes in front of the content of the chunk that ends it, a longer one is
    a chunk of its own. *)
Definition emit (min_size : nat) (g : list Chunk * Chunk) : list Chunk :=
  let '(run, stop) := g in
  match joined run with
  | None => [stop]
  | Some j =>
      if Nat.ltb (String.length (content j)) min_size
      then [set_content stop (content j ++ " " ++ content stop)%string]
      else [j; stop]
  end.

(** The whole output: the groups in order; a run at the end goes behind the
    content of the last chunk emitted, or stands alone when there is none. *)
Definition merge_by_runs (min_size : nat) (groups : list (list Chunk * Chunk))
    (trailing : list Chunk) : list Chunk :=
  let out := List.flat_map (emit min_size) groups in
  match joined trailing with
  | None => out
  | Some j =>
      match out with
      | [] => [j]
      | _ :: _ => append_to_last out j
      end
  end.

(** The buffer after a run: the first chunk with the contents joined. *)
Definition grow (buffer : option Chunk) (run : list Chunk) : option Chunk :=
  match buffer with
  | Some b => Some (set_content b (join " " (content b :: List.map content run)))
  | None => joined run
  end.

(** The HEADING chunks of a list, counted. *)
Definition is_heading (c : Chunk) : bool := ChunkType_eqb (chunk_type c) HEADING.
Definition headings (l : list Chunk) : nat := List.length (List.filter is_heading l).


(** The text of a list of chunks: their contents, separated by spaces. *)
Definition text_of (l : list Chunk) : string := join " " (List.map content l).

(** The buffer of [_merge_small_chunks], as a list. *)
Definition pending (buffer : option Chunk) : list Chunk :=
  match buffer with Some b => [b] | None => [] end.

(** A chunk object built for [document]: it carries the id of the document,
    has no primary key yet, and its content is not empty. *)
Definition built_for (document : Document) (c : Chunk) : Prop :=
  document_id c = doc_id document /\ id c = EmptyString /\ content c <> EmptyString.

(** A sentence of a paragraph of [text] that is too long for one chunk. *)
Definition long_sentence (cfg : Settings) (text piece : string) : Prop :=
  exists para sent,
    In para (re_split match_blank_line text)
    /\ (CHUNK_SIZE cfg < String.length (strip para))%nat
    /\ In sent (re_split match_sentence_gap (strip para))
    /\ piece = strip sent.

(** The size rule of the chunker: a content within [CHUNK_SIZE], or one
    sentence on its own. *)
Definition sized (cfg : Settings) (text : string) (content : string) : Prop :=
  (String.length content <= CHUNK_SIZE cfg)%nat \/ long_sentence cfg text content.

(** The state of the chunker is consistent with the size rule: the chunks
    emitted satisfy [P], the buffer holds no empty piece and obeys the size
    rule, and [current_length] is the length the buffer will have once
    joined, plus one. *)
Definition within_size (cfg : Settings) (text : string) (P : Chunk -> Prop)
    (st : Chunker) : Prop :=
  Forall P (chunks st)
  /\ Forall (fun p => p <> EmptyString) (current_chunk st)
  /\ match current_chunk st with
     | [] => current_length st = 0%nat
     | _ :: _ =>
         current_length st = S (String.length (join " " (current_chunk st)))
         /\ sized cfg text (join " " (current_chunk st))
     end.

(** What the chunker guarantees of a chunk it emits for one text. *)
Definition text_chunk_of `{Readers} (cfg : Settings) (text : string) (document : Document)
    (page : option nat) (c : Chunk) : Prop :=
  built_for document c
  /\ sized cfg text (content c)
  /\ page_number c = page
  /\ chunk_type c = PARAGRAPH
  /\ content_hash c = Some (take 32 (sha256_hex (content c))).

(** A property of chunks that survives the merging of contents. *)
Definition merge_stable (Q : Chunk -> Prop) : Prop :=
  forall a b s, Q a -> Q b -> s = (content a ++ " " ++ content b)%string ->
                Q (set_content a s) /\ Q (set_content b s).

(** A chunk a structured processor builds: it belongs to the document and
    carries no sequence index. *)
Definition unplaced (document : Document) (c : Chunk) : Prop :=
  built_for document c /\ sequence_index c = None.

(** The invariant of the loop of the chunker, for one text of a document. *)
Definition chunker_ok `{Readers} (cfg : Settings) (text : string) (document : Document)
    (page : option nat) (st : Chunker) : Prop :=
  within_size cfg text (text_chunk_of cfg text document page) st.


End IngestionSpec.

Module ScoringSpec.
Import Text Scoring.

(** The normalised scores as rationals: what [normalize_scores] gives when
    no difference of two scores reaches the overflow threshold. *)
Definition normalized_values (scores : list Q) : list Q :=
  if is_nil scores then []
  else
    let min_score := min_of scores in
    let max_score := max_of scores in
    if Qeq_bool max_score min_score then List.repeat 1%Q (List.length scores)
    else List.map (fun s => ((s - min_score) / (max_score - min_score))%Q) scores.

(** The weighted terms of an item as rationals. *)
Fixpoint term_values (normalized : list (list Q)) (weights : list Q) (i : nat)
    : option (list Q) :=
  match weights with
  | [] => Some []
  | w :: weights' =>
      match normalized with
      | [] => None
      | row :: normalized' =>
          match List.nth_error row i with
          | None => None
          | Some x =>
              match term_values normalized' weights' i with
              | Some terms => Some ((x * w)%Q :: terms)
              | None => None
              end
          end
      end
  end.

(** The combined scores as rationals. *)
Fixpoint combined_values (normalized : list (list Q)) (weights : list Q) (items : list nat)
    : error + list Q :=
  match items with
  | [] => inr []
  | i :: rest =>
      match term_values normalized weights i with
      | None => inl IndexError
      | Some terms =>
          if Qeq_bool (sum weights) 0 then inl ZeroDivisionError
          else
            match combined_values normalized weights rest with
            | inl e => inl e
            | inr combined => inr ((sum terms / sum weights)%Q :: combined)
            end
      end
  end.

(** Every difference of two scores of the list stays below the overflow
    threshold. *)
Definition spread_in_range (scores : list Q) : Prop :=
  (max_of scores - min_of scores < overflow_threshold)%Q.

End ScoringSpec.

(* ===================================================================== *)
(* ===================================================================== *)
(** * Theorems *)
(* ===================================================================== *)
(* ===================================================================== *)

(* ===================================================================== *)
(** * Properties of the vector index *)
(* ===================================================================== *)

Module VectorIndexFacts.
Import Text Config Embedding VectorIndex Samples.
Local Open Scope list_scope.

Lemma embed_batch_length `{EmbeddingModel} cfg texts :
  List.length (embed_batch cfg texts) = List.length texts.
Proof. unfold embed_batch. apply length_map. Qed.

Lemma gather_length {A} (l : list A) idxs r :
  gather l idxs = Some r -> List.length r = List.length idxs.
Proof.
  revert r. induction idxs as [|i idxs IH]; intros r Hg; simpl in Hg.
  - inversion Hg. reflexivity.
  - destruct (nth_error l i); [|discriminate].
    destruct (gather l idxs) as [r'|]; [|discriminate].
    inversion Hg; subst. simpl. f_equal. apply IH. reflexivity.
Qed.

Lemma gather_in_range {A} (l : list A) idxs :
  Forall (fun i => i < List.length l)%nat idxs -> exists r, gather l idxs = Some r.
Proof.
  induction 1 as [|i idxs Hi _ IH]; simpl.
  - eexists. reflexivity.
  - destruct IH as [r Hr]. rewrite Hr.
    destruct (nth_error l i) as [x|] eqn:Hx.
    + eexists. reflexivity.
    + apply nth_error_None in Hx. lia.
Qed.

Lemma enumerate_index_bound {A} (l : list A) i x :
  In (i, x) (enumerate l) -> (i < List.length l)%nat.
Proof.
  unfold enumerate. intros Hin. apply in_combine_l in Hin.
  apply in_seq in Hin. lia.
Qed.

Lemma kept_indices_in_range (ids to_remove : list string) :
  Forall (fun i => i < List.length ids)%nat
    (List.map fst
       (List.filter (fun p => negb (str_in (snd p) to_remove)) (enumerate ids))).
Proof.
  apply List.Forall_forall. intros i Hi.
  apply in_map_iff in Hi. destruct Hi as [[j x] [Hj Hin]]. simpl in Hj. subst j.
  apply filter_In in Hin. destruct Hin as [Hin _].
  eapply enumerate_index_bound. exact Hin.
Qed.

Lemma add_chunks_aligned `{EmbeddingModel} cfg svc ids contents :
  aligned svc -> List.length ids = List.length contents ->
  aligned (add_chunks cfg svc ids contents).
Proof.
  unfold aligned, ntotal, add_chunks. intros Hal Hlen.
  destruct (is_nil ids || is_nil contents); [exact Hal|].
  simpl. rewrite !length_app, embed_batch_length. lia.
Qed.

Lemma remove_chunks_aligned svc to_remove :
  aligned svc -> exists svc', remove_chunks svc to_remove = Some svc' /\ aligned svc'.
Proof.
  unfold aligned, ntotal, remove_chunks. intros Hal.
  set (keep := List.map fst _).
  destruct (Nat.eqb (List.length keep) (List.length (chunk_ids svc))).
  - exists svc. split; [reflexivity|exact Hal].
  - destruct (negb (is_nil keep)).
    + pose proof (kept_indices_in_range (chunk_ids svc) to_remove) as Hr.
      fold keep in Hr.
      destruct (gather_in_range (chunk_ids svc) keep Hr) as [ids Hids].
      assert (Hr' : Forall (fun i => i < List.length (index svc))%nat keep)
        by (rewrite Hal; exact Hr).
      destruct (gather_in_range (index svc) keep Hr') as [vs Hvs].
      rewrite Hvs, Hids. eexists. split; [reflexivity|]. simpl.
      rewrite (gather_length _ _ _ Hvs), (gather_length _ _ _ Hids). reflexivity.
    + exists create_index. split; reflexivity.
Qed.

Lemma search_returns_mapped_ids `{EmbeddingModel} `{FlatIndex} cfg svc query top_k cid score :
  In (cid, score) (search cfg svc query top_k) -> In cid (chunk_ids svc).
Proof.
  unfold search. destruct (Nat.eqb (ntotal svc) 0); [intros []|].
  intros Hin. apply in_flat_map in Hin. destruct Hin as [[s idx] [_ Hin]].
  destruct (Z.leb 0 idx && Z.ltb idx (Z.of_nat (List.length (chunk_ids svc)))); [|destruct Hin].
  destruct (nth_error (chunk_ids svc) (Z.to_nat idx)) as [c|] eqn:Hn; [|destruct Hin].
  destruct Hin as [Heq|[]]. inversion Heq; subst.
  eapply nth_error_In. exact Hn.
Qed.

(** C10.  The index keeps one chunk id per stored vector: [add_chunks]
    preserves the alignment when it is given as many ids as contents,
    [remove_chunks] always completes and preserves it, and every id that
    [search] returns is an entry of the mapping. *)
Theorem vector_index_alignment `{EmbeddingModel} `{FlatIndex} (cfg : Settings)
    (svc : VectorIndexService) :
  aligned svc ->
  (forall ids contents, List.length ids = List.length contents ->
     aligned (add_chunks cfg svc ids contents))
  /\ (forall to_remove, exists svc',
        remove_chunks svc to_remove = Some svc' /\ aligned svc')
  /\ (forall query top_k cid score,
        In (cid, score) (search cfg svc query top_k) -> In cid (chunk_ids svc)).
Proof.
  intros Hal. split; [|split].
  - intros ids contents Hlen. apply add_chunks_aligned; assumption.
  - intros to_remove. apply remove_chunks_aligned. exact Hal.
  - intros query top_k cid score. apply search_returns_mapped_ids.
Qed.

(** The alignment theorem on the index of the two sample chunks. *)
Lemma vector_index_alignment_witness :
  aligned tie_index
  /\ aligned (@add_chunks length_embedding settings tie_index ["c"] ["gamma"])
  /\ (exists svc', remove_chunks tie_index ["a"] = Some svc' /\ aligned svc')
  /\ (forall cid score,
        In (cid, score) (@search length_embedding exact_search settings tie_index "zebra" 5) ->
        In cid (chunk_ids tie_index)).
Proof.
  assert (Hal : aligned tie_index) by reflexivity.
  destruct (@vector_index_alignment length_embedding exact_search settings tie_index Hal)
    as [Hadd [Hremove Hsearch]].
  split; [exact Hal|].
  split; [apply Hadd; reflexivity|].
  split; [apply Hremove|].
  intros cid score. apply Hsearch.
Defined.

End VectorIndexFacts.

(* ===================================================================== *)
(** * Properties of the retrieval engine *)
(* ===================================================================== *)

Module RetrievalFacts.
Import Text Config Models Database Embedding VectorIndex Retrieval Samples RetrievalSpec.
Local Open Scope list_scope.

(** ** The sort *)

Section Sorting.
Context {A : Type} (key : A -> Q).



Lemma insert_desc_perm x l : Permutation (insert_desc key x l) (x :: l).
Proof.
  induction l as [|y l IH]; simpl.
  - apply Permutation_refl.
  - destruct (Qle_bool (key y) (key x)).
    + apply Permutation_refl.
    + eapply perm_trans; [apply perm_skip; exact IH|apply perm_swap].
Qed.

Lemma sorted_desc_perm l : Permutation (sorted_desc key l) l.
Proof.
  induction l as [|x l IH]; simpl.
  - apply perm_nil.
  - eapply perm_trans; [apply insert_desc_perm|apply perm_skip; exact IH].
Qed.

Lemma insert_desc_sorted x l :
  StronglySorted (desc key) l -> StronglySorted (desc key) (insert_desc key x l).
Proof.
  induction 1 as [|y l Hs IH Hall]; simpl.
  - constructor; constructor.
  - destruct (Qle_bool (key y) (key x)) eqn:Hle.
    + apply Qle_bool_iff in Hle. constructor.
      * constructor; assumption.
      * constructor; [exact Hle|].
        eapply List.Forall_impl; [|exact Hall].
        intros z Hz. unfold desc in *. eapply Qle_trans; eassumption.
    + constructor; [exact IH|].
      eapply Permutation_Forall; [apply Permutation_sym, insert_desc_perm|].
      constructor; [|exact Hall].
      unfold desc. apply Qlt_le_weak. apply Qnot_le_lt. intros Hyx.
      apply Qle_bool_iff in Hyx. congruence.
Qed.

Lemma sorted_desc_sorted l : StronglySorted (desc key) (sorted_desc key l).
Proof.
  induction l as [|x l IH]; simpl.
  - constructor.
  - apply insert_desc_sorted. exact IH.
Qed.



End Sorting.


Lemma in_firstn {A} (n : nat) (l : list A) (x : A) : In x (firstn n l) -> In x l.
Proof.
  revert l. induction n as [|n IH]; intros [|y l] Hin; simpl in Hin; try destruct Hin.
  - left. assumption.
  - right. apply IH. assumption.
Qed.

(** What [retrieve] returns is drawn from its local [results]. *)
Lemma retrieve_from_results `{EmbeddingModel} `{FlatIndex} cfg db vector_index query
    document_ids categories min_reliability top_k r :
  In r (retrieve cfg db vector_index query document_ids categories min_reliability top_k) ->
  In r (retrieve_results cfg db vector_index query document_ids categories min_reliability).
Proof.
  unfold retrieve, slice_to. intros Hin.
  eapply Permutation_in; [apply sorted_desc_perm|].
  destruct (Z.leb 0 top_k); eapply in_firstn; exact Hin.
Qed.

(** ** The order of the rows of a chunk query *)





Lemma insert_by_id_perm x l : Permutation (insert_by_id x l) (x :: l).
Proof.
  induction l as [|y l IH]; simpl.
  - apply Permutation_refl.
  - destruct (String.leb (id x) (id y)).
    + apply Permutation_refl.
    + eapply perm_trans; [apply perm_skip; exact IH|apply perm_swap].
Qed.

Lemma by_primary_key_perm l : Permutation (by_primary_key l) l.
Proof.
  induction l as [|x l IH]; simpl.
  - apply perm_nil.
  - eapply perm_trans; [apply insert_by_id_perm|apply perm_skip; exact IH].
Qed.









(** ** The dictionaries of the filter and of the rerank *)

Lemma fold_insert_lookup {V} (l : list (string * V)) (m : gmap string V) (k : string) :
  List.fold_right (fun p m => <[fst p := snd p]> m) m l !! k
  = match List.find (fun p => String.eqb (fst p) k) l with
    | Some p => Some (snd p)
    | None => m !! k
    end.
Proof.
  induction l as [|p l IH]; simpl; [reflexivity|].
  destruct (String.eqb_spec (fst p) k) as [Heq|Hne].
  - rewrite Heq. apply lookup_insert_eq.
  - rewrite lookup_insert_ne by exact Hne. exact IH.
Qed.

(** A lookup in [dict_of_pairs] finds the last pair of the key. *)
Lemma dict_of_pairs_lookup {V} (l : list (string * V)) (k : string) :
  dict_of_pairs l !! k
  = option_map snd (List.find (fun p => String.eqb (fst p) k) (rev l)).
Proof.
  unfold dict_of_pairs. rewrite <- fold_left_rev_right.
  rewrite fold_insert_lookup. rewrite lookup_empty.
  destruct (List.find _ _); reflexivity.
Qed.

Lemma find_map {A B} (f : A -> B) (q : B -> bool) (l : list A) :
  List.find q (List.map f l) = option_map f (List.find (fun x => q (f x)) l).
Proof.
  induction l as [|x l IH]; simpl; [reflexivity|].
  destruct (q (f x)); [reflexivity|exact IH].
Qed.

Lemma find_filter {A} (p q : A -> bool) (l : list A) :
  List.find q (List.filter p l) = List.find (fun x => p x && q x) l.
Proof.
  induction l as [|x l IH]; simpl; [reflexivity|].
  destruct (p x); simpl; [|exact IH].
  destruct (q x); [reflexivity|exact IH].
Qed.

Lemma find_ext_in {A} (p q : A -> bool) (l : list A) :
  (forall x, In x l -> p x = q x) -> List.find p l = List.find q l.
Proof.
  induction l as [|x l IH]; intros Hext; simpl; [reflexivity|].
  rewrite (Hext x (or_introl eq_refl)).
  destruct (q x); [reflexivity|].
  apply IH. intros y Hy. apply Hext. right. exact Hy.
Qed.

Lemma str_in_spec x l : str_in x l = true <-> In x l.
Proof.
  unfold str_in. rewrite existsb_exists. split.
  - intros [y [Hy Heq]]. apply String.eqb_eq in Heq. subst. exact Hy.
  - intros Hin. exists x. split; [exact Hin|apply String.eqb_refl].
Qed.


Lemma document_row_owner db did doc :
  document_row db did = Some doc -> In doc (document_rows db) /\ doc_id doc = did.
Proof.
  unfold document_row. intros Hf. apply find_some in Hf.
  destruct Hf as [Hin Heq]. split.
  - apply in_rev. exact Hin.
  - apply String.eqb_eq. exact Heq.
Qed.

(** The dict [docs] of both functions holds, for a chunk of the query, the
    row of the chunk's document. *)
Lemma docs_of_lookup db chunks chunk :
  In chunk chunks ->
  docs_of db chunks !! document_id chunk = document_row db (document_id chunk).
Proof.
  intros Hin. unfold docs_of, document_row.
  rewrite dict_of_pairs_lookup, <- map_rev, <- filter_rev, find_map, find_filter.
  cbn [fst].
  rewrite (find_ext_in _ (fun d => String.eqb (doc_id d) (document_id chunk))).
  - destruct (List.find _ _); reflexivity.
  - intros d _.
    destruct (String.eqb_spec (doc_id d) (document_id chunk)) as [Heq|Hne].
    + rewrite Heq, andb_true_r. apply str_in_spec. apply in_map. exact Hin.
    + apply andb_false_r.
Qed.

Lemma chunks_in_spec {V} db (candidates : gmap string V) chunk :
  In chunk (chunks_in db candidates)
  <-> In chunk (chunk_rows db) /\ is_Some (candidates !! id chunk).
Proof.
  unfold chunks_in. split.
  - intros Hin. apply (Permutation_in _ (by_primary_key_perm _)) in Hin.
    apply filter_In in Hin. rewrite bool_decide_eq_true in Hin. exact Hin.
  - intros Hin. eapply Permutation_in; [apply Permutation_sym, by_primary_key_perm|].
    apply filter_In. rewrite bool_decide_eq_true. exact Hin.
Qed.


Lemma keep_passing_lookup candidates docs ids cats minrel chunks :
  forall filtered k sc,
    List.fold_left (keep_passing candidates docs ids cats minrel) chunks filtered !! k
    = Some sc ->
    filtered !! k = Some sc
    \/ exists chunk doc,
         In chunk chunks /\ id chunk = k
         /\ docs !! document_id chunk = Some doc
         /\ passes doc ids cats minrel = true
         /\ sc = scores_of candidates k.
Proof.
  induction chunks as [|c chunks IH]; intros filtered k sc Hl; simpl in Hl.
  - left. exact Hl.
  - apply IH in Hl. destruct Hl as [Hl|[chunk [doc [Hin Hrest]]]].
    + unfold keep_passing in Hl.
      destruct (docs !! document_id c) as [doc|] eqn:Hdoc; [|left; exact Hl].
      destruct (passes doc ids cats minrel) eqn:Hp; [|left; exact Hl].
      destruct (String.eqb_spec (id c) k) as [Heq|Hne].
      * subst k. rewrite lookup_insert_eq in Hl. inversion Hl; subst.
        right. exists c, doc. repeat split; try assumption. left. reflexivity.
      * rewrite lookup_insert_ne in Hl by exact Hne. left. exact Hl.
    + right. exists chunk, doc. split; [right; exact Hin|exact Hrest].
Qed.

(** A candidate that survives the filter is a chunk row whose document row
    exists and passes the constraints; it keeps its scores. *)
Lemma filter_candidates_lookup db candidates ids cats minrel k sc :
  _filter_candidates db candidates ids cats minrel !! k = Some sc ->
  exists chunk doc,
    In chunk (chunk_rows db) /\ id chunk = k
    /\ candidates !! k = Some sc
    /\ document_row db (document_id chunk) = Some doc
    /\ passes doc ids cats minrel = true.
Proof.
  unfold _filter_candidates. case_bool_decide as Hempty.
  - rewrite lookup_empty. discriminate.
  - intros Hl.
    change (List.fold_left
              (keep_passing candidates (docs_of db (chunks_in db candidates)) ids cats minrel)
              (chunks_in db candidates) ∅ !! k = Some sc) in Hl.
    apply keep_passing_lookup in Hl.
    destruct Hl as [Hl|[chunk [doc [Hin [Hid [Hdoc [Hp Hsc]]]]]]].
    + rewrite lookup_empty in Hl. discriminate.
    + exists chunk, doc. rewrite <- (docs_of_lookup _ _ _ Hin).
      apply chunks_in_spec in Hin. destruct Hin as [Hin [sc0 Hsc0]].
      subst k. unfold scores_of in Hsc. rewrite Hsc0 in Hsc. subst sc0.
      repeat split; assumption.
Qed.

Lemma same_id_same_row (rows : list Chunk) (a b : Chunk) :
  List.NoDup (List.map id rows) -> In a rows -> In b rows -> id a = id b -> a = b.
Proof.
  induction rows as [|c rows IH]; intros Hnd Ha Hb Heq; [destruct Ha|].
  simpl in Hnd. apply List.NoDup_cons_iff in Hnd. destruct Hnd as [Hfresh Hnd].
  destruct Ha as [Ha|Ha], Hb as [Hb|Hb].
  - congruence.
  - subst c. exfalso. apply Hfresh. rewrite Heq. apply in_map. exact Hb.
  - subst c. exfalso. apply Hfresh. rewrite <- Heq. apply in_map. exact Ha.
  - apply IH; assumption.
Qed.

(** ** The structural score *)














End RetrievalFacts.

(* ===================================================================== *)
(** * Properties of the context assembler *)
(* ===================================================================== *)

Module ContextFacts.
Import Text Models Retrieval Context Samples ContextSpec.
Local Open Scope list_scope.
Local Open Scope Z_scope.


Lemma total_length_app parts p :
  total_length (parts ++ [p]) = (total_length parts + String.length p)%nat.
Proof.
  induction parts as [|q parts IH]; simpl.
  - lia.
  - rewrite IH. lia.
Qed.

Lemma tokens_of_add (a b : nat) (m : Z) :
  tokens_of a + tokens_of b <= m -> Z.of_nat (a + b) <= 4 * m + 6.
Proof.
  unfold tokens_of. intros Hle.
  pose proof (Z.div_mod (Z.of_nat a) 4 ltac:(lia)) as Ha.
  pose proof (Z.mod_pos_bound (Z.of_nat a) 4 ltac:(lia)) as Ha'.
  pose proof (Z.div_mod (Z.of_nat b) 4 ltac:(lia)) as Hb.
  pose proof (Z.mod_pos_bound (Z.of_nat b) 4 ltac:(lia)) as Hb'.
  lia.
Qed.

Lemma tokens_of_bound (n : nat) (m : Z) :
  Z.of_nat n <= 4 * m + 6 -> tokens_of n <= m + 1.
Proof.
  unfold tokens_of. intros Hle.
  apply Z.lt_succ_r. apply Z.div_lt_upper_bound; lia.
Qed.

Lemma pack_cons svc i parts acc chunk rest :
  pack svc i parts acc (chunk :: rest)
  = if Z.ltb (max_tokens svc)
         (tokens_of (total_length parts)
          + tokens_of (String.length (format_chunk i chunk)))
    then (parts, acc)
    else pack svc (S i) (parts ++ [format_chunk i chunk])
           (acc ++ [{| marker := make_marker i;
                       cc_content := r_content chunk;
                       citation := make_citation chunk;
                       cc_chunk_id := chunk_id chunk |}])
           rest.
Proof. reflexivity. Qed.

(** Whatever [pack] adds to parts within the bound stays within it. *)
Lemma pack_parts_bound svc l : forall i parts acc,
  Z.of_nat (total_length parts) <= 4 * max_tokens svc + 6 ->
  Z.of_nat (total_length (fst (pack svc i parts acc l))) <= 4 * max_tokens svc + 6.
Proof.
  induction l as [|chunk rest IH]; intros i parts acc Hb.
  - exact Hb.
  - rewrite pack_cons. destruct (Z.ltb_spec (max_tokens svc)
                (tokens_of (total_length parts)
                 + tokens_of (String.length (format_chunk i chunk)))) as [Hlt|Hge].
    + exact Hb.
    + apply IH. rewrite total_length_app. apply tokens_of_add. exact Hge.
Qed.

(** [pack] emits a prefix of its input, in order: every chunk of the prefix
    passed the check against the lines before it, and the chunk after the
    prefix, if there is one, is the first the check refuses. *)
Lemma pack_prefix svc l : forall i parts acc,
  exists n,
    fst (pack svc i parts acc l) = parts ++ format_from i (firstn n l)
    /\ List.map cc_chunk_id (snd (pack svc i parts acc l))
       = List.map cc_chunk_id acc ++ List.map chunk_id (firstn n l)
    /\ (forall k chunk, (k < n)%nat -> nth_error l k = Some chunk ->
          tokens_of (total_length (parts ++ format_from i (firstn k l)))
          + tokens_of (String.length (format_chunk (i + k) chunk))
          <= max_tokens svc)
    /\ (forall next, nth_error l n = Some next ->
          max_tokens svc
          < tokens_of (total_length (parts ++ format_from i (firstn n l)))
            + tokens_of (String.length (format_chunk (i + n) next))).
Proof.
  induction l as [|chunk rest IH]; intros i parts acc.
  - exists 0%nat. simpl. rewrite !app_nil_r. repeat split.
    + intros k c Hk. lia.
    + intros next Hn. discriminate.
  - rewrite pack_cons.
    destruct (Z.ltb_spec (max_tokens svc)
                (tokens_of (total_length parts)
                 + tokens_of (String.length (format_chunk i chunk)))) as [Hlt|Hge].
    + exists 0%nat. cbn [firstn format_from List.map fst snd nth_error].
      rewrite !app_nil_r. repeat split.
      * intros k c Hk. lia.
      * intros next Hn. inversion Hn; subst. rewrite Nat.add_0_r. exact Hlt.
    + destruct (IH (S i) (parts ++ [format_chunk i chunk])
                  (acc ++ [{| marker := make_marker i;
                              cc_content := r_content chunk;
                              citation := make_citation chunk;
                              cc_chunk_id := chunk_id chunk |}]))
        as [n [Hparts [Hids [Hpass Hstop]]]].
      exists (S n). cbn [firstn format_from List.map nth_error].
      rewrite Hparts, Hids, map_app, <- !app_assoc.
      repeat split.
      * intros [|k] c Hk Hc.
        -- cbn [nth_error] in Hc. injection Hc as <-.
           cbn [firstn format_from]. rewrite app_nil_r, Nat.add_0_r. exact Hge.
        -- cbn [nth_error] in Hc. cbn [firstn format_from].
           specialize (Hpass k c ltac:(lia) Hc).
           rewrite <- app_assoc in Hpass.
           replace (i + S k)%nat with (S i + k)%nat by lia. exact Hpass.
      * intros next Hn. specialize (Hstop next Hn).
        rewrite <- app_assoc in Hstop.
        replace (i + S n)%nat with (S i + n)%nat by lia. exact Hstop.
Qed.

(** C9, as amended.  [build_context] takes the deduplicated chunks in order
    and stops at the first one for which the estimate of the lines so far
    plus the estimate of the new line exceeds [max_tokens]: every chunk it
    emits passed that check against the lines emitted before it, and the
    chunk after the last one emitted, if there is one, failed it.  For a
    non-negative [max_tokens] the lines it emits hold at most
    [4 * max_tokens + 6] characters, so their estimate is at most
    [max_tokens + 1]; the header and the separators of the context string
    are not counted. *)
Theorem build_context_budget (svc : ContextService) (chunks : list RetrievedChunk)
    (query : string) :
  0 <= max_tokens svc ->
  let unique_chunks := dedup ∅ chunks in
  let parts := context_parts_of svc chunks in
  exists n,
    parts = format_from 1 (firstn n unique_chunks)
    /\ List.map cc_chunk_id (snd (build_context svc chunks query))
       = List.map chunk_id (firstn n unique_chunks)
    /\ (forall k chunk, (k < n)%nat -> nth_error unique_chunks k = Some chunk ->
          tokens_of (total_length (format_from 1 (firstn k unique_chunks)))
          + tokens_of (String.length (format_chunk (S k) chunk))
          <= max_tokens svc)
    /\ (forall next, nth_error unique_chunks n = Some next ->
          max_tokens svc
          < tokens_of (total_length parts)
            + tokens_of (String.length (format_chunk (S n) next)))
    /\ Z.of_nat (total_length parts) <= 4 * max_tokens svc + 6
    /\ tokens_of (total_length parts) <= max_tokens svc + 1
    /\ (chunks <> [] ->
        fst (build_context svc chunks query)
        = (context_header ++ join blank_line parts)%string).
Proof.
  intros Hmax unique_chunks parts.
  destruct (pack_prefix svc unique_chunks 1 [] []) as [n [Hparts [Hids [Hpass Hstop]]]].
  assert (Hbound : Z.of_nat (total_length parts) <= 4 * max_tokens svc + 6).
  { unfold parts, context_parts_of. apply pack_parts_bound. simpl. lia. }
  assert (Hsnd : snd (build_context svc chunks query)
                 = snd (pack svc 1 [] [] unique_chunks)).
  { unfold build_context, unique_chunks. destruct chunks as [|c cs]; [reflexivity|].
    destruct (pack svc 1 [] [] (dedup ∅ (c :: cs))); reflexivity. }
  exists n. simpl in Hparts, Hids, Hpass, Hstop.
  split; [exact Hparts|].
  split; [rewrite Hsnd; exact Hids|].
  split; [exact Hpass|].
  split.
  { intros next Hn. unfold parts, context_parts_of. fold unique_chunks.
    rewrite Hparts. exact (Hstop next Hn). }
  split; [exact Hbound|].
  split; [apply tokens_of_bound; exact Hbound|].
  intros Hne. unfold build_context, parts, context_parts_of.
  destruct chunks as [|c cs]; [congruence|].
  destruct (pack svc 1 [] [] (dedup ∅ (c :: cs))); reflexivity.
Qed.

(** The budget theorem on the sample chunks, with the default budget. *)
Lemma build_context_budget_witness :
  0 <= max_tokens default_service
  /\ Z.of_nat (total_length (context_parts_of default_service long_context))
     <= 4 * max_tokens default_service + 6
  /\ tokens_of (total_length (context_parts_of default_service long_context))
     <= max_tokens default_service + 1.
Proof.
  assert (Hmax : 0 <= max_tokens default_service) by (vm_compute; discriminate).
  destruct (build_context_budget default_service long_context "q" Hmax)
    as [n [_ [_ [_ [_ [Hchars [Htokens _]]]]]]].
  split; [exact Hmax|]. split; [exact Hchars|exact Htokens].
Defined.

(** C9 fails as stated.  With the default budget of 4000, a chunk of 3
    characters and one of 15995 both pass the check (1 + 3999 estimated
    tokens), and the lines emitted hold 16006 characters: 4001 estimated
    tokens, and 4016 for the context string with its header. *)
Lemma context_exceeds_budget :
  max_tokens default_service = 4000
  /\ List.map cc_chunk_id (snd (build_context default_service long_context "q"))
     = ["c1"; "c2"]
  /\ tokens_of (total_length (context_parts_of default_service long_context)) = 4001
  /\ tokens_of (String.length (fst (build_context default_service long_context "q")))
     = 4016.
Proof. vm_compute. repeat split. Qed.

End ContextFacts.

(* ===================================================================== *)
(** * Properties of the grounding validator *)
(* ===================================================================== *)

Module ValidationFacts.
Import Text Config Embedding Context Validation Samples ValidationSpec.
Local Open Scope list_scope.

Lemma ge_iff (a b : Q) : ge a b = true <-> (b <= a)%Q.
Proof. unfold ge. apply Qle_bool_iff. Qed.

Lemma gt_iff (a b : Q) : gt a b = true <-> (b < a)%Q.
Proof.
  unfold gt. rewrite negb_true_iff. split.
  - intros Hf. apply Qnot_le_lt. intros Hle.
    apply Qle_bool_iff in Hle. congruence.
  - intros Hlt. destruct (Qle_bool a b) eqn:Hle; [|reflexivity].
    apply Qle_bool_iff in Hle. exfalso. exact (Qlt_not_le _ _ Hlt Hle).
Qed.

(** The result of [validate_answer] past its guard. *)
Lemma validate_answer_unfold `{EmbeddingModel} cfg answer ctx :
  answer <> EmptyString -> ctx <> [] ->
  let results :=
    List.map (fun s => _validate_sentence cfg s ctx (build_content_index ctx))
      (_split_sentences answer) in
  let score :=
    match results with
    | [] => 0%Q
    | _ :: _ => (inject_Z (Z.of_nat (grounded_count results))
                 / inject_Z (Z.of_nat (List.length results)))%Q
    end in
  let r := validate_answer cfg answer ctx in
  sentence_results r = results
  /\ grounding_score r = score
  /\ is_valid r = ge score (MIN_GROUNDING_CONFIDENCE cfg)
  /\ errors r = (if gt (5 # 10) score
                 then ["Less than 50% of the answer is grounded in sources"] else []).
Proof.
  intros Ha Hc. unfold validate_answer.
  destruct answer as [|a answer']; [congruence|].
  destruct ctx as [|c ctx']; [congruence|].
  cbn [nonempty negb orb is_nil].
  repeat split.
Qed.

(** C1, as amended.  For a non-empty answer and a non-empty context,
    [grounding_score] is the number of grounded sentences over the number of
    sentences (0 when the answer has no sentence), [is_valid] holds exactly
    when the score reaches [MIN_GROUNDING_CONFIDENCE], an error is recorded
    exactly when the score is below 0.5, and, for a threshold of at least
    0.5 (such as the default 0.7), [is_valid] holds exactly when the score
    reaches the threshold and no error is recorded. *)
Theorem validate_answer_aggregate `{EmbeddingModel} (cfg : Settings) (answer : string)
    (context_chunks : list ContextChunk) :
  answer <> EmptyString -> context_chunks <> [] ->
  let r := validate_answer cfg answer context_chunks in
  let results := sentence_results r in
  results
  = List.map (fun s => _validate_sentence cfg s context_chunks
                         (build_content_index context_chunks))
      (_split_sentences answer)
  /\ (results <> [] ->
      grounding_score r
      == inject_Z (Z.of_nat (grounded_count results))
         / inject_Z (Z.of_nat (List.length results)))%Q
  /\ (results = [] -> grounding_score r == 0)%Q
  /\ (is_valid r = true <-> MIN_GROUNDING_CONFIDENCE cfg <= grounding_score r)%Q
  /\ (errors r <> [] <-> grounding_score r < 5 # 10)%Q
  /\ ((5 # 10 <= MIN_GROUNDING_CONFIDENCE cfg)%Q ->
      (is_valid r = true
       <-> (MIN_GROUNDING_CONFIDENCE cfg <= grounding_score r)%Q /\ errors r = [])).
Proof.
  intros Ha Hc r results.
  destruct (validate_answer_unfold cfg answer context_chunks Ha Hc)
    as [Hres [Hscore [Hvalid Herr]]].
  fold r in Hres, Hscore, Hvalid, Herr. fold results in Hres.
  assert (Hv : is_valid r = true <-> (MIN_GROUNDING_CONFIDENCE cfg <= grounding_score r)%Q).
  { rewrite Hvalid, Hscore. apply ge_iff. }
  assert (He : errors r <> [] <-> (grounding_score r < 5 # 10)%Q).
  { rewrite Herr, Hscore. rewrite <- gt_iff.
    destruct (gt (5 # 10) _); split; intros; congruence. }
  split; [exact Hres|].
  split.
  { intros Hne. rewrite Hscore, <- Hres.
    destruct results; [congruence|]. reflexivity. }
  split.
  { intros Hnil. rewrite Hscore, <- Hres, Hnil. reflexivity. }
  split; [exact Hv|].
  split; [exact He|].
  intros Hmin. rewrite Hv. split.
  - intros Hle. split; [exact Hle|].
    destruct (errors r) as [|e es] eqn:Hes; [reflexivity|].
    exfalso. assert (Hlt : (grounding_score r < 5 # 10)%Q).
    { apply He. congruence. }
    apply (Qlt_not_le _ _ Hlt). eapply Qle_trans; eassumption.
  - intros [Hle _]. exact Hle.
Qed.

(** ** The content index *)

Lemma index_set_in k v items : In (k, v) (index_set k v items).
Proof.
  induction items as [|[k' v'] rest IH]; simpl.
  - left. reflexivity.
  - destruct (String.eqb k k'); [left; reflexivity|right; exact IH].
Qed.

Lemma index_set_other k v k' v' items :
  k' <> k -> In (k', v') items -> In (k', v') (index_set k v items).
Proof.
  intros Hne. induction items as [|[k2 v2] rest IH]; simpl; intros Hin.
  - destruct Hin.
  - destruct (String.eqb_spec k k2) as [Heq|Hneq].
    + destruct Hin as [Hin|Hin].
      * inversion Hin; subst. congruence.
      * right. exact Hin.
    + destruct Hin as [Hin|Hin]; [left; exact Hin|right; apply IH; exact Hin].
Qed.


Lemma index_keeps_entry ctx : forall items k v,
  In (k, v) items -> ~ In k (List.map cc_chunk_id ctx) ->
  In (k, v) (List.fold_left add_to_index ctx items).
Proof.
  induction ctx as [|c ctx IH]; intros items k v Hin Hnot; simpl.
  - exact Hin.
  - apply IH.
    + apply index_set_other; [|exact Hin].
      intros Heq. apply Hnot. left. symmetry. exact Heq.
    + intros Hk. apply Hnot. right. exact Hk.
Qed.

(** With distinct chunk ids, the index holds the lowercased content of
    every context chunk. *)
Lemma content_index_complete ctx c :
  List.NoDup (List.map cc_chunk_id ctx) -> In c ctx ->
  In (cc_chunk_id c, lower (cc_content c)) (build_content_index ctx).
Proof.
  unfold build_content_index. change (fun items chunk => index_set _ _ items) with add_to_index.
  generalize (@nil (string * string)).
  induction ctx as [|c0 ctx IH]; intros items Hnd Hin; [destruct Hin|].
  simpl in Hnd. apply List.NoDup_cons_iff in Hnd. destruct Hnd as [Hfresh Hnd].
  simpl. destruct Hin as [Heq|Hin].
  - subst c0. apply index_keeps_entry; [apply index_set_in|exact Hfresh].
  - apply IH; assumption.
Qed.

(** Strategy 2 fires as soon as one entry of the index holds the cleaned
    sentence and that sentence has more than 20 characters. *)
Lemma check_exact_fires sentence sentence_lower items k v :
  In (k, v) items ->
  (20 < String.length (strip (sub_markers sentence_lower)))%nat ->
  contains (strip (sub_markers sentence_lower)) v = true ->
  exists r, check_exact sentence sentence_lower items = Some r
            /\ Validation.sentence r = sentence /\ match_type r = EXACT
            /\ confidence r = 1%Q /\ is_grounded r = true.
Proof.
  intros Hin Hlen Hsub.
  induction items as [|[k' v'] rest IH]; [destruct Hin|].
  simpl.
  destruct (Nat.ltb 20 (String.length (strip (sub_markers sentence_lower)))
            && contains (strip (sub_markers sentence_lower)) v') eqn:Htest.
  - eexists. split; [reflexivity|]. repeat split.
  - destruct Hin as [Heq|Hin].
    + inversion Heq; subst. rewrite Hsub in Htest.
      apply Nat.ltb_lt in Hlen. rewrite Hlen in Htest. discriminate.
    + apply IH. exact Hin.
Qed.

Lemma split_sentences_nonempty answer s :
  In s (_split_sentences answer) -> answer <> EmptyString.
Proof. intros Hin Heq. subst answer. exact Hin. Qed.

(** C4, as amended.  A sentence of the answer that strategy 1 does not
    classify CITED, whose text without citation markers (lowercased and
    trimmed) has more than 20 characters and occurs in the lowercased
    content of a context chunk, is classified EXACT with confidence 1.0;
    the chunk ids of the context are taken to be distinct. *)
Theorem exact_match_classified `{EmbeddingModel} (cfg : Settings) (answer : string)
    (context_chunks : list ContextChunk) (s : string) (c : ContextChunk) :
  In s (_split_sentences answer) ->
  check_citations cfg s context_chunks (findall_markers s) = None ->
  List.NoDup (List.map cc_chunk_id context_chunks) ->
  In c context_chunks ->
  (20 < String.length (strip (sub_markers (lower s))))%nat ->
  contains (strip (sub_markers (lower s))) (lower (cc_content c)) = true ->
  exists r,
    In r (sentence_results (validate_answer cfg answer context_chunks))
    /\ sentence r = s /\ match_type r = EXACT
    /\ (confidence r == 1)%Q /\ is_grounded r = true.
Proof.
  intros Hs Hcited Hnd Hc Hlen Hsub.
  assert (Ha : answer <> EmptyString) by (eapply split_sentences_nonempty; exact Hs).
  assert (Hctx : context_chunks <> []) by (intros Heq; subst; destruct Hc).
  destruct (validate_answer_unfold cfg answer context_chunks Ha Hctx) as [Hres _].
  rewrite Hres.
  destruct (check_exact_fires s (lower s) (build_content_index context_chunks)
              _ _ (content_index_complete _ _ Hnd Hc) Hlen Hsub)
    as [r [Hr [Hsent [Hty [Hconf Hgr]]]]].
  exists r. split.
  - apply in_map_iff. exists s. split; [|exact Hs].
    unfold _validate_sentence. rewrite Hcited, Hr. reflexivity.
  - rewrite Hconf. split; [exact Hsent|]. split; [exact Hty|].
    split; [reflexivity|exact Hgr].
Qed.

(** The aggregate theorem on a two-sentence answer. *)
Lemma validate_answer_aggregate_witness :
  let answer := "Paris is the capital of France. Berlin is big." in
  let r := @validate_answer null_embedding settings answer paris_context in
  answer <> EmptyString
  /\ paris_context <> []
  /\ (grounding_score r
       == inject_Z (Z.of_nat (grounded_count (sentence_results r)))
          / inject_Z (Z.of_nat (List.length (sentence_results r))))%Q
  /\ (is_valid r = true
      <-> (MIN_GROUNDING_CONFIDENCE settings <= grounding_score r)%Q /\ errors r = []).
Proof.
  intros answer r.
  assert (Ha : answer <> EmptyString) by discriminate.
  assert (Hc : paris_context <> []) by discriminate.
  destruct (@validate_answer_aggregate null_embedding settings answer paris_context Ha Hc)
    as [_ [Hscore [_ [_ [_ Hvalid]]]]].
  split; [exact Ha|]. split; [exact Hc|]. split.
  - apply Hscore. vm_compute. discriminate.
  - apply Hvalid. vm_compute. discriminate.
Defined.

(** C1 fails as stated.  An empty answer has a grounding score of 0, below
    0.5, and no error is recorded; and under a threshold of 0.3 an answer
    with one grounded sentence out of three is valid although the error is
    recorded. *)
Lemma validity_without_errors_check :
  (let r := @validate_answer null_embedding settings EmptyString paris_context in
   (grounding_score r < 5 # 10)%Q /\ errors r = [] /\ is_valid r = false)
  /\ (let r := @validate_answer null_embedding lenient_settings
                  "Paris is the capital of France. Berlin is big. Rome is old."
                  paris_context in
      (MIN_GROUNDING_CONFIDENCE lenient_settings <= grounding_score r)%Q
      /\ (grounding_score r < 5 # 10)%Q
      /\ errors r = ["Less than 50% of the answer is grounded in sources"]
      /\ is_valid r = true).
Proof. vm_compute. repeat split; discriminate. Qed.

(** The EXACT theorem on a sentence of 31 characters. *)
Lemma exact_match_classified_witness :
  let s := "Paris is the capital of France." in
  let c := context_chunk "c1" "Paris is the capital of France." in
  In s (_split_sentences s)
  /\ @check_citations null_embedding settings s paris_context (findall_markers s) = None
  /\ List.NoDup (List.map cc_chunk_id paris_context)
  /\ In c paris_context
  /\ (20 < String.length (strip (sub_markers (lower s))))%nat
  /\ contains (strip (sub_markers (lower s))) (lower (cc_content c)) = true
  /\ exists r,
       In r (sentence_results (@validate_answer null_embedding settings s paris_context))
       /\ sentence r = s /\ match_type r = EXACT
       /\ (confidence r == 1)%Q /\ is_grounded r = true.
Proof.
  intros s c.
  assert (Hs : In s (_split_sentences s)) by (vm_compute; left; reflexivity).
  assert (Hcited : @check_citations null_embedding settings s paris_context
                     (findall_markers s) = None) by reflexivity.
  assert (Hnd : List.NoDup (List.map cc_chunk_id paris_context)).
  { constructor; [intros []|constructor]. }
  assert (Hc : In c paris_context) by (left; reflexivity).
  assert (Hlen : (20 < String.length (strip (sub_markers (lower s))))%nat)
    by (vm_compute; lia).
  assert (Hsub : contains (strip (sub_markers (lower s))) (lower (cc_content c)) = true)
    by reflexivity.
  repeat (split; [assumption|]).
  exact (@exact_match_classified null_embedding settings s paris_context s c
           Hs Hcited Hnd Hc Hlen Hsub).
Defined.

(** C4 fails as stated.  A sentence of exactly 20 characters, not cited and
    held by a context chunk, is classified PARAPHRASE: strategy 2 asks for
    more than 20 characters.  And with two context chunks under one chunk
    id, a sentence held by the first is not found by strategy 2: the content
    index keeps the content of the second. *)
Lemma short_sentence_not_exact :
  (let s := "Paris is the capital" in
   String.length (strip (sub_markers (lower s))) = 20%nat
   /\ contains (strip (sub_markers (lower s)))
        (lower "Paris is the capital of France.") = true
   /\ @check_citations null_embedding settings s paris_context (findall_markers s) = None
   /\ List.map match_type
        (sentence_results (@validate_answer null_embedding settings s paris_context))
      = [PARAPHRASE])
  /\ (let s := "Paris is the capital of France." in
      contains (strip (sub_markers (lower s)))
        (lower "Paris is the capital of France.") = true
      /\ build_content_index repeated_id_context = [("c1", "other text.")]
      /\ List.map match_type
           (sentence_results
              (@validate_answer null_embedding settings s repeated_id_context))
         = [PARAPHRASE]).
Proof. vm_compute. repeat split. Qed.

End ValidationFacts.

(* ===================================================================== *)
(** * Properties of the extractive parser *)
(* ===================================================================== *)

Module ExtractiveFacts.
Import Text Context Extractive Samples ExtractiveSpec.
Local Open Scope list_scope.



Lemma in_range_cited ctx k :
  in_range ctx k = true -> exists c, cited_chunk ctx k = Some c.
Proof.
  unfold in_range, cited_chunk. intros Hr.
  apply andb_true_iff in Hr. destruct Hr as [H0 Hlt].
  apply Z.leb_le in H0. apply Z.ltb_lt in Hlt.
  destruct (nth_error ctx (Z.to_nat (int_of_digits k - 1))) as [c|] eqn:Hn.
  - exists c. reflexivity.
  - apply nth_error_None in Hn. lia.
Qed.

Lemma verify_quote_in_range ctx q k c :
  in_range ctx k = true -> cited_chunk ctx k = Some c ->
  verify_quote ctx (q, k) = [checked q k c].
Proof.
  unfold verify_quote, cited_chunk. intros Hr Hc. rewrite Hr, Hc. reflexivity.
Qed.

Lemma verify_quote_out_of_range ctx q k :
  in_range ctx k = false -> verify_quote ctx (q, k) = [].
Proof. unfold verify_quote. intros Hr. rewrite Hr. reflexivity. Qed.

Lemma parse_found response ctx :
  contains "NOT_FOUND" (upper response) = false ->
  quotes (_parse_extractive_response response ctx)
  = List.flat_map (verify_quote ctx) (findall_quotes response)
  /\ all_verified (_parse_extractive_response response ctx)
     = Some (match List.flat_map (verify_quote ctx) (findall_quotes response) with
             | [] => false
             | vs => List.forallb verified vs
             end).
Proof.
  intros Hnf. unfold _parse_extractive_response. rewrite Hnf. simpl.
  split; [reflexivity|].
  destruct (List.flat_map _ _); reflexivity.
Qed.

(** C5, as amended.  When the response does not hold NOT_FOUND, every
    extracted pair whose number [k] lies in [1..len(context_chunks)] is
    checked against chunk [k - 1] and retained with the outcome of the
    case-insensitive substring test as its [verified] flag, failed or not;
    a pair whose number is out of that range is dropped; the list holds
    nothing else; and [all_verified] is true exactly when the list is not
    empty and every retained quote is verified. *)
Theorem parse_extractive_quotes (response : string) (context_chunks : list ContextChunk) :
  contains "NOT_FOUND" (upper response) = false ->
  let r := _parse_extractive_response response context_chunks in
  (forall q k, In (q, k) (findall_quotes response) ->
     in_range context_chunks k = true ->
     exists c, cited_chunk context_chunks k = Some c /\ In (checked q k c) (quotes r))
  /\ (forall v, In v (quotes r) ->
        exists k c, In (quote v, k) (findall_quotes response)
                    /\ in_range context_chunks k = true
                    /\ cited_chunk context_chunks k = Some c
                    /\ v = checked (quote v) k c)
  /\ quotes r
     = List.flat_map
         (fun p => if in_range context_chunks (snd p)
                   then verify_quote context_chunks p else [])
         (findall_quotes response)
  /\ (all_verified r = Some true
      <-> quotes r <> [] /\ forall v, In v (quotes r) -> verified v = true).
Proof.
  intros Hnf r.
  destruct (parse_found response context_chunks Hnf) as [Hq Hall].
  fold r in Hq, Hall.
  split; [|split; [|split]].
  - intros q k Hin Hr.
    destruct (in_range_cited _ _ Hr) as [c Hc].
    exists c. split; [exact Hc|].
    rewrite Hq. apply in_flat_map. exists (q, k). split; [exact Hin|].
    rewrite (verify_quote_in_range _ _ _ _ Hr Hc). left. reflexivity.
  - intros v Hv. rewrite Hq in Hv. apply in_flat_map in Hv.
    destruct Hv as [[q k] [Hin Hv]].
    destruct (in_range context_chunks k) eqn:Hr.
    + destruct (in_range_cited _ _ Hr) as [c Hc].
      rewrite (verify_quote_in_range _ _ _ _ Hr Hc) in Hv.
      destruct Hv as [Hv|[]]. subst v. exists k, c. simpl. repeat split; assumption.
    + rewrite (verify_quote_out_of_range _ _ _ Hr) in Hv. destruct Hv.
  - rewrite Hq. apply flat_map_ext. intros [q k]. cbn [snd].
    destruct (in_range context_chunks k) eqn:Hr; [reflexivity|].
    apply verify_quote_out_of_range. exact Hr.
  - rewrite Hall, <- Hq. destruct (quotes r) as [|v vs] eqn:Hvs.
    + split; [discriminate|]. intros [Hne _]. congruence.
    + split.
      * intros Hs. injection Hs as Hf. split; [discriminate|].
        intros w Hw. change (forallb verified (v :: vs) = true) in Hf.
        rewrite forallb_forall in Hf. apply Hf. exact Hw.
      * intros [_ Hf]. f_equal. apply forallb_forall. exact Hf.
Qed.

(** The parser theorem on the sample response. *)
Lemma parse_extractive_quotes_witness :
  let r := _parse_extractive_response two_quotes paris_context in
  contains "NOT_FOUND" (upper two_quotes) = false
  /\ (all_verified r = Some true
      <-> quotes r <> [] /\ forall v, In v (quotes r) -> verified v = true)
  /\ exists c, cited_chunk paris_context "1" = Some c
               /\ In (checked "Paris" "1" c) (quotes r).
Proof.
  intros r.
  assert (Hnf : contains "NOT_FOUND" (upper two_quotes) = false) by reflexivity.
  destruct (parse_extractive_quotes two_quotes paris_context Hnf)
    as [Hchecked [_ [_ Hall]]].
  split; [exact Hnf|]. split; [exact Hall|].
  apply Hchecked; [vm_compute; left; reflexivity|reflexivity].
Defined.

(** C5 fails as stated.  The response quotes Paris under [1] and Rome under
    [2]; the context has one chunk.  The second pair is extracted, is not
    checked and is not retained, and the answer is reported fully verified. *)
Lemma unchecked_quote_dropped :
  let r := _parse_extractive_response two_quotes paris_context in
  findall_quotes two_quotes = [("Paris", "1"); ("Rome", "2")]
  /\ in_range paris_context "2" = false
  /\ List.map quote (quotes r) = ["Paris"]
  /\ all_verified r = Some true.
Proof. vm_compute. repeat split. Qed.

End ExtractiveFacts.

(* ===================================================================== *)
(** * Properties of the ingestion service *)
(* ===================================================================== *)

Module IngestionFacts.
Import Text Config Models Database Ingestion Samples IngestionSpec.
Local Open Scope list_scope.

(** ** The small-chunk merge, run by run *)






Lemma append_assoc (a b c : string) : ((a ++ b) ++ c = a ++ (b ++ c))%string.
Proof.
  induction a as [|x a IH]; [reflexivity|].
  change (String x ((a ++ b) ++ c) = String x (a ++ (b ++ c)))%string.
  rewrite IH. reflexivity.
Qed.

Lemma set_content_same c : set_content c (content c) = c.
Proof. destruct c. reflexivity. Qed.

Lemma set_content_twice c s t : set_content (set_content c s) t = set_content c t.
Proof. reflexivity. Qed.

Lemma group_runs_ungroup min_size l :
  ungroup (fst (group_runs min_size l)) (snd (group_runs min_size l)) = l.
Proof.
  induction l as [|c rest IH]; [reflexivity|].
  simpl. destruct (group_runs min_size rest) as [groups trailing].
  unfold ungroup in *. simpl in IH.
  destruct (is_small min_size c).
  - destruct groups as [|[run stop] groups']; simpl in *; rewrite IH; reflexivity.
  - simpl. rewrite IH. reflexivity.
Qed.

Lemma group_runs_shape min_size l :
  Forall (fun g => Forall (fun c => is_small min_size c = true) (fst g)
                   /\ is_small min_size (snd g) = false)
    (fst (group_runs min_size l))
  /\ Forall (fun c => is_small min_size c = true) (snd (group_runs min_size l)).
Proof.
  induction l as [|c rest IH]; [split; constructor|].
  simpl. destruct (group_runs min_size rest) as [groups trailing].
  simpl in IH. destruct IH as [Hg Ht].
  destruct (is_small min_size c) eqn:Hc.
  - destruct groups as [|[run stop] groups']; simpl.
    + split; [constructor|constructor; assumption].
    + inversion Hg as [|g gs [Hrun Hstop] Hgs]; subst. simpl in *.
      split; [|exact Ht].
      constructor; [|exact Hgs]. simpl. split; [constructor; assumption|exact Hstop].
  - simpl. split; [|exact Ht].
    constructor; [|exact Hg]. simpl. split; [constructor|exact Hc].
Qed.


Lemma join_cons_cons sep a b rest :
  join sep (a :: b :: rest) = (a ++ sep ++ join sep (b :: rest))%string.
Proof. reflexivity. Qed.

Lemma loop_over_run min_size run : forall merged buffer,
  Forall (fun c => is_small min_size c = true) run ->
  List.fold_left (merge_step min_size) run (merged, buffer) = (merged, grow buffer run).
Proof.
  induction run as [|c run IH]; intros merged buffer Hsmall.
  - simpl. destruct buffer as [b|]; [|reflexivity].
    simpl. unfold join. simpl. rewrite set_content_same. reflexivity.
  - inversion Hsmall as [|? ? Hc Hrun]; subst.
    cbn [List.fold_left].
    replace (merge_step min_size (merged, buffer) c)
      with (merged, match buffer with
                    | Some b => Some (append_content b c)
                    | None => Some c
                    end)
      by (unfold merge_step; rewrite Hc; destruct buffer; reflexivity).
    destruct buffer as [b|].
    + rewrite IH by exact Hrun. f_equal. cbn [grow]. f_equal.
      unfold append_content. rewrite set_content_twice. f_equal.
      cbn [content set_content List.map].
      destruct run as [|c' run'].
      * reflexivity.
      * cbn [List.map]. rewrite !join_cons_cons, !append_assoc. reflexivity.
    + rewrite IH by exact Hrun. reflexivity.
Qed.

Lemma loop_over_group min_size run stop merged :
  Forall (fun c => is_small min_size c = true) run ->
  is_small min_size stop = false ->
  List.fold_left (merge_step min_size) (run ++ [stop]) (merged, None)
  = (merged ++ emit min_size (run, stop), None).
Proof.
  intros Hrun Hstop. rewrite fold_left_app, loop_over_run by exact Hrun.
  simpl. unfold merge_step. rewrite Hstop. unfold emit. cbn [grow].
  destruct (joined run) as [j|]; [|reflexivity].
  destruct (Nat.ltb (String.length (content j)) min_size); reflexivity.
Qed.

Lemma loop_over_groups min_size groups : forall merged,
  Forall (fun g => Forall (fun c => is_small min_size c = true) (fst g)
                   /\ is_small min_size (snd g) = false) groups ->
  List.fold_left (merge_step min_size) (List.flat_map (fun g => fst g ++ [snd g]) groups)
    (merged, None)
  = (merged ++ List.flat_map (emit min_size) groups, None).
Proof.
  induction groups as [|[run stop] groups IH]; intros merged Hshape.
  - simpl. rewrite app_nil_r. reflexivity.
  - inversion Hshape as [|? ? [Hrun Hstop] Hrest]; subst. simpl in Hrun, Hstop.
    cbn [List.flat_map fst snd]. rewrite fold_left_app.
    rewrite loop_over_group by assumption.
    rewrite IH by exact Hrest. rewrite <- app_assoc. reflexivity.
Qed.

(** The loop and the final step compute [merge_by_runs]. *)
Lemma merge_loop_by_runs min_size groups trailing :
  Forall (fun g => Forall (fun c => is_small min_size c = true) (fst g)
                   /\ is_small min_size (snd g) = false) groups ->
  Forall (fun c => is_small min_size c = true) trailing ->
  (let '(merged, buffer) :=
     List.fold_left (merge_step min_size) (ungroup groups trailing) ([], None) in
   match buffer with
   | Some b => match merged with [] => [b] | _ :: _ => append_to_last merged b end
   | None => merged
   end)
  = merge_by_runs min_size groups trailing.
Proof.
  intros Hg Ht. unfold ungroup. rewrite fold_left_app.
  rewrite loop_over_groups by exact Hg. rewrite loop_over_run by exact Ht.
  reflexivity.
Qed.

(** Fewer than two chunks: the early return agrees with the general case. *)
Lemma merge_by_runs_short min_size l :
  (List.length l < 2)%nat ->
  merge_by_runs min_size (fst (group_runs min_size l)) (snd (group_runs min_size l)) = l.
Proof.
  destruct l as [|c [|c' l']]; simpl; intros Hlen; try lia.
  - reflexivity.
  - destruct (is_small min_size c); unfold merge_by_runs; simpl.
    + unfold join. simpl. rewrite set_content_same. reflexivity.
    + reflexivity.
Qed.

(** ** Headings through the merge *)


Lemma small_not_heading min_size c : is_small min_size c = true -> is_heading c = false.
Proof.
  unfold is_small, is_heading. intros Hs. apply andb_true_iff in Hs.
  destruct Hs as [_ Hh]. apply negb_true_iff in Hh. exact Hh.
Qed.

Lemma headings_app l1 l2 : headings (l1 ++ l2) = (headings l1 + headings l2)%nat.
Proof. unfold headings. rewrite List.filter_app, length_app. reflexivity. Qed.

Lemma headings_set_content c s : headings [set_content c s] = headings [c].
Proof.
  unfold headings. simpl. change (is_heading (set_content c s)) with (is_heading c).
  destruct (is_heading c); reflexivity.
Qed.

Lemma append_to_last_headings merged b :
  headings (append_to_last merged b) = headings merged.
Proof.
  induction merged as [|c [|c' rest] IH]; [reflexivity|apply headings_set_content|].
  change (append_to_last (c :: c' :: rest) b) with (c :: append_to_last (c' :: rest) b).
  change (c :: append_to_last (c' :: rest) b) with ([c] ++ append_to_last (c' :: rest) b).
  change (c :: c' :: rest) with ([c] ++ c' :: rest).
  rewrite !headings_app, IH. reflexivity.
Qed.

Lemma merge_step_headings min_size merged buffer chunk :
  (forall b, buffer = Some b -> is_heading b = false) ->
  let st := merge_step min_size (merged, buffer) chunk in
  headings (fst st) = (headings merged + headings [chunk])%nat
  /\ (forall b, snd st = Some b -> is_heading b = false).
Proof.
  intros Hbuf. unfold merge_step.
  destruct (is_small min_size chunk) eqn:Hs.
  - pose proof (small_not_heading _ _ Hs) as Hh.
    assert (Hc : headings [chunk] = 0%nat) by (unfold headings; simpl; rewrite Hh; reflexivity).
    destruct buffer as [b|]; simpl; (split; [lia|]).
    + intros b' Hb'. inversion Hb'; subst. apply (Hbuf b). reflexivity.
    + intros b' Hb'. inversion Hb'; subst. exact Hh.
  - destruct buffer as [b|].
    + pose proof (Hbuf b eq_refl) as Hb.
      destruct (Nat.ltb (String.length (content b)) min_size); simpl;
        (split; [|intros b' Hb'; discriminate]).
      * rewrite headings_app, headings_set_content. reflexivity.
      * change [b; chunk] with ([b] ++ [chunk]). rewrite !headings_app.
        unfold headings at 2. simpl. rewrite Hb. reflexivity.
    + simpl. split; [|intros b' Hb'; discriminate].
      rewrite headings_app. reflexivity.
Qed.

Lemma merge_loop_headings min_size chunks : forall merged buffer,
  (forall b, buffer = Some b -> is_heading b = false) ->
  let st := List.fold_left (merge_step min_size) chunks (merged, buffer) in
  headings (fst st) = (headings merged + headings chunks)%nat
  /\ (forall b, snd st = Some b -> is_heading b = false).
Proof.
  induction chunks as [|c chunks IH]; intros merged buffer Hbuf.
  - simpl. split; [unfold headings at 3; simpl; lia|exact Hbuf].
  - cbn [List.fold_left].
    destruct (merge_step_headings min_size merged buffer c Hbuf) as [Hh Hb].
    destruct (merge_step min_size (merged, buffer) c) as [merged' buffer'].
    cbn [fst snd] in Hh, Hb. destruct (IH merged' buffer' Hb) as [Hh' Hb'].
    split; [|exact Hb'].
    rewrite Hh', Hh. change (c :: chunks) with ([c] ++ chunks).
    rewrite headings_app. lia.
Qed.

Lemma merge_keeps_headings chunks min_size :
  headings (_merge_small_chunks chunks min_size) = headings chunks.
Proof.
  unfold _merge_small_chunks. destruct (Nat.ltb (List.length chunks) 2); [reflexivity|].
  destruct (merge_loop_headings min_size chunks [] None) as [Hh Hb]; [discriminate|].
  destruct (List.fold_left (merge_step min_size) chunks ([], None)) as [merged buffer].
  simpl in Hh, Hb. destruct buffer as [b|]; [|exact Hh].
  destruct merged as [|m ms].
  - unfold headings at 1. simpl. rewrite (Hb b eq_refl). simpl. exact Hh.
  - rewrite append_to_last_headings. exact Hh.
Qed.

(** C6, as amended.  Consecutive non-heading chunks shorter than [min_size]
    form a run, joined with spaces in its first chunk.  A run followed by a
    chunk goes in front of the content of that chunk, a HEADING included,
    when the joined run is still shorter than [min_size], and is a chunk of
    its own otherwise; a run at the end goes behind the content of the last
    chunk emitted, whatever its role, or stands alone when nothing was
    emitted.  A HEADING is never part of a run and never dropped: the output
    has as many HEADING chunks as the input. *)
Theorem merge_small_chunks_by_runs (chunks : list Chunk) (min_size : nat) :
  let '(groups, trailing) := group_runs min_size chunks in
  ungroup groups trailing = chunks
  /\ _merge_small_chunks chunks min_size = merge_by_runs min_size groups trailing
  /\ headings (_merge_small_chunks chunks min_size) = headings chunks.
Proof.
  pose proof (group_runs_ungroup min_size chunks) as Hun.
  pose proof (group_runs_shape min_size chunks) as [Hg Ht].
  pose proof (merge_by_runs_short min_size chunks) as Hshort.
  destruct (group_runs min_size chunks) as [groups trailing]. simpl in *.
  split; [exact Hun|]. split; [|apply merge_keeps_headings].
  unfold _merge_small_chunks.
  destruct (Nat.ltb_spec (List.length chunks) 2) as [Hlt|Hge].
  - symmetry. apply Hshort. exact Hlt.
  - rewrite <- (merge_loop_by_runs min_size groups trailing Hg Ht). rewrite Hun.
    destruct (List.fold_left (merge_step min_size) chunks ([], None)) as [merged buffer].
    reflexivity.
Qed.


(** C6 fails as stated.  A short paragraph between two paragraphs of 100
    characters goes in front of the one that follows it, not behind the one
    before it; and a short paragraph followed by a heading is merged into
    the heading, whose content changes. *)
Lemma small_chunk_joins_next :
  (let before := row EmptyString "d1" (filler 100 "a") PARAGRAPH in
   let small := row EmptyString "d1" "note" PARAGRAPH in
   let after := row EmptyString "d1" (filler 100 "b") PARAGRAPH in
   List.map content (_merge_small_chunks [before; small; after] default_min_size)
   = [content before; ("note " ++ content after)%string])
  /\ (let small := row EmptyString "d1" "note" PARAGRAPH in
      let heading := row EmptyString "d1" "Title" HEADING in
      List.map (fun c => (chunk_type c, content c))
        (_merge_small_chunks [small; heading] default_min_size)
      = [(HEADING, "note Title")]).
Proof. vm_compute. repeat split. Qed.

(** ** Sequence indices within one call of the chunker *)








(** ** [ingest_file] on a session that does its work *)

Lemma set_page_count_same d : set_page_count d (page_count d) = d.
Proof. destruct d. reflexivity. Qed.


Lemma add_all_reliable chunks : forall k, add_all reliable k chunks = (chunks, None).
Proof.
  induction chunks as [|chunk rest IH]; intros k; cbn [add_all add_raises reliable].
  - reflexivity.
  - rewrite IH. reflexivity.
Qed.

(** [ingest_file] with the calls of the session left out. *)
Lemma ingest_file_unfold `{Readers} cfg uuid4 db filepath metadata :
  ingest_file cfg uuid4 db filepath metadata
  = match List.find (fun d => String.eqb (file_hash d) (_compute_file_hash filepath))
            (document_rows db) with
    | Some existing => (db, inr existing)
    | None =>
        match _process_document cfg (new_document uuid4 filepath metadata) filepath with
        | inr (document, chunks) =>
            let document := set_status document INDEXED (error_message document)
                              (List.length chunks) in
            (commit db document (chunk_rows_from uuid4 1 chunks), inr document)
        | inl (e, document) =>
            let document := set_status document FAILED (Some (str_of_exn e))
                              (chunk_count document) in
            (commit db document [], inl e)
        end
    end.
Proof.
  unfold ingest_file, ingest_file_on.
  destruct (List.find _ (document_rows db)); [reflexivity|].
  cbn [flush_raises reliable].
  destruct (_process_document cfg _ filepath) as [[e d']|[d' chunks]].
  - reflexivity.
  - rewrite add_all_reliable. reflexivity.
Qed.

(** ** Failure of [ingest_file] *)




(** C7 does not hold of the code.  A PDF of two pages, one chunk each:
    the chunker is called once per page and numbers from 0 each time, so
    both chunks of the document are stored with [sequence_index] 0.  A DOCX
    of two paragraphs: its chunks are built without a [sequence_index], and
    both rows take the column default 0. *)
Theorem sequence_index_restarts :
  (let db' := fst (@ingest_file sample_readers settings sample_uuid4 empty_db
                     (file "report.pdf" ".pdf") no_metadata) in
   List.map (fun d => (doc_id d, status d, chunk_count d)) (document_rows db')
   = [("id-0", INDEXED, 2%nat)]
   /\ List.map (fun c => (page_number c, stored_sequence_index c)) (chunks_of db' "id-0")
      = [(Some 1%nat, 0%nat); (Some 2%nat, 0%nat)])
  /\ (let db' := fst (@ingest_file sample_readers settings sample_uuid4 empty_db
                        (file "report.docx" ".docx") no_metadata) in
      List.map (fun d => (doc_id d, status d, chunk_count d)) (document_rows db')
      = [("id-0", INDEXED, 2%nat)]
      /\ List.map stored_sequence_index (chunks_of db' "id-0") = [0%nat; 0%nat]).
Proof. vm_compute. repeat split. Qed.

End IngestionFacts.

(* ===================================================================== *)
(** * Properties of the text primitives *)
(* ===================================================================== *)

Module TextFacts.
Import Text Tokenizer.

(** ** Strings as sequences *)

Lemma append_nil_r (s : string) : (s ++ EmptyString)%string = s.
Proof.
  induction s as [|c s IH]; [reflexivity|].
  change (String c (s ++ "") = String c s). rewrite IH. reflexivity.
Qed.

Lemma append_cons (c : ascii) (a b : string) : (String c a ++ b)%string = String c (a ++ b).
Proof. reflexivity. Qed.

Lemma string_app_assoc (a b c : string) : ((a ++ b) ++ c)%string = (a ++ (b ++ c))%string.
Proof.
  induction a as [|x a IH]; [reflexivity|].
  change (String x ((a ++ b) ++ c) = String x (a ++ (b ++ c))). rewrite IH. reflexivity.
Qed.

Lemma length_append (a b : string) :
  String.length (a ++ b) = (String.length a + String.length b)%nat.
Proof.
  induction a as [|x a IH]; [reflexivity|].
  change (S (String.length (a ++ b)) = S (String.length a + String.length b)).
  rewrite IH. reflexivity.
Qed.

Lemma all_chars_append (p : ascii -> bool) (a b : string) :
  all_chars p (a ++ b) = all_chars p a && all_chars p b.
Proof.
  induction a as [|x a IH]; [reflexivity|].
  change (p x && all_chars p (a ++ b) = p x && all_chars p a && all_chars p b).
  rewrite IH. apply andb_assoc.
Qed.

(** ** Prefixes and occurrences *)

Lemma prefix_iff (n h : string) : String.prefix n h = true <-> exists b, h = (n ++ b)%string.
Proof.
  revert h. induction n as [|c n IH]; intros h.
  - split; [intros _; exists h; reflexivity|intros _; destruct h; reflexivity].
  - destruct h as [|d h]; cbn [String.prefix].
    + split; [discriminate|intros [b Hb]; discriminate].
    + destruct (ascii_dec c d) as [->|Hne].
      * rewrite IH. split; intros [b Hb]; exists b.
        -- rewrite Hb. reflexivity.
        -- rewrite append_cons in Hb. injection Hb as Hb. exact Hb.
      * split; [discriminate|]. intros [b Hb]. rewrite append_cons in Hb.
        injection Hb as Hc _. congruence.
Qed.

Lemma contains_step (needle hay : string) :
  contains needle hay
  = String.prefix needle hay
    || match hay with EmptyString => false | String _ hay' => contains needle hay' end.
Proof. destruct hay; reflexivity. Qed.

(** [needle in hay] holds exactly when [hay] is [needle] between two strings. *)
Lemma contains_iff (n h : string) :
  contains n h = true <-> exists a b, h = (a ++ n ++ b)%string.
Proof.
  induction h as [|c h IH].
  - rewrite contains_step, orb_false_r, prefix_iff. split.
    + intros [b Hb]. exists EmptyString, b. exact Hb.
    + intros [a [b Hab]]. destruct a; [exists b; exact Hab|discriminate].
  - rewrite contains_step, orb_true_iff, prefix_iff, IH. split.
    + intros [[b Hb]|[a [b Hab]]].
      * exists EmptyString, b. exact Hb.
      * exists (String c a), b. rewrite Hab. reflexivity.
    + intros [a [b Hab]]. destruct a as [|d a].
      * left. exists b. exact Hab.
      * right. rewrite append_cons in Hab. injection Hab as _ Hab. exists a, b. exact Hab.
Qed.

Lemma contains_trans (a b c : string) :
  contains a b = true -> contains b c = true -> contains a c = true.
Proof.
  rewrite !contains_iff. intros [x [y ->]] [u [v ->]].
  exists (u ++ x)%string, (y ++ v)%string. rewrite !string_app_assoc. reflexivity.
Qed.

Lemma contains_length (n h : string) :
  contains n h = true -> (String.length n <= String.length h)%nat.
Proof.
  rewrite contains_iff. intros [a [b ->]]. rewrite !length_append. lia.
Qed.

(** ** [strip] *)

Lemma lstrip_split (s : string) :
  exists w, s = (w ++ lstrip s)%string /\ all_chars is_space w = true.
Proof.
  induction s as [|c s [w [Hw Hsp]]]; cbn [lstrip].
  - exists EmptyString. split; reflexivity.
  - destruct (is_space c) eqn:Hc.
    + exists (String c w). split; [rewrite append_cons, <- Hw; reflexivity|].
      cbn [all_chars]. rewrite Hc. exact Hsp.
    + exists EmptyString. split; reflexivity.
Qed.

Lemma rstrip_split (s : string) :
  exists w, s = (rstrip s ++ w)%string /\ all_chars is_space w = true.
Proof.
  induction s as [|c s [w [Hw Hsp]]]; cbn [rstrip].
  - exists EmptyString. split; reflexivity.
  - destruct (rstrip s) as [|d r] eqn:Hr.
    + destruct (is_space c) eqn:Hc.
      * exists (String c w). split; [rewrite Hw at 1; reflexivity|].
        cbn [all_chars]. rewrite Hc. exact Hsp.
      * exists w. rewrite Hw at 1. split; [reflexivity|exact Hsp].
    + exists w. rewrite Hw at 1. split; [reflexivity|exact Hsp].
Qed.

Lemma strip_occurs (s : string) : contains (strip s) s = true.
Proof.
  apply contains_iff. unfold strip.
  destruct (lstrip_split s) as [a [Ha _]]. destruct (rstrip_split (lstrip s)) as [b [Hb _]].
  exists a, b. rewrite <- Hb. exact Ha.
Qed.

Lemma lstrip_head (s : string) :
  match lstrip s with EmptyString => True | String c _ => is_space c = false end.
Proof.
  induction s as [|c s IH]; cbn [lstrip]; [exact I|].
  destruct (is_space c) eqn:Hc; [exact IH|exact Hc].
Qed.

Lemma rstrip_head (s : string) :
  match s with
  | EmptyString => rstrip s = EmptyString
  | String c _ => is_space c = false -> exists r, rstrip s = String c r
  end.
Proof.
  destruct s as [|c s]; [reflexivity|]. intros Hc. cbn [rstrip].
  destruct (rstrip s); [rewrite Hc|]; eauto.
Qed.

Lemma rstrip_idem (s : string) : rstrip (rstrip s) = rstrip s.
Proof.
  induction s as [|c s IH]; [reflexivity|]. cbn [rstrip].
  destruct (rstrip s) as [|d r] eqn:Hr.
  - destruct (is_space c) eqn:Hc; [reflexivity|]. cbn [rstrip]. rewrite Hc. reflexivity.
  - cbn [rstrip] in IH |- *. destruct (rstrip r) as [|e r'] eqn:Hr'.
    + destruct (is_space d) eqn:Hd; [discriminate|]. rewrite IH. reflexivity.
    + rewrite IH. reflexivity.
Qed.

(** A stripped string is left as it is by [strip]. *)
Lemma strip_idem (s : string) : strip (strip s) = strip s.
Proof.
  unfold strip.
  assert (Hl : lstrip (rstrip (lstrip s)) = rstrip (lstrip s)).
  { pose proof (lstrip_head s) as Hh. pose proof (rstrip_head (lstrip s)) as Hr.
    destruct (lstrip s) as [|c t]; [reflexivity|].
    destruct (Hr Hh) as [r ->]. cbn [lstrip]. rewrite Hh. reflexivity. }
  rewrite Hl. apply rstrip_idem.
Qed.

Lemma all_chars_occurs (p : ascii -> bool) (n h : string) :
  contains n h = true -> all_chars p h = true -> all_chars p n = true.
Proof.
  rewrite contains_iff. intros [a [b ->]].
  rewrite !all_chars_append, !andb_true_iff. intros [_ [Hn _]]. exact Hn.
Qed.

(** ** [s[:n]] *)

Lemma substring_0_length (n : nat) (s : string) :
  String.length (String.substring 0 n s) = Nat.min n (String.length s).
Proof.
  revert s. induction n as [|n IH]; intros [|c s]; cbn; try reflexivity.
  rewrite IH. reflexivity.
Qed.

Lemma take_length (n : nat) (s : string) : String.length (take n s) = Nat.min n (String.length s).
Proof. apply substring_0_length. Qed.

(** ** [span] *)

Lemma span_split (p : ascii -> bool) (s : string) :
  s = (fst (span p s) ++ snd (span p s))%string
  /\ all_chars p (fst (span p s)) = true
  /\ match snd (span p s) with EmptyString => True | String c _ => p c = false end.
Proof.
  induction s as [|c s [Hs [Hp Hrest]]]; cbn [span]; [repeat split|].
  destruct (p c) eqn:Hc.
  - destruct (span p s) as [a b]. cbn [fst snd] in *. split; [rewrite Hs at 1; reflexivity|].
    split; [cbn [all_chars]; rewrite Hc; exact Hp|exact Hrest].
  - cbn [fst snd]. repeat split. exact Hc.
Qed.

End TextFacts.

(* ===================================================================== *)
(** * Maintenance of the vector index *)
(* ===================================================================== *)

Module IndexMaintenance.
Import Text Config Embedding VectorIndex Samples VectorIndexSpec.
Local Open Scope list_scope.

(** ** Removal, entry by entry *)

Lemma gather_kept {A B} (q : A -> bool) (ids : list A) : forall (vs pre : list B) (k : nat),
  List.length vs = List.length ids -> List.length pre = k ->
  gather (pre ++ vs)
    (List.map fst
       (List.filter (fun p => q (snd p)) (List.combine (List.seq k (List.length ids)) ids)))
  = Some (List.map snd (List.filter (fun e => q (fst e)) (List.combine ids vs))).
Proof.
  induction ids as [|a ids IH]; intros vs pre k Hlen Hpre; [reflexivity|].
  destruct vs as [|v vs]; [discriminate|].
  cbn [List.length List.seq List.combine List.filter fst snd].
  injection Hlen as Hlen.
  assert (Hrest := IH vs (pre ++ [v]) (S k) Hlen).
  rewrite <- app_assoc in Hrest. cbn [app] in Hrest.
  specialize (Hrest ltac:(rewrite length_app; cbn; lia)).
  destruct (q a); cbn [List.map fst snd gather]; rewrite Hrest; [|reflexivity].
  rewrite nth_error_app2 by lia.
  replace (k - List.length pre) with 0 by lia. reflexivity.
Qed.

Lemma gather_kept_ids {A} (q : A -> bool) (ids : list A) : forall (pre : list A) (k : nat),
  List.length pre = k ->
  gather (pre ++ ids)
    (List.map fst
       (List.filter (fun p => q (snd p)) (List.combine (List.seq k (List.length ids)) ids)))
  = Some (List.filter q ids).
Proof.
  induction ids as [|a ids IH]; intros pre k Hpre; [reflexivity|].
  cbn [List.length List.seq List.combine List.filter fst snd].
  assert (Hrest := IH (pre ++ [a]) (S k)).
  rewrite <- app_assoc in Hrest. cbn [app] in Hrest.
  specialize (Hrest ltac:(rewrite length_app; cbn; lia)).
  destruct (q a); cbn [List.map fst snd gather]; rewrite Hrest; [|reflexivity].
  rewrite nth_error_app2 by lia.
  replace (k - List.length pre) with 0 by lia. reflexivity.
Qed.

Lemma filter_combine_fst {A B} (q : A -> bool) (ids : list A) : forall (vs : list B),
  List.length vs = List.length ids ->
  List.map fst (List.filter (fun e => q (fst e)) (List.combine ids vs)) = List.filter q ids.
Proof.
  induction ids as [|a ids IH]; intros [|v vs] Hlen; try discriminate; [reflexivity|].
  cbn [List.combine List.filter fst]. injection Hlen as Hlen.
  destruct (q a); cbn [List.map fst]; rewrite IH by exact Hlen; reflexivity.
Qed.

Lemma filter_all_length {A} (q : A -> bool) (l : list A) :
  List.length (List.filter q l) = List.length l -> List.filter q l = l.
Proof.
  induction l as [|a l IH]; [reflexivity|]. cbn [List.filter].
  destruct (q a); cbn [List.length]; intros Hlen.
  - f_equal. apply IH. lia.
  - pose proof (List.filter_length_le q l). lia.
Qed.

Lemma combine_split_eq {A B} (l : list (A * B)) :
  List.combine (List.map fst l) (List.map snd l) = l.
Proof.
  induction l as [|[a b] l IH]; [reflexivity|]. cbn. rewrite IH. reflexivity.
Qed.

Lemma kept_indices_length (to_remove ids : list string) k :
  List.length
    (List.map fst
       (List.filter (fun p => negb (str_in (snd p) to_remove))
          (List.combine (List.seq k (List.length ids)) ids)))
  = List.length (List.filter (fun i => negb (str_in i to_remove)) ids).
Proof.
  rewrite length_map. revert k.
  induction ids as [|a ids IH]; intros k; [reflexivity|].
  cbn [List.length List.seq List.combine List.filter snd].
  destruct (negb (str_in a to_remove)); cbn [List.length]; rewrite IH; reflexivity.
Qed.

(** The state [remove_chunks] leaves, in terms of the entries. *)
Lemma remove_chunks_entries svc to_remove :
  aligned svc ->
  exists svc',
    remove_chunks svc to_remove = Some svc'
    /\ entries svc' = List.filter (kept to_remove) (entries svc)
    /\ chunk_ids svc' = List.filter (fun i => negb (str_in i to_remove)) (chunk_ids svc)
    /\ aligned svc'.
Proof.
  intros Hal. unfold aligned, ntotal in Hal.
  unfold remove_chunks, enumerate, entries.
  set (q := fun i : string => negb (str_in i to_remove)).
  pose proof (kept_indices_length to_remove (chunk_ids svc) 0) as Hlen.
  fold q in Hlen.
  change (kept to_remove) with (fun e : string * vec => q (fst e)).
  change (fun p : nat * string => negb (str_in (snd p) to_remove))
    with (fun p : nat * string => q (snd p)) in *.
  pose proof (gather_kept q (chunk_ids svc) (index svc) [] 0 Hal eq_refl) as Hv.
  pose proof (gather_kept_ids q (chunk_ids svc) [] 0 eq_refl) as Hi.
  cbn [app] in Hv, Hi.
  set (keep := List.map fst _) in *.
  assert (Hfst := filter_combine_fst q (chunk_ids svc) (index svc) Hal).
  set (ents := List.filter (fun e : string * vec => q (fst e)) _) in *.
  destruct (Nat.eqb_spec (List.length keep) (List.length (chunk_ids svc))) as [Hall|Hsome].
  - exists svc. rewrite Hlen in Hall. apply filter_all_length in Hall.
    split; [reflexivity|].
    assert (Hent : ents = List.combine (chunk_ids svc) (index svc)).
    { apply filter_all_length. fold ents.
      apply (f_equal (@List.length _)) in Hfst. rewrite length_map in Hfst.
      rewrite Hfst, Hall, length_combine. lia. }
    rewrite Hent, Hall. repeat split. exact Hal.
  - destruct keep as [|k0 keep'] eqn:Hkeep.
    + exists create_index. cbn [is_nil negb]. split; [reflexivity|].
      cbn [List.length] in Hlen. symmetry in Hlen. apply length_zero_iff_nil in Hlen.
      rewrite Hlen in *. split; [|split; [reflexivity|reflexivity]].
      cbn [create_index chunk_ids index List.combine].
      symmetry. apply (f_equal (@List.length _)) in Hfst. rewrite length_map in Hfst.
      apply length_zero_iff_nil in Hfst. exact Hfst.
    + cbn [is_nil negb]. rewrite Hv, Hi.
      eexists. split; [reflexivity|].
      cbn [chunk_ids index].
      rewrite <- Hfst. rewrite combine_split_eq.
      split; [reflexivity|]. split; [reflexivity|].
      unfold aligned, ntotal. cbn [chunk_ids index]. rewrite !length_map. reflexivity.
Qed.

Lemma filter_kept_in (to_remove : list string) (ids : list string) cid :
  In cid (List.filter (fun i => negb (str_in i to_remove)) ids)
  <-> In cid ids /\ ~ In cid to_remove.
Proof.
  rewrite List.filter_In, negb_true_iff.
  split; intros [Hin Hout]; split; try exact Hin.
  - intros Hr. apply RetrievalFacts.str_in_spec in Hr. congruence.
  - destruct (str_in cid to_remove) eqn:E; [|reflexivity].
    apply RetrievalFacts.str_in_spec in E. contradiction.
Qed.

Lemma map_snd_combine {A B} (a : list A) : forall (b : list B),
  List.length a = List.length b -> List.map snd (List.combine a b) = b.
Proof.
  induction a as [|x a IH]; intros [|y b] Hlen; try discriminate; [reflexivity|].
  cbn. rewrite IH by (injection Hlen; auto). reflexivity.
Qed.

(** X1.  On an aligned index, [remove_chunks] succeeds and removes exactly
    the entries whose chunk id is in the list given: the entries left are
    the others, in their order and each with its own vector; the ids left
    are those of the index that are not in the list; as many vectors go as
    ids; and the index stays aligned. *)
Theorem remove_chunks_exact (svc : VectorIndexService) (to_remove : list string) :
  aligned svc ->
  exists svc',
    remove_chunks svc to_remove = Some svc'
    /\ entries svc' = List.filter (kept to_remove) (entries svc)
    /\ (forall cid, In cid (chunk_ids svc')
                    <-> In cid (chunk_ids svc) /\ ~ In cid to_remove)
    /\ ntotal svc' = List.length (chunk_ids svc')
    /\ (ntotal svc' <= ntotal svc)%nat.
Proof.
  intros Hal.
  destruct (remove_chunks_entries svc to_remove Hal) as [svc' [Hrun [Hent [Hids Hal']]]].
  exists svc'. split; [exact Hrun|]. split; [exact Hent|].
  split; [|split; [exact Hal'|]].
  - intros cid. rewrite Hids. apply filter_kept_in.
  - unfold aligned in Hal, Hal'. rewrite Hal', Hal, Hids. apply List.filter_length_le.
Qed.

Lemma remove_chunks_exact_witness :
  aligned tie_index
  /\ exists svc',
       remove_chunks tie_index ["a"] = Some svc'
       /\ chunk_ids svc' = ["b"]
       /\ ntotal svc' = 1%nat.
Proof.
  assert (Hal : aligned tie_index) by reflexivity.
  split; [exact Hal|].
  destruct (remove_chunks_exact tie_index ["a"] Hal) as [svc' [Hrun [_ [_ [_ _]]]]].
  exists svc'. split; [exact Hrun|].
  vm_compute in Hrun. injection Hrun as <-. split; reflexivity.
Defined.

(** X2.  After [remove_chunks], [search] never returns a removed chunk:
    every hit is a chunk id the index held before and that was not in the
    list removed. *)
Theorem search_skips_removed `{EmbeddingModel} `{FlatIndex} (cfg : Settings)
    (svc svc' : VectorIndexService) (to_remove : list string)
    (query : string) (top_k : nat) (cid : string) (score : Q) :
  aligned svc ->
  remove_chunks svc to_remove = Some svc' ->
  In (cid, score) (search cfg svc' query top_k) ->
  In cid (chunk_ids svc) /\ ~ In cid to_remove.
Proof.
  intros Hal Hrun Hin.
  destruct (remove_chunks_entries svc to_remove Hal) as [svc2 [Hrun2 [_ [Hids _]]]].
  rewrite Hrun in Hrun2. injection Hrun2 as <-.
  apply VectorIndexFacts.search_returns_mapped_ids in Hin.
  rewrite Hids in Hin. apply filter_kept_in in Hin. exact Hin.
Qed.

Lemma search_skips_removed_witness :
  let svc' := {| index := [[(4 # 10)%Q]]; chunk_ids := ["b"] |} in
  aligned tie_index
  /\ remove_chunks tie_index ["a"] = Some svc'
  /\ In ("b", (20 # 100)%Q) (@search length_embedding exact_search settings svc' "zebra" 5)
  /\ In "b" (chunk_ids tie_index) /\ ~ In "a" ["b"].
Proof.
  intros svc'.
  assert (Hal : aligned tie_index) by reflexivity.
  assert (Hrun : remove_chunks tie_index ["a"] = Some svc') by (vm_compute; reflexivity).
  assert (Hin : In ("b", (20 # 100)%Q)
                  (@search length_embedding exact_search settings svc' "zebra" 5))
    by (vm_compute; left; reflexivity).
  split; [exact Hal|]. split; [exact Hrun|]. split; [exact Hin|].
  destruct (@search_skips_removed length_embedding exact_search settings tie_index svc'
              ["a"] "zebra" 5 "b" (20 # 100)%Q Hal Hrun Hin) as [Hb _].
  split; [exact Hb|]. intros [E|[]]. discriminate.
Defined.

Lemma filter_fresh (ids old : list string) :
  (forall i, In i ids -> ~ In i old) ->
  List.filter (fun i => negb (str_in i ids)) (old ++ ids) = old.
Proof.
  intros Hfresh. rewrite List.filter_app.
  assert (H1 : List.filter (fun i => negb (str_in i ids)) old = old).
  { apply forallb_filter_id. apply forallb_forall. intros x Hx.
    apply negb_true_iff. destruct (str_in x ids) eqn:E; [|reflexivity].
    apply RetrievalFacts.str_in_spec in E. exfalso. apply (Hfresh x E Hx). }
  assert (H2 : List.filter (fun i => negb (str_in i ids)) ids = []).
  { clear. set (all := ids) at 1. assert (Hsub : forall x, In x ids -> In x all) by auto.
    clearbody all. induction ids as [|a ids IH]; [reflexivity|].
    cbn [List.filter].
    assert (E : str_in a all = true).
    { apply RetrievalFacts.str_in_spec. apply Hsub. left. reflexivity. }
    rewrite E. cbn [negb]. apply IH. intros x Hx. apply Hsub. right. exact Hx. }
  rewrite H1, H2. apply app_nil_r.
Qed.

Lemma filter_kept_fresh (ids old : list string) (vs : list vec) (ws : list vec) :
  List.length old = List.length vs ->
  (forall i, In i ids -> ~ In i old) ->
  List.filter (kept ids) (List.combine (old ++ ids) (vs ++ ws)) = List.combine old vs.
Proof.
  intros Hlen Hfresh. revert vs Hlen.
  induction old as [|a old IH]; intros [|v vs] Hlen; try discriminate.
  - cbn [app List.combine]. clear.
    set (all := ids) at 1. assert (Hsub : forall x, In x ids -> In x all) by auto.
    clearbody all. revert ws.
    induction ids as [|a ids IH]; intros [|w ws]; try reflexivity.
    cbn [List.combine List.filter]. unfold kept at 1. cbn [fst].
    assert (E : str_in a all = true).
    { apply RetrievalFacts.str_in_spec. apply Hsub. left. reflexivity. }
    rewrite E. cbn [negb]. apply IH. intros x Hx. apply Hsub. right. exact Hx.
  - cbn [app List.combine List.filter]. unfold kept at 1. cbn [fst].
    assert (E : str_in a ids = false).
    { destruct (str_in a ids) eqn:E; [|reflexivity].
      apply RetrievalFacts.str_in_spec in E. exfalso. apply (Hfresh a E). left. reflexivity. }
    rewrite E. cbn [negb]. f_equal. apply IH.
    + intros i Hi Hold. apply (Hfresh i Hi). right. exact Hold.
    + injection Hlen; auto.
Qed.

(** X3.  Adding chunks under ids the index does not hold yet and removing
    those ids again gives the index back as it was: the vectors and the ids
    held before are untouched by the round trip. *)
Theorem add_then_remove `{EmbeddingModel} (cfg : Settings) (svc : VectorIndexService)
    (ids contents : list string) :
  aligned svc ->
  List.length ids = List.length contents ->
  (forall i, In i ids -> ~ In i (chunk_ids svc)) ->
  remove_chunks (add_chunks cfg svc ids contents) ids = Some svc.
Proof.
  intros Hal Hlen Hfresh.
  assert (Hal2 : aligned (add_chunks cfg svc ids contents))
    by (apply VectorIndexFacts.add_chunks_aligned; assumption).
  destruct (remove_chunks_entries _ ids Hal2) as [svc' [Hrun [Hent [Hids Hal']]]].
  rewrite Hrun. f_equal.
  unfold aligned, ntotal in Hal, Hal'.
  assert (Hids' : chunk_ids svc' = chunk_ids svc
                  /\ List.combine (chunk_ids svc') (index svc')
                     = List.combine (chunk_ids svc) (index svc)).
  { unfold entries, add_chunks in *.
    destruct (is_nil ids || is_nil contents) eqn:Hnil.
    - assert (Hids0 : ids = []).
      { destruct ids, contents; try discriminate; reflexivity. }
      subst ids. cbn [List.filter str_in List.existsb negb] in Hids.
      split.
      + rewrite Hids. apply forallb_filter_id. apply forallb_forall. reflexivity.
      + rewrite Hent. apply forallb_filter_id. apply forallb_forall. reflexivity.
    - cbn [chunk_ids index] in Hids, Hent.
      split.
      + rewrite Hids. apply filter_fresh. exact Hfresh.
      + rewrite Hent. apply filter_kept_fresh; [symmetry; exact Hal|exact Hfresh]. }
  destruct Hids' as [Hc Hcomb].
  assert (Hidx : index svc' = index svc).
  { rewrite <- (map_snd_combine (chunk_ids svc') (index svc')) by (symmetry; exact Hal').
    rewrite Hcomb. apply map_snd_combine. symmetry. exact Hal. }
  clear - Hc Hidx. destruct svc as [vs cs], svc' as [vs' cs'].
  cbn [index chunk_ids] in Hc, Hidx. rewrite Hc, Hidx. reflexivity.
Qed.

Lemma add_then_remove_witness :
  aligned tie_index
  /\ List.length ["c"] = List.length ["gamma"]
  /\ (forall i, In i ["c"] -> ~ In i (chunk_ids tie_index))
  /\ remove_chunks (@add_chunks length_embedding settings tie_index ["c"] ["gamma"]) ["c"]
     = Some tie_index.
Proof.
  assert (Hal : aligned tie_index) by reflexivity.
  assert (Hlen : List.length ["c"] = List.length ["gamma"]) by reflexivity.
  assert (Hfresh : forall i, In i ["c"] -> ~ In i (chunk_ids tie_index)).
  { intros i [<-|[]] Hin. vm_compute in Hin.
    destruct Hin as [E|[E|[]]]; discriminate. }
  split; [exact Hal|]. split; [exact Hlen|]. split; [exact Hfresh|].
  exact (@add_then_remove length_embedding settings tie_index ["c"] ["gamma"]
           Hal Hlen Hfresh).
Defined.

(** ** The batch embedding, row by row *)

Lemma fold_insert_rows {A} (h : nat -> A) (d : A) (idxs : list nat) :
  forall (pre : list A) (k : nat) (r : list A),
    List.length pre = k ->
    List.fold_left
      (fun result p => <[snd p := List.nth (fst p) (pre ++ List.map h idxs) d]> result)
      (List.combine (List.seq k (List.length idxs)) idxs) r
    = List.fold_left (fun result i => <[i := h i]> result) idxs r.
Proof.
  induction idxs as [|i idxs IH]; intros pre k r Hpre; [reflexivity|].
  cbn [List.length List.seq List.combine List.fold_left List.map fst snd].
  rewrite app_nth2 by lia. replace (k - List.length pre)%nat with 0%nat by lia.
  cbn [List.nth].
  specialize (IH (pre ++ [h i]) (S k) (<[i := h i]> r)).
  rewrite <- app_assoc in IH. cbn [app] in IH.
  apply IH. rewrite length_app. cbn. lia.
Qed.

Lemma fold_insert_lookup_rows {A} (h : nat -> A) (idxs : list nat) : forall (r : list A) (i : nat),
  List.fold_left (fun result i => <[i := h i]> result) idxs r !! i
  = if bool_decide (i ∈ idxs) then (fun _ => h i) <$> (r !! i) else r !! i.
Proof.
  induction idxs as [|j idxs IH]; intros r i.
  - cbn [List.fold_left]. rewrite bool_decide_eq_false_2 by (apply not_elem_of_nil).
    reflexivity.
  - cbn [List.fold_left]. rewrite IH.
    destruct (decide (i = j)) as [->|Hne].
    + rewrite (bool_decide_eq_true_2 (j ∈ j :: idxs)) by (apply elem_of_cons; left; reflexivity).
      destruct (decide (j < List.length r)%nat) as [Hlt|Hge].
      * rewrite list_lookup_insert_eq by exact Hlt.
        destruct (lookup_lt_is_Some_2 r j Hlt) as [x Hx]. rewrite Hx.
        destruct (bool_decide (j ∈ idxs)); reflexivity.
      * rewrite list_insert_ge by lia.
        assert (Hnone : r !! j = None) by (apply lookup_ge_None_2; lia).
        rewrite Hnone. destruct (bool_decide (j ∈ idxs)); reflexivity.
    + rewrite list_lookup_insert_ne by congruence.
      destruct (decide (i ∈ idxs)) as [Hin|Hout].
      * rewrite !bool_decide_eq_true_2;
          [reflexivity|apply elem_of_cons; right; exact Hin|exact Hin].
      * rewrite !bool_decide_eq_false_2; [reflexivity| |exact Hout].
        intros Hin. apply elem_of_cons in Hin. destruct Hin as [E|Hin]; [congruence|contradiction].
Qed.

Lemma in_enumerate_from {A} (l : list A) : forall (k j : nat) (t : A),
  In (j, t) (List.combine (List.seq k (List.length l)) l)
  <-> (k <= j)%nat /\ l !! (j - k)%nat = Some t.
Proof.
  induction l as [|a l IH]; intros k j t.
  - cbn. split; [intros []|intros [_ Hl]; discriminate].
  - cbn [List.length List.seq List.combine In]. rewrite IH. split.
    + intros [E|[Hle Hl]].
      * injection E as <- <-. split; [lia|]. rewrite Nat.sub_diag. reflexivity.
      * split; [lia|]. replace (j - k)%nat with (S (j - S k)) by lia. exact Hl.
    + intros [Hle Hl]. destruct (decide (j = k)) as [->|Hne].
      * left. rewrite Nat.sub_diag in Hl. cbn in Hl. congruence.
      * right. split; [lia|]. replace (j - k)%nat with (S (j - S k)) in Hl by lia.
        exact Hl.
Qed.

Lemma valid_index_in (q : string -> bool) (texts : list string) (i : nat) :
  In i (List.map fst (List.filter (fun p => q (snd p)) (enumerate texts)))
  <-> exists t, texts !! i = Some t /\ q t = true.
Proof.
  unfold enumerate. rewrite in_map_iff. split.
  - intros [[j t] [Hj Hin]]. cbn in Hj. subst j.
    apply List.filter_In in Hin. destruct Hin as [Hin Hq]. cbn in Hq.
    apply in_enumerate_from in Hin. destruct Hin as [_ Hl].
    rewrite Nat.sub_0_r in Hl. exists t. split; assumption.
  - intros [t [Ht Hq]]. exists (i, t). split; [reflexivity|].
    apply List.filter_In. split; [|exact Hq].
    apply in_enumerate_from. split; [lia|]. rewrite Nat.sub_0_r. exact Ht.
Qed.

Lemma lookup_repeat {A} (x : A) (n i : nat) :
  List.repeat x n !! i = if decide (i < n)%nat then Some x else None.
Proof.
  revert i. induction n as [|n IH]; intros [|i]; cbn [List.repeat]; try reflexivity.
  - cbn. rewrite IH. destruct (decide (i < n)%nat), (decide (S i < S n)%nat);
      try reflexivity; lia.
Qed.

(** X4.  [embed_batch] agrees with [embed_text] text by text: the row it
    returns for a text is the embedding [embed_text] gives for that text,
    a row of zeros for a text that strips to nothing; the batch has one row
    per text. *)
Theorem embed_batch_by_text `{EmbeddingModel} (cfg : Settings) (texts : list string) :
  embed_batch_rows cfg texts = List.map (embed_text cfg) texts
  /\ embed_batch_rows cfg texts = embed_batch cfg texts
  /\ List.length (embed_batch_rows cfg texts) = List.length texts.
Proof.
  assert (Hmain : embed_batch_rows cfg texts = List.map (embed_text cfg) texts).
  { unfold embed_batch_rows. destruct (is_nil texts) eqn:Hempty.
    { destruct texts; [reflexivity|discriminate]. }
    clear Hempty.
    set (q := fun t : string => nonempty (strip t)).
    change (fun p : nat * string => nonempty (strip (snd p)))
      with (fun p : nat * string => q (snd p)).
    set (idxs := List.map fst _).
    set (h := fun i : nat => encode (List.nth i texts EmptyString)).
    set (zero_rows := List.repeat (zeros (EMBEDDING_DIMENSION cfg)) (List.length texts)).
    assert (Hfold :
      List.fold_left (fun result i => <[i := h i]> result) idxs zero_rows
      = List.map (embed_text cfg) texts).
    { apply list_eq. intros i. rewrite fold_insert_lookup_rows.
      rewrite list_lookup_fmap. unfold zero_rows.
      destruct (texts !! i) as [t|] eqn:Ht.
      - pose proof (lookup_lt_Some _ _ _ Ht) as Hlt.
        rewrite lookup_repeat. destruct (decide (i < List.length texts)%nat); [|lia].
        cbn [fmap option_fmap option_map]. unfold embed_text. fold (q t).
        destruct (q t) eqn:Hq.
        + rewrite bool_decide_eq_true_2
            by (apply list_elem_of_In, valid_index_in; exists t; auto).
          cbn. unfold h. f_equal. f_equal.
          apply nth_lookup_Some with (d := EmptyString) in Ht. exact Ht.
        + rewrite bool_decide_eq_false_2; [reflexivity|].
          intros Hin. apply list_elem_of_In, valid_index_in in Hin.
          destruct Hin as [t' [Ht' Hq']].
          congruence.
      - pose proof (lookup_ge_None_1 _ _ Ht) as Hge.
        rewrite lookup_repeat. destruct (decide (i < List.length texts)%nat); [lia|].
        destruct (bool_decide _); reflexivity. }
    destruct (is_nil (List.map (fun i => List.nth i texts EmptyString) idxs)) eqn:Hnil.
    - assert (Hidxs : idxs = []).
      { destruct idxs; [reflexivity|discriminate]. }
      rewrite Hidxs in Hfold. exact Hfold.
    - rewrite List.map_map. fold h.
      unfold enumerate.
      pose proof (fold_insert_rows h [] idxs [] 0 zero_rows eq_refl) as Hrows.
      cbn [app] in Hrows. rewrite Hrows. exact Hfold. }
  split; [exact Hmain|]. split.
  - rewrite Hmain. reflexivity.
  - rewrite Hmain. apply length_map.
Qed.

End IndexMaintenance.

(* ===================================================================== *)
(** * Guarantees of the retrieval engine *)
(* ===================================================================== *)

Module RetrievalGuarantees.
Import Text Config Models Database Embedding VectorIndex Retrieval Samples RetrievalSpec.
Import Tokenizer TextFacts RetrievalFacts.
Local Open Scope list_scope.

(** ** The terms of a query *)

Lemma all_chars_weaken (p q : ascii -> bool) s :
  (forall c, p c = true -> q c = true) -> all_chars p s = true -> all_chars q s = true.
Proof.
  intros Hpq. induction s as [|c s IH]; [reflexivity|]. cbn [all_chars].
  rewrite !andb_true_iff. intros [Hc Hs]. split; [apply Hpq; exact Hc|apply IH; exact Hs].
Qed.

Lemma word_runs_chars (p : ascii -> bool) s :
  all_chars p s = true ->
  Forall (fun r => all_chars (fun c => is_word c && p c) r = true) (word_runs s).
Proof.
  induction s as [|c s IH]; cbn [all_chars word_runs].
  - intros _. constructor; [reflexivity|constructor].
  - rewrite andb_true_iff. intros [Hc Hs]. specialize (IH Hs).
    destruct (is_word c) eqn:Hw.
    + destruct (word_runs s) as [|r rs]; cbn [push].
      * constructor; [|constructor]. cbn [all_chars]. rewrite Hw, Hc. reflexivity.
      * inversion IH as [|? ? Hr Hrs]; subst. constructor; [|exact Hrs].
        cbn [all_chars]. rewrite Hw, Hc, Hr. reflexivity.
    + constructor; [reflexivity|exact IH].
Qed.

Lemma lower_char_not_upper c : is_upper (lower_char c) = false.
Proof. destruct c as [[] [] [] [] [] [] [] []]; reflexivity. Qed.

Lemma lower_no_capital s : all_chars (fun c => negb (is_upper c)) (lower s) = true.
Proof.
  induction s as [|c s IH]; [reflexivity|].
  cbn [lower map_string all_chars]. rewrite lower_char_not_upper. exact IH.
Qed.

Lemma lower_fixed s : all_chars (fun c => negb (is_upper c)) s = true -> lower s = s.
Proof.
  induction s as [|c s IH]; [reflexivity|]. cbn [all_chars lower map_string].
  rewrite andb_true_iff, negb_true_iff. intros [Hc Hs].
  unfold lower_char. rewrite Hc. f_equal. apply IH. exact Hs.
Qed.

Lemma contains_prefix needle hay : String.prefix needle hay = true -> contains needle hay = true.
Proof. intros Hp. rewrite contains_step, Hp. reflexivity. Qed.

Lemma contains_later needle c hay :
  contains needle hay = true -> contains needle (String c hay) = true.
Proof. intros Hc. rewrite contains_step, Hc. apply orb_true_r. Qed.

Lemma prefix_cons c a b : String.prefix (String c a) (String c b) = String.prefix a b.
Proof. cbn [String.prefix]. destruct (ascii_dec c c); [reflexivity|contradiction]. Qed.

(** The first run is a prefix of the text and every other run occurs in it. *)
Lemma word_runs_occur s :
  exists r rs, word_runs s = r :: rs
               /\ String.prefix r s = true
               /\ Forall (fun x => contains x s = true) rs.
Proof.
  induction s as [|c s [r [rs [Hruns [Hr Hrs]]]]]; cbn [word_runs].
  - exists EmptyString, []. repeat split. constructor.
  - rewrite Hruns. destruct (is_word c); cbn [push].
    + exists (String c r), rs. split; [reflexivity|]. split.
      * rewrite prefix_cons. exact Hr.
      * eapply List.Forall_impl; [|exact Hrs]. intros x Hx. apply contains_later. exact Hx.
    + exists EmptyString, (r :: rs). split; [reflexivity|]. split; [reflexivity|].
      constructor.
      * apply contains_later, contains_prefix. exact Hr.
      * eapply List.Forall_impl; [|exact Hrs]. intros x Hx. apply contains_later. exact Hx.
Qed.

Lemma findall_words_occur s w : In w (findall_words s) -> contains w s = true.
Proof.
  unfold findall_words. rewrite List.filter_In. intros [Hin _].
  destruct (word_runs_occur s) as [r [rs [Hruns [Hr Hrs]]]]. rewrite Hruns in Hin.
  destruct Hin as [<-|Hin]; [apply contains_prefix; exact Hr|].
  rewrite List.Forall_forall in Hrs. apply Hrs. exact Hin.
Qed.

(** X5.  Every term [_extract_query_terms] returns has more than two
    characters, is not one of the stop words, is made of word characters
    none of which is a capital (lowering it changes nothing), and occurs in
    the lowercased query. *)
Theorem query_terms_shape (query t : string) :
  In t (_extract_query_terms query) ->
  (2 < String.length t)%nat
  /\ ~ In t stopwords
  /\ all_chars is_term_char t = true
  /\ lower t = t
  /\ contains t (lower query) = true.
Proof.
  unfold _extract_query_terms. rewrite List.filter_In, andb_true_iff, negb_true_iff.
  intros [Hin [Hstop Hlen]].
  assert (Hchars : all_chars is_term_char t = true).
  { pose proof (word_runs_chars _ _ (lower_no_capital query)) as Hruns.
    rewrite List.Forall_forall in Hruns. apply Hruns.
    unfold findall_words in Hin. apply List.filter_In in Hin. apply Hin. }
  split; [apply Nat.ltb_lt; exact Hlen|]. split; [|split; [exact Hchars|split]].
  - intros Hs. apply str_in_spec in Hs. congruence.
  - apply lower_fixed. eapply all_chars_weaken; [|exact Hchars].
    intros c. unfold is_term_char. rewrite andb_true_iff. intros [_ Hc]. exact Hc.
  - apply findall_words_occur. exact Hin.
Qed.

Lemma query_terms_shape_witness :
  In "paris" (_extract_query_terms "What is PARIS?")
  /\ (2 < String.length "paris")%nat
  /\ ~ In "paris" stopwords
  /\ lower "paris" = "paris"
  /\ contains "paris" (lower "What is PARIS?") = true.
Proof.
  assert (Hin : In "paris" (_extract_query_terms "What is PARIS?"))
    by (vm_compute; left; reflexivity).
  destruct (query_terms_shape "What is PARIS?" "paris" Hin) as [H1 [H2 [_ [H3 H4]]]].
  repeat split; assumption.
Defined.

(** ** The merged candidates *)

Lemma fold_max_ge (l : list Q) : forall a,
  (a <= List.fold_left Qmax l a)%Q
  /\ forall x, In x l -> (x <= List.fold_left Qmax l a)%Q.
Proof.
  induction l as [|y l IH]; intros a; cbn [List.fold_left].
  - split; [apply Qle_refl|intros x []].
  - destruct (IH (Qmax a y)) as [Ha Hl]. split.
    + eapply Qle_trans; [apply Q.le_max_l|exact Ha].
    + intros x [<-|Hx]; [|apply Hl; exact Hx].
      eapply Qle_trans; [apply Q.le_max_r|exact Ha].
Qed.

Lemma max_of_ge (l : list Q) x : In x l -> (x <= Retrieval.max_of l)%Q.
Proof.
  destruct l as [|a l]; [intros []|]. cbn [Retrieval.max_of].
  destruct (fold_max_ge l a) as [Ha Hl]. intros [<-|Hx]; [exact Ha|apply Hl; exact Hx].
Qed.

Lemma bm25_search_nonneg db terms limit k v :
  _bm25_search db terms limit !! k = Some v -> (0 <= v)%Q.
Proof.
  unfold _bm25_search. destruct (is_nil terms); [rewrite lookup_empty; discriminate|].
  destruct (fts_bm25 db _ limit) as [rows|]; [|rewrite lookup_empty; discriminate].
  rewrite dict_of_pairs_lookup.
  destruct (List.find _ _) as [p|] eqn:Hfind; [|discriminate].
  cbn. intros E. injection E as <-.
  apply List.find_some in Hfind. destruct Hfind as [Hin _].
  apply in_rev, in_map_iff in Hin. destruct Hin as [row [<- _]]. cbn [snd].
  apply Qabs_nonneg.
Qed.

Lemma merge_dense_lookup dense : forall m k sc,
  List.fold_left set_dense dense m !! k = Some sc ->
  s_bm25 sc = s_bm25 (scores_of m k)
  /\ ((m !! k = Some sc /\ ~ In k (List.map fst dense))
      \/ exists s, In (k, s) dense /\ s_dense sc = s).
Proof.
  induction dense as [|[k0 s0] dense IH]; intros m k sc Hl; cbn [List.fold_left] in Hl.
  - split; [unfold scores_of; rewrite Hl; reflexivity|]. left. split; [exact Hl|intros []].
  - apply IH in Hl. destruct Hl as [Hb Hd]. unfold set_dense in Hb, Hd. cbn [fst snd] in Hb, Hd.
    destruct (decide (k0 = k)) as [->|Hne].
    + unfold scores_of in Hb at 1. rewrite lookup_insert_eq in Hb. cbn [s_bm25] in Hb.
      split; [exact Hb|]. right.
      destruct Hd as [[Hm _]|[s [Hin Hs]]].
      * rewrite lookup_insert_eq in Hm. injection Hm as <-. exists s0.
        split; [left; reflexivity|reflexivity].
      * exists s. split; [right; exact Hin|exact Hs].
    + unfold scores_of in Hb at 1. rewrite lookup_insert_ne in Hb by exact Hne.
      split; [exact Hb|].
      destruct Hd as [[Hm Hout]|[s [Hin Hs]]].
      * rewrite lookup_insert_ne in Hm by exact Hne. left. split; [exact Hm|].
        cbn [List.map fst]. intros [E|Hin]; [congruence|contradiction].
      * right. exists s. split; [right; exact Hin|exact Hs].
Qed.

(** X6.  In the candidates [retrieve] merges, the BM25 score of a chunk is
    its FTS score over the best FTS score of the query, a number between 0
    and 1 (0 for a chunk the full-text search did not find), and a chunk is
    a candidate only if the full-text search or the vector search found it;
    the dense score of a chunk the vector search found is a score of one
    of its hits. *)
Theorem candidate_scores `{EmbeddingModel} `{FlatIndex} (cfg : Settings) (db : Db)
    (vector_index : VectorIndexService) (query : string) (k : string) (sc : Scores) :
  retrieve_candidates cfg db vector_index query !! k = Some sc ->
  let bm25_results :=
    _bm25_search db (_extract_query_terms query) (TOP_K_RETRIEVAL cfg * 2) in
  let dense_results := search cfg vector_index query (TOP_K_RETRIEVAL cfg * 2) in
  let best := Retrieval.max_of (List.map snd (map_to_list bm25_results)) in
  (0 <= s_bm25 sc <= 1)%Q
  /\ (forall v, bm25_results !! k = Some v ->
        (v <= best)%Q /\ ((0 < best)%Q -> (s_bm25 sc == v / best)%Q))
  /\ (bm25_results !! k = None -> s_bm25 sc = 0%Q)
  /\ (is_Some (bm25_results !! k) \/ In k (List.map fst dense_results))
  /\ (In k (List.map fst dense_results) ->
      exists s, In (k, s) dense_results /\ s_dense sc = s)
  /\ (~ In k (List.map fst dense_results) -> s_dense sc = 0%Q).
Proof.
  intros Hl bm25_results dense_results best.
  unfold retrieve_candidates, _merge_results in Hl.
  fold bm25_results dense_results best in Hl.
  change (List.fold_left set_dense dense_results
            ((fun score => {| s_bm25 := if Qlt_le_dec 0 best then (score / best)%Q else 0%Q;
                              s_dense := 0%Q |}) <$> bm25_results) !! k = Some sc) in Hl.
  apply merge_dense_lookup in Hl. destruct Hl as [Hb Hd].
  unfold scores_of in Hb. rewrite lookup_fmap in Hb.
  assert (Hle : forall v, bm25_results !! k = Some v -> (0 <= v <= best)%Q).
  { intros v Hv. split; [eapply bm25_search_nonneg; exact Hv|].
    apply max_of_ge. apply in_map_iff. exists (k, v). split; [reflexivity|].
    apply list_elem_of_In, elem_of_map_to_list. exact Hv. }
  assert (Hdense : forall s, s_dense sc = s -> ~ In k (List.map fst dense_results) ->
                             bm25_results !! k <> None /\ s = 0%Q).
  { intros s Hs Hout. destruct Hd as [[Hm _]|[s' [Hin _]]].
    - rewrite lookup_fmap in Hm. destruct (bm25_results !! k); [|discriminate].
      cbn in Hm. injection Hm as <-. split; [discriminate|]. rewrite <- Hs. reflexivity.
    - exfalso. apply Hout. apply in_map_iff. exists (k, s'). split; [reflexivity|exact Hin]. }
  split; [|split; [|split; [|split; [|split]]]].
  - destruct (bm25_results !! k) as [v|] eqn:Hv; cbn in Hb; rewrite Hb.
    + destruct (Hle v eq_refl) as [Hv0 Hv1].
      destruct (Qlt_le_dec 0 best) as [Hpos|Hnp]; [|split; [apply Qle_refl|discriminate]].
      split.
      * apply Qle_shift_div_l; [exact Hpos|]. rewrite Qmult_0_l. exact Hv0.
      * apply Qle_shift_div_r; [exact Hpos|]. rewrite Qmult_1_l. exact Hv1.
    + cbn. split; [apply Qle_refl|discriminate].
  - intros v Hv. split; [apply (Hle v Hv)|]. intros Hpos.
    rewrite Hv in Hb. cbn in Hb. rewrite Hb.
    destruct (Qlt_le_dec 0 best) as [_|Hnp]; [reflexivity|].
    exfalso. apply (Qlt_not_le _ _ Hpos Hnp).
  - intros Hnone. rewrite Hnone in Hb. exact Hb.
  - destruct Hd as [[Hm _]|[s [Hin _]]].
    + left. rewrite lookup_fmap in Hm. destruct (bm25_results !! k); [eauto|discriminate].
    + right. apply in_map_iff. exists (k, s). split; [reflexivity|exact Hin].
  - intros Hin. destruct Hd as [[_ Hout]|Hhit]; [contradiction|exact Hhit].
  - intros Hout. apply (Hdense (s_dense sc) eq_refl Hout).
Qed.

Lemma candidate_scores_witness :
  let sc := {| s_bm25 := ((1 # 1) / (2 # 1))%Q; s_dense := 0%Q |} in
  @retrieve_candidates null_embedding exact_search settings fts_db create_index "alpha"
    !! "c2" = Some sc
  /\ (0 <= s_bm25 sc <= 1)%Q
  /\ s_dense sc = 0%Q.
Proof.
  intros sc.
  assert (Hl : @retrieve_candidates null_embedding exact_search settings fts_db create_index
                 "alpha" !! "c2" = Some sc) by (vm_compute; reflexivity).
  split; [exact Hl|].
  destruct (@candidate_scores null_embedding exact_search settings fts_db create_index
              "alpha" "c2" sc Hl) as [Hrange [_ [_ [_ [_ Hd]]]]].
  split; [exact Hrange|]. apply Hd. intros [].
Defined.

(** ** The filter *)

Lemma passes_allowed doc ids cats minrel :
  passes doc ids cats minrel = true <-> allowed doc ids cats minrel.
Proof.
  unfold passes, allowed.
  rewrite !andb_true_iff, !negb_true_iff, !andb_false_iff, !negb_false_iff.
  split.
  - intros [[Hi Hc] Hr]. split; [|split].
    + intros Ht. destruct Hi as [Hi|Hi]; [congruence|]. apply str_in_spec. exact Hi.
    + intros Ht. destruct Hc as [Hc|Hc]; [congruence|].
      destruct (category doc) as [cat|]; [|discriminate].
      exists cat. split; [reflexivity|]. apply str_in_spec. exact Hc.
    + destruct (Qlt_le_dec (reliability_score doc) minrel); [discriminate|assumption].
  - intros [Hi [Hc Hr]]. split; [split|].
    + destruct (truthy ids); [right; apply str_in_spec, Hi; reflexivity|left; reflexivity].
    + destruct (truthy cats); [right|left; reflexivity].
      destruct (Hc eq_refl) as [cat [-> Hin]]. apply str_in_spec. exact Hin.
    + destruct (Qlt_le_dec (reliability_score doc) minrel) as [Hlt|]; [|reflexivity].
      exfalso. apply (Qlt_not_le _ _ Hlt Hr).
Qed.

Lemma keep_passing_keeps candidates docs ids cats minrel chunks k : forall filtered,
  filtered !! k = Some (scores_of candidates k) ->
  List.fold_left (keep_passing candidates docs ids cats minrel) chunks filtered !! k
  = Some (scores_of candidates k).
Proof.
  induction chunks as [|c chunks IH]; intros filtered Hk; [exact Hk|].
  cbn [List.fold_left]. apply IH. unfold keep_passing.
  destruct (docs !! document_id c); [|exact Hk].
  destruct (passes _ _ _ _); [|exact Hk].
  destruct (decide (id c = k)) as [->|Hne].
  - apply lookup_insert_eq.
  - rewrite lookup_insert_ne by exact Hne. exact Hk.
Qed.

Lemma keep_passing_adds candidates docs ids cats minrel chunks chunk doc : forall filtered,
  In chunk chunks ->
  docs !! document_id chunk = Some doc ->
  passes doc ids cats minrel = true ->
  List.fold_left (keep_passing candidates docs ids cats minrel) chunks filtered !! id chunk
  = Some (scores_of candidates (id chunk)).
Proof.
  induction chunks as [|c chunks IH]; intros filtered Hin Hdoc Hp; [destruct Hin|].
  cbn [List.fold_left]. destruct Hin as [->|Hin].
  - apply keep_passing_keeps. unfold keep_passing. rewrite Hdoc, Hp.
    apply lookup_insert_eq.
  - apply IH; assumption.
Qed.

(** X7.  [_filter_candidates] keeps a candidate, with its scores, exactly
    when some chunk row of that id belongs to a document that satisfies the
    constraints: listed among the document ids when a list is given, of a
    listed category when categories are given, and of a reliability not
    below the minimum.  A candidate without a chunk row or without a
    document row is dropped. *)
Theorem filter_candidates_exact (db : Db) (candidates : gmap string Scores)
    (document_ids categories : option (list string)) (min_reliability : Q)
    (k : string) (sc : Scores) :
  _filter_candidates db candidates document_ids categories min_reliability !! k = Some sc
  <-> candidates !! k = Some sc
      /\ exists chunk doc,
           In chunk (chunk_rows db) /\ id chunk = k
           /\ document_row db (document_id chunk) = Some doc
           /\ allowed doc document_ids categories min_reliability.
Proof.
  split.
  - intros Hl. apply filter_candidates_lookup in Hl.
    destruct Hl as [chunk [doc [Hin [Hid [Hc [Hdoc Hp]]]]]].
    split; [exact Hc|]. exists chunk, doc. rewrite <- passes_allowed. auto.
  - intros [Hc [chunk [doc [Hin [Hid [Hdoc Hp]]]]]]. apply passes_allowed in Hp.
    unfold _filter_candidates. case_bool_decide as Hempty.
    { rewrite Hempty, lookup_empty in Hc. discriminate. }
    assert (Hin' : In chunk (chunks_in db candidates)).
    { apply chunks_in_spec. split; [exact Hin|]. rewrite Hid, Hc. eauto. }
    change (List.fold_left
              (keep_passing candidates (docs_of db (chunks_in db candidates))
                 document_ids categories min_reliability)
              (chunks_in db candidates) ∅ !! k = Some sc).
    rewrite <- Hid.
    rewrite (keep_passing_adds _ _ _ _ _ _ chunk doc ∅ Hin'); [| |exact Hp].
    + unfold scores_of. rewrite Hid, Hc. reflexivity.
    + rewrite (docs_of_lookup _ _ _ Hin'). exact Hdoc.
Qed.

(** ** What [retrieve] returns *)

Lemma rerank_rows cfg db candidates query terms r :
  In r (_structural_rerank cfg db candidates query terms) ->
  exists chunk,
    In chunk (chunk_rows db) /\ is_Some (candidates !! id chunk)
    /\ chunk_id r = id chunk /\ r_content r = content chunk
    /\ r_document_id r = document_id chunk
    /\ r_chunk_type r = chunk_type chunk
    /\ document_name r
       = match document_row db (document_id chunk) with
         | Some d => filename d
         | None => "Unknown"%string
         end.
Proof.
  unfold _structural_rerank. case_bool_decide as Hempty; [intros []|].
  rewrite in_map_iff. intros [chunk [<- Hin]].
  pose proof (docs_of_lookup db _ _ Hin) as Hdocs.
  apply chunks_in_spec in Hin. destruct Hin as [Hrow Hsome].
  exists chunk. cbn. rewrite Hdocs. repeat split; assumption.
Qed.

(** X8.  When a filter is requested, every chunk [retrieve] returns is a
    stored chunk whose document has a row that satisfies the constraints:
    its reliability is not below [min_reliability], it is one of the
    documents asked for, and its category is one of those asked for.  The
    chunk carries the file name of that document. *)
Theorem retrieve_respects_filters `{EmbeddingModel} `{FlatIndex} (cfg : Settings) (db : Db)
    (vector_index : VectorIndexService) (query : string)
    (document_ids categories : option (list string)) (min_reliability : Q) (top_k : Z)
    (r : RetrievedChunk) :
  List.NoDup (List.map id (chunk_rows db)) ->
  filter_requested document_ids categories min_reliability = true ->
  In r (retrieve cfg db vector_index query document_ids categories min_reliability top_k) ->
  exists chunk doc,
    In chunk (chunk_rows db) /\ chunk_id r = id chunk
    /\ r_document_id r = document_id chunk
    /\ In doc (document_rows db) /\ doc_id doc = r_document_id r
    /\ document_name r = filename doc
    /\ allowed doc document_ids categories min_reliability.
Proof.
  intros Hkey Hreq Hin. apply retrieve_from_results in Hin.
  unfold retrieve_results in Hin. rewrite Hreq in Hin.
  apply rerank_rows in Hin.
  destruct Hin as [chunk [Hrow [[sc Hsc] [Hid [_ [Hdid [_ Hname]]]]]]].
  apply filter_candidates_lookup in Hsc.
  destruct Hsc as [chunk' [doc [Hrow' [Hid' [_ [Hdoc Hp]]]]]].
  assert (chunk' = chunk) by (eapply same_id_same_row; eassumption). subst chunk'.
  rewrite Hdoc in Hname.
  destruct (document_row_owner _ _ _ Hdoc) as [Hdoc_in Hdoc_id].
  exists chunk, doc. rewrite Hdid. apply passes_allowed in Hp. auto 10.
Qed.

Lemma retrieve_respects_filters_witness :
  let out := @retrieve length_embedding exact_search settings tie_db tie_index
               "zebra" None None (9 # 10) 10 in
  let r := List.hd (retrieved EmptyString EmptyString) out in
  List.NoDup (List.map id (chunk_rows tie_db))
  /\ filter_requested None None (9 # 10) = true
  /\ In r out
  /\ List.map chunk_id out = ["b"]
  /\ exists doc, In doc (document_rows tie_db) /\ doc_id doc = r_document_id r
                 /\ (9 # 10 <= reliability_score doc)%Q.
Proof.
  intros out r.
  assert (Hkey : List.NoDup (List.map id (chunk_rows tie_db))).
  { repeat constructor; cbn; intuition discriminate. }
  assert (Hreq : filter_requested None None (9 # 10) = true) by reflexivity.
  assert (Hin : In r out) by (vm_compute; left; reflexivity).
  split; [exact Hkey|]. split; [exact Hreq|]. split; [exact Hin|].
  split; [vm_compute; reflexivity|].
  destruct (@retrieve_respects_filters length_embedding exact_search settings tie_db
              tie_index "zebra" None None (9 # 10) 10 r Hkey Hreq Hin)
    as [chunk [doc [_ [_ [_ [Hdoc [Hid [_ [_ [_ Hrel]]]]]]]]]].
  exists doc. split; [exact Hdoc|]. split; [exact Hid|exact Hrel].
Defined.

Lemma NoDup_firstn {A} (n : nat) (l : list A) : List.NoDup l -> List.NoDup (firstn n l).
Proof.
  revert n. induction l as [|a l IH]; intros [|n] Hnd; cbn [firstn]; try constructor.
  - inversion Hnd as [|? ? Ha Hl]; subst. intros Hin. apply Ha. eapply in_firstn. exact Hin.
  - inversion Hnd; subst. apply IH. assumption.
Qed.

Lemma NoDup_filter_map {A B} (f : A -> B) (p : A -> bool) (l : list A) :
  List.NoDup (List.map f l) -> List.NoDup (List.map f (List.filter p l)).
Proof.
  induction l as [|a l IH]; cbn [List.map List.filter]; intros Hnd; [constructor|].
  inversion Hnd as [|? ? Ha Hl]; subst.
  destruct (p a); cbn [List.map]; [|apply IH; exact Hl].
  constructor; [|apply IH; exact Hl].
  intros Hin. apply Ha. apply in_map_iff in Hin. destruct Hin as [x [Hx Hin]].
  apply List.filter_In in Hin. apply in_map_iff. exists x. split; [exact Hx|apply Hin].
Qed.

Lemma slice_to_firstn {A} (k : Z) (l : list A) : exists n, slice_to k l = firstn n l.
Proof. unfold slice_to. destruct (Z.leb 0 k); eauto. Qed.

(** X9.  [retrieve] returns stored chunks, and each of them at most once:
    when the chunk ids of the table are distinct, so are the chunk ids of
    the result, whatever [top_k] is; every result carries the id, the
    content, the document id and the type of a chunk row. *)
Theorem retrieve_distinct_rows `{EmbeddingModel} `{FlatIndex} (cfg : Settings) (db : Db)
    (vector_index : VectorIndexService) (query : string)
    (document_ids categories : option (list string)) (min_reliability : Q) (top_k : Z) :
  List.NoDup (List.map id (chunk_rows db)) ->
  let out :=
    retrieve cfg db vector_index query document_ids categories min_reliability top_k in
  List.NoDup (List.map chunk_id out)
  /\ forall r, In r out ->
       exists chunk,
         In chunk (chunk_rows db) /\ chunk_id r = id chunk
         /\ r_content r = content chunk /\ r_document_id r = document_id chunk
         /\ r_chunk_type r = chunk_type chunk.
Proof.
  intros Hkey out. split.
  - unfold out, retrieve.
    destruct (slice_to_firstn top_k
                (sorted_desc final_score
                   (retrieve_results cfg db vector_index query document_ids categories
                      min_reliability))) as [n ->].
    rewrite <- firstn_map. apply NoDup_firstn.
    eapply Permutation_NoDup.
    { apply Permutation_map. apply Permutation_sym. apply sorted_desc_perm. }
    unfold retrieve_results, _structural_rerank.
    case_bool_decide; [constructor|].
    rewrite List.map_map. cbn [chunk_id]. unfold chunks_in.
    eapply Permutation_NoDup.
    { apply Permutation_map. apply Permutation_sym. apply by_primary_key_perm. }
    apply NoDup_filter_map. exact Hkey.
  - intros r Hin. apply retrieve_from_results in Hin.
    unfold retrieve_results in Hin. apply rerank_rows in Hin.
    destruct Hin as [chunk [Hrow [_ [Hid [Hc [Hd [Ht _]]]]]]].
    exists chunk. auto.
Qed.

Lemma retrieve_distinct_rows_witness :
  let out := @retrieve length_embedding exact_search settings tie_db tie_index
               "zebra" None None (5 # 10) 10 in
  List.NoDup (List.map id (chunk_rows tie_db))
  /\ List.NoDup (List.map chunk_id out)
  /\ List.map chunk_id out = ["a"; "b"].
Proof.
  intros out.
  assert (Hkey : List.NoDup (List.map id (chunk_rows tie_db))).
  { repeat constructor; cbn; intuition discriminate. }
  split; [exact Hkey|].
  destruct (@retrieve_distinct_rows length_embedding exact_search settings tie_db
              tie_index "zebra" None None (5 # 10) 10 Hkey) as [Hnd _].
  split; [exact Hnd|]. vm_compute. reflexivity.
Defined.

(** ** The context window *)

Section Ascending.
Context {A : Type} (key : A -> Z).

Lemma insert_asc_perm x l : Permutation (insert_asc key x l) (x :: l).
Proof.
  induction l as [|y l IH]; cbn [insert_asc]; [reflexivity|].
  destruct (Z.leb (key x) (key y)); [reflexivity|].
  rewrite IH. apply perm_swap.
Qed.

Lemma order_by_perm l : Permutation (order_by key l) l.
Proof.
  induction l as [|x l IH]; cbn [order_by List.fold_right]; [reflexivity|].
  fold (order_by key l). rewrite insert_asc_perm. constructor. exact IH.
Qed.

Lemma insert_asc_sorted x l :
  StronglySorted (asc key) l -> StronglySorted (asc key) (insert_asc key x l).
Proof.
  induction 1 as [|y l Hl IH Hy]; cbn [insert_asc].
  - repeat constructor.
  - destruct (Z.leb_spec (key x) (key y)) as [Hle|Hgt].
    + constructor; [constructor; assumption|].
      constructor; [exact Hle|].
      eapply List.Forall_impl; [|exact Hy]. unfold asc. intros z Hz. lia.
    + constructor; [exact IH|].
      rewrite List.Forall_forall. intros z Hz.
      apply (Permutation_in _ (insert_asc_perm x l)) in Hz.
      destruct Hz as [<-|Hz]; [unfold asc; lia|].
      rewrite List.Forall_forall in Hy. apply Hy. exact Hz.
Qed.

Lemma order_by_sorted l : StronglySorted (asc key) (order_by key l).
Proof.
  induction l as [|x l IH]; cbn [order_by List.fold_right]; [constructor|].
  apply insert_asc_sorted. exact IH.
Qed.

End Ascending.

(** X10.  [get_context_window] returns nothing for an unknown chunk id.
    For a stored chunk at place [t] of its document it returns exactly the
    rows of that document whose place lies within [window_size] of [t], in
    ascending order of place and without repetition when the table has
    none; the chunk itself is among them when [window_size] is not
    negative.  It raises only when the chunk has no place. *)
Theorem context_window_rows (db : Db) (chunk_id : string) (window_size : Z) :
  match List.find (fun c => String.eqb (id c) chunk_id) (chunk_rows db) with
  | None => get_context_window db chunk_id window_size = Some []
  | Some target =>
      match sequence_index target with
      | None => get_context_window db chunk_id window_size = None
      | Some t =>
          exists window,
            get_context_window db chunk_id window_size = Some window
            /\ (forall c, In c window
                          <-> In c (chunk_rows db)
                              /\ near (document_id target) t window_size c)
            /\ StronglySorted (asc sequence_key) window
            /\ (List.NoDup (chunk_rows db) -> List.NoDup window)
            /\ ((0 <= window_size)%Z -> In target window)
      end
  end.
Proof.
  unfold get_context_window.
  destruct (List.find _ _) as [target|] eqn:Hfind; [|reflexivity].
  destruct (sequence_index target) as [t|] eqn:Ht; [|reflexivity].
  eexists. split; [reflexivity|].
  set (sel := fun c : Chunk => String.eqb (document_id c) (document_id target)
                               && in_window (Z.of_nat t - window_size)
                                    (Z.of_nat t + window_size) c).
  assert (Hsel : forall c, sel c = true <-> near (document_id target) t window_size c).
  { intros c. unfold sel, near, in_window. rewrite andb_true_iff, String.eqb_eq.
    destruct (sequence_index c) as [n|].
    - rewrite andb_true_iff, !Z.leb_le. split.
      + intros [Hd Hn]. split; [exact Hd|]. exists n. split; [reflexivity|exact Hn].
      + intros [Hd [n' [E Hn]]]. injection E as <-. auto.
    - split; [intros [_ Hf]; discriminate|intros [_ [n [E _]]]; discriminate]. }
  assert (Hmem : forall c, In c (order_by sequence_key (List.filter sel (chunk_rows db)))
                           <-> In c (chunk_rows db)
                               /\ near (document_id target) t window_size c).
  { intros c. rewrite <- Hsel, <- List.filter_In. split; intros Hin.
    - eapply Permutation_in; [apply order_by_perm|exact Hin].
    - eapply Permutation_in; [apply Permutation_sym, order_by_perm|exact Hin]. }
  split; [exact Hmem|]. split; [apply order_by_sorted|]. split.
  - intros Hnd. eapply Permutation_NoDup; [apply Permutation_sym, order_by_perm|].
    apply List.NoDup_filter. exact Hnd.
  - intros Hw. apply Hmem. apply List.find_some in Hfind. destruct Hfind as [Hin _].
    split; [exact Hin|]. split; [reflexivity|]. exists t. split; [exact Ht|lia].
Qed.

End RetrievalGuarantees.

(* ===================================================================== *)
(** * Assembly of the context *)
(* ===================================================================== *)

Module ContextAssembly.
Import Text Models Database Retrieval Context Samples RetrievalSpec ContextSpec.
Import RetrievalFacts ContextFacts.
Local Open Scope list_scope.

(** ** The chunks of the context *)

Lemma dedup_distinct chunks : forall seen,
  List.NoDup (List.map (fun r => content_key (r_content r)) (dedup seen chunks))
  /\ forall r, In r (dedup seen chunks) ->
       In r chunks /\ content_key (r_content r) ∉ seen.
Proof.
  induction chunks as [|chunk rest IH]; intros seen; cbn [dedup].
  - split; [constructor|intros r []].
  - fold (content_key (r_content chunk)).
    case_bool_decide as Hseen.
    + destruct (IH seen) as [Hnd Hin]. split; [exact Hnd|].
      intros r Hr. destruct (Hin r Hr) as [H1 H2]. split; [right; exact H1|exact H2].
    + destruct (IH ({[content_key (r_content chunk)]} ∪ seen)) as [Hnd Hin].
      split.
      * cbn [List.map]. constructor; [|exact Hnd].
        intros Hk. apply in_map_iff in Hk. destruct Hk as [r [Hkey Hr]].
        destruct (Hin r Hr) as [_ Hout]. apply Hout. rewrite Hkey.
        apply elem_of_union. left. apply elem_of_singleton. reflexivity.
      * intros r [<-|Hr]; [split; [left; reflexivity|exact Hseen]|].
        destruct (Hin r Hr) as [H1 H2]. split; [right; exact H1|].
        intros Hs. apply H2. apply elem_of_union. right. exact Hs.
Qed.

Lemma pack_chunks svc l : forall i parts acc,
  exists n, snd (pack svc i parts acc l) = acc ++ chunks_from i (firstn n l).
Proof.
  induction l as [|chunk rest IH]; intros i parts acc.
  - exists 0%nat. cbn. rewrite app_nil_r. reflexivity.
  - rewrite pack_cons.
    destruct (Z.ltb _ _).
    + exists 0%nat. cbn. rewrite app_nil_r. reflexivity.
    + destruct (IH (S i) (parts ++ [format_chunk i chunk])
                  (acc ++ [context_chunk_of i chunk])) as [n Hn].
      exists (S n). unfold context_chunk_of in Hn. rewrite Hn.
      rewrite <- app_assoc. reflexivity.
Qed.

Lemma chunks_from_markers l : forall i,
  List.map marker (chunks_from i l) = List.map make_marker (List.seq i (List.length l)).
Proof.
  induction l as [|chunk rest IH]; intros i; [reflexivity|].
  cbn [chunks_from List.map List.length List.seq marker context_chunk_of].
  rewrite IH. reflexivity.
Qed.

Lemma chunks_from_keys l : forall i,
  List.map (fun c => content_key (cc_content c)) (chunks_from i l)
  = List.map (fun r => content_key (r_content r)) l.
Proof.
  induction l as [|chunk rest IH]; intros i; [reflexivity|].
  cbn [chunks_from List.map cc_content context_chunk_of]. rewrite IH. reflexivity.
Qed.

Lemma chunks_from_length l : forall i, List.length (chunks_from i l) = List.length l.
Proof.
  induction l as [|chunk rest IH]; intros i; [reflexivity|].
  cbn [chunks_from List.length]. rewrite IH. reflexivity.
Qed.

Lemma chunks_from_in l c : forall i,
  In c (chunks_from i l) ->
  exists r, In r l /\ cc_chunk_id c = chunk_id r /\ cc_content c = r_content r
            /\ citation c = make_citation r.
Proof.
  induction l as [|chunk rest IH]; intros i; [intros []|].
  cbn [chunks_from]. intros [<-|Hin].
  - exists chunk. repeat split. left. reflexivity.
  - destruct (IH _ Hin) as [r [Hr Hrest]]. exists r. split; [right; exact Hr|exact Hrest].
Qed.

(** X11.  The chunks [build_context] returns carry the markers [1], [2],
    ... in order; no two of them have contents that agree on their first
    100 characters; and each is built from one of the chunks given, of
    which it has the id, the content and the citation.  Without chunks the
    context is the empty string, without a header. *)
Theorem build_context_chunks (svc : ContextService) (chunks : list RetrievedChunk)
    (query : string) :
  let out := snd (build_context svc chunks query) in
  List.map marker out = List.map make_marker (List.seq 1 (List.length out))
  /\ List.NoDup (List.map (fun c => content_key (cc_content c)) out)
  /\ (forall c, In c out ->
        exists r, In r chunks /\ cc_chunk_id c = chunk_id r
                  /\ cc_content c = r_content r /\ citation c = make_citation r)
  /\ (List.length out <= List.length chunks)%nat
  /\ (chunks = [] -> build_context svc chunks query = (EmptyString, [])).
Proof.
  intros out.
  assert (Hout : exists n, out = chunks_from 1 (firstn n (dedup ∅ chunks))).
  { unfold out, build_context. destruct chunks as [|chunk rest].
    - exists 0%nat. reflexivity.
    - destruct (pack_chunks svc (dedup ∅ (chunk :: rest)) 1 [] []) as [n Hn].
      exists n. destruct (pack svc 1 [] [] (dedup ∅ (chunk :: rest))) as [parts ctx].
      exact Hn. }
  destruct Hout as [n Hout]. rewrite Hout.
  destruct (dedup_distinct chunks ∅) as [Hnd Hin].
  split; [|split; [|split; [|split]]].
  - rewrite chunks_from_markers, chunks_from_length. reflexivity.
  - rewrite chunks_from_keys, <- List.firstn_map.
    clear - Hnd. revert n. induction Hnd as [|k l Hk Hl IH]; intros [|n]; cbn [firstn];
      try constructor.
    + intros Hx. apply Hk. eapply in_firstn. exact Hx.
    + apply IH.
  - intros c Hc. apply chunks_from_in in Hc. destruct Hc as [r [Hr Hrest]].
    exists r. split; [|exact Hrest]. apply in_firstn in Hr. apply Hin in Hr. apply Hr.
  - rewrite chunks_from_length, length_firstn.
    assert (Hlen : forall seen, (List.length (dedup seen chunks) <= List.length chunks)%nat).
    { clear. induction chunks as [|c l IH]; intros seen; cbn [dedup List.length]; [lia|].
      destruct (bool_decide _); cbn [List.length]; [specialize (IH seen)|
        specialize (IH ({[take 100 (r_content c)]} ∪ seen))]; lia. }
    specialize (Hlen ∅). lia.
  - intros ->. reflexivity.
Qed.

(** ** The expanded context *)

Lemma add_unseen_tracks cid r st :
  chunk_id r = cid -> tracks st -> tracks (add_unseen cid r st).
Proof.
  intros Hid [Hnd Hseen]. destruct st as [expanded seen]. unfold add_unseen.
  cbn [fst snd] in *. case_bool_decide as Hin; [split; assumption|].
  unfold tracks. cbn [fst snd]. rewrite map_app. cbn [List.map]. rewrite Hid. split.
  - apply NoDup_ListNoDup, NoDup_app. split; [|split].
    + apply NoDup_ListNoDup. exact Hnd.
    + intros x Hx Hx'. apply list_elem_of_In in Hx. apply list_elem_of_In in Hx'.
      destruct Hx' as [<-|[]]. apply Hin. apply Hseen. exact Hx.
    + apply NoDup_ListNoDup. repeat constructor. intros [].
  - intros k. rewrite in_app_iff, elem_of_union, elem_of_singleton, Hseen. cbn [In].
    intuition.
Qed.

Lemma add_unseen_grows cid r st :
  chunk_id r = cid ->
  (forall x, In x (fst st) -> In x (fst (add_unseen cid r st)))
  /\ (tracks st -> In cid (List.map chunk_id (fst (add_unseen cid r st))))
  /\ (forall x, In x (fst (add_unseen cid r st)) -> In x (fst st) \/ x = r).
Proof.
  intros Hid. destruct st as [expanded seen]. unfold add_unseen. cbn [fst snd].
  case_bool_decide as Hin; cbn [fst].
  - split; [auto|]. split; [|auto]. intros [_ Hseen]. apply Hseen. exact Hin.
  - split; [intros x Hx; apply in_app_iff; left; exact Hx|]. split.
    + intros _. rewrite map_app, in_app_iff. right. left. exact Hid.
    + intros x Hx. apply in_app_iff in Hx. destruct Hx as [Hx|[<-|[]]]; auto.
Qed.

Lemma adjacent_rows_spec db chunk w adj :
  In adj (adjacent_rows db chunk w)
  <-> In adj (chunk_rows db) /\ document_id adj = r_document_id chunk
      /\ sequence_index adj = Some 0%nat.
Proof.
  unfold adjacent_rows. rewrite List.filter_In, andb_true_iff, String.eqb_eq.
  destruct (sequence_index adj) as [n|].
  - rewrite andb_true_iff, !Z.leb_le. split.
    + intros [Hin [Hd Hn]]. repeat split; try assumption. f_equal. lia.
    + intros [Hin [Hd E]]. injection E as ->. repeat split; try assumption; lia.
  - split; [intros [_ [_ Hf]]; discriminate|intros [_ [_ Hf]]; discriminate].
Qed.

Lemma expand_adjacent db chunks chunk rows : forall st,
  In chunk chunks ->
  (forall adj, In adj rows -> In adj (chunk_rows db)
                              /\ document_id adj = r_document_id chunk
                              /\ sequence_index adj = Some 0%nat) ->
  tracks st ->
  Forall (expanded_from db chunks) (fst st) ->
  let st' := List.fold_left (fun st adj => add_unseen (id adj) (adjacent_chunk chunk adj) st)
               rows st in
  tracks st' /\ Forall (expanded_from db chunks) (fst st')
  /\ forall x, In x (fst st) -> In x (fst st').
Proof.
  induction rows as [|adj rows IH]; intros st Hchunk Hrows Htr Hfrom; cbn [List.fold_left].
  - auto.
  - assert (Hid : chunk_id (adjacent_chunk chunk adj) = id adj) by reflexivity.
    destruct (add_unseen_grows (id adj) (adjacent_chunk chunk adj) st Hid)
      as [Hmono [_ Hnew]].
    destruct (IH (add_unseen (id adj) (adjacent_chunk chunk adj) st)) as [H1 [H2 H3]].
    + exact Hchunk.
    + intros a Ha. apply Hrows. right. exact Ha.
    + apply add_unseen_tracks; assumption.
    + rewrite List.Forall_forall. intros x Hx. apply Hnew in Hx.
      destruct Hx as [Hx| ->].
      * rewrite List.Forall_forall in Hfrom. apply Hfrom. exact Hx.
      * right. exists chunk, adj.
        destruct (Hrows adj (or_introl eq_refl)) as [Ha [Hd Hs]]. auto.
    + split; [exact H1|]. split; [exact H2|]. intros x Hx. apply H3, Hmono, Hx.
Qed.

Lemma expand_step_spec db chunks w chunk st :
  In chunk chunks -> tracks st -> Forall (expanded_from db chunks) (fst st) ->
  let st' := expand_step db w st chunk in
  tracks st' /\ Forall (expanded_from db chunks) (fst st')
  /\ (forall x, In x (fst st) -> In x (fst st'))
  /\ In (chunk_id chunk) (List.map chunk_id (fst st')).
Proof.
  intros Hchunk Htr Hfrom. unfold expand_step.
  destruct (add_unseen_grows (chunk_id chunk) chunk st eq_refl) as [Hmono [Hhas Hnew]].
  set (st1 := add_unseen (chunk_id chunk) chunk st) in *.
  assert (Htr1 : tracks st1) by (apply add_unseen_tracks; auto).
  assert (Hfrom1 : Forall (expanded_from db chunks) (fst st1)).
  { rewrite List.Forall_forall. intros x Hx. apply Hnew in Hx. destruct Hx as [Hx| ->].
    - rewrite List.Forall_forall in Hfrom. apply Hfrom. exact Hx.
    - left. exact Hchunk. }
  destruct (expand_adjacent db chunks chunk (adjacent_rows db chunk w) st1 Hchunk
              (fun adj Ha => proj1 (adjacent_rows_spec db chunk w adj) Ha) Htr1 Hfrom1)
    as [H1 [H2 H3]].
  split; [exact H1|]. split; [exact H2|]. split.
  - intros x Hx. apply H3, Hmono, Hx.
  - specialize (Hhas Htr). apply in_map_iff in Hhas. destruct Hhas as [x [Hx Hin]].
    apply in_map_iff. exists x. split; [exact Hx|apply H3; exact Hin].
Qed.

Lemma expand_loop db chunks w todo : forall st,
  (forall c, In c todo -> In c chunks) ->
  tracks st -> Forall (expanded_from db chunks) (fst st) ->
  let st' := List.fold_left (expand_step db w) todo st in
  tracks st' /\ Forall (expanded_from db chunks) (fst st')
  /\ (forall x, In x (fst st) -> In x (fst st'))
  /\ forall c, In c todo -> In (chunk_id c) (List.map chunk_id (fst st')).
Proof.
  induction todo as [|chunk todo IH]; intros st Hsub Htr Hfrom; cbn [List.fold_left].
  - split; [exact Htr|]. split; [exact Hfrom|]. split; [auto|intros c []].
  - destruct (expand_step_spec db chunks w chunk st (Hsub chunk (or_introl eq_refl)) Htr Hfrom)
      as [H1 [H2 [H3 H4]]].
    destruct (IH (expand_step db w st chunk) (fun c Hc => Hsub c (or_intror Hc)) H1 H2)
      as [K1 [K2 [K3 K4]]].
    split; [exact K1|]. split; [exact K2|]. split; [intros x Hx; apply K3, H3, Hx|].
    intros c [<-|Hc]; [|apply K4; exact Hc].
    apply in_map_iff in H4. destruct H4 as [x [Hx Hin]].
    apply in_map_iff. exists x. split; [exact Hx|apply K3; exact Hin].
Qed.

Lemma add_unseen_new cid r st :
  cid ∉ snd st -> In r (fst (add_unseen cid r st)).
Proof.
  destruct st as [expanded seen]. unfold add_unseen. cbn [fst snd]. intros Hnew.
  case_bool_decide as Hin; [contradiction|].
  cbn [fst]. apply in_app_iff. right. left. reflexivity.
Qed.

Lemma adjacent_fold_mono chunk rows : forall st x,
  In x (fst st) ->
  In x (fst (List.fold_left
               (fun st adj => add_unseen (id adj) (adjacent_chunk chunk adj) st) rows st)).
Proof.
  induction rows as [|adj rows IH]; intros st x Hx; cbn [List.fold_left]; [exact Hx|].
  apply IH.
  apply (proj1 (add_unseen_grows (id adj) (adjacent_chunk chunk adj) st eq_refl)).
  exact Hx.
Qed.

Lemma adjacent_fold_tracks chunk rows : forall st,
  tracks st ->
  tracks (List.fold_left
            (fun st adj => add_unseen (id adj) (adjacent_chunk chunk adj) st) rows st).
Proof.
  induction rows as [|adj rows IH]; intros st Htr; cbn [List.fold_left]; [exact Htr|].
  apply IH. apply add_unseen_tracks; [reflexivity|exact Htr].
Qed.

Lemma ids_mono (l l' : list RetrievedChunk) k :
  (forall x, In x l -> In x l') ->
  In k (List.map chunk_id l) -> In k (List.map chunk_id l').
Proof.
  intros Hsub Hk. apply in_map_iff in Hk. destruct Hk as [x [Hx Hin]].
  apply in_map_iff. exists x. split; [exact Hx|apply Hsub; exact Hin].
Qed.

(** The ids of the rows next to a chunk are in the list once its step is done. *)
Lemma adjacent_fold_ids chunk rows : forall st adj,
  tracks st -> In adj rows ->
  In (id adj)
    (List.map chunk_id
       (fst (List.fold_left
               (fun st adj => add_unseen (id adj) (adjacent_chunk chunk adj) st) rows st))).
Proof.
  induction rows as [|a rows IH]; intros st adj Htr Hin; [destruct Hin|].
  cbn [List.fold_left]. destruct Hin as [<-|Hin].
  - eapply ids_mono; [intros x Hx; apply adjacent_fold_mono; exact Hx|].
    apply (proj1 (proj2 (add_unseen_grows (id a) (adjacent_chunk chunk a) st eq_refl))).
    exact Htr.
  - apply IH; [|exact Hin]. apply add_unseen_tracks; [reflexivity|exact Htr].
Qed.

Lemma expand_step_mono db w st chunk x :
  In x (fst st) -> In x (fst (expand_step db w st chunk)).
Proof.
  intros Hx. unfold expand_step. apply adjacent_fold_mono.
  apply (proj1 (add_unseen_grows (chunk_id chunk) chunk st eq_refl)). exact Hx.
Qed.

Lemma expand_step_tracks db w st chunk :
  tracks st -> tracks (expand_step db w st chunk).
Proof.
  intros Htr. unfold expand_step. apply adjacent_fold_tracks.
  apply add_unseen_tracks; [reflexivity|exact Htr].
Qed.

Lemma expand_fold_mono db w todo : forall st x,
  In x (fst st) -> In x (fst (List.fold_left (expand_step db w) todo st)).
Proof.
  induction todo as [|chunk todo IH]; intros st x Hx; cbn [List.fold_left]; [exact Hx|].
  apply IH, expand_step_mono, Hx.
Qed.

Lemma expand_fold_tracks db w todo : forall st,
  tracks st -> tracks (List.fold_left (expand_step db w) todo st).
Proof.
  induction todo as [|chunk todo IH]; intros st Htr; cbn [List.fold_left]; [exact Htr|].
  apply IH, expand_step_tracks, Htr.
Qed.

(** Every id met among the chunks of a run of the loop is in the list at
    its end. *)
Lemma expand_loop_ids db w todo : forall st k,
  tracks st -> met_before db todo k ->
  In k (List.map chunk_id (fst (List.fold_left (expand_step db w) todo st))).
Proof.
  induction todo as [|chunk todo IH]; intros st k Htr Hmet; cbn [List.fold_left].
  - destruct Hmet as [[]|[c [adj [[] _]]]].
  - pose proof (expand_step_tracks db w st chunk Htr) as Htr'.
    assert (Hnow : In k (List.map chunk_id (fst (expand_step db w st chunk))) ->
                   In k (List.map chunk_id
                           (fst (List.fold_left (expand_step db w) todo
                                   (expand_step db w st chunk))))).
    { apply ids_mono. intros x Hx. apply expand_fold_mono. exact Hx. }
    destruct Hmet as [[<-|Hk]|[c [adj [[<-|Hc] [Hrow [Hdoc [Hseq Hid]]]]]]].
    + apply Hnow. unfold expand_step.
      eapply ids_mono; [intros x Hx; apply adjacent_fold_mono; exact Hx|].
      apply (proj1 (proj2 (add_unseen_grows (chunk_id chunk) chunk st eq_refl))).
      exact Htr.
    + apply IH; [exact Htr'|]. left. exact Hk.
    + apply Hnow. rewrite <- Hid. unfold expand_step. apply adjacent_fold_ids.
      * apply add_unseen_tracks; [reflexivity|exact Htr].
      * apply adjacent_rows_spec. auto.
    + apply IH; [exact Htr'|]. right. exists c, adj. auto.
Qed.

(** X12.  [expand_context_window] returns no chunk id twice, in descending
    order of final score, and the id of every chunk it is given is among
    those returned.  A chunk given is returned as it is when its id was not
    met before it in the list, neither as the id of a chunk given nor as the
    id of a row added next to one; otherwise the entry made for that id
    before the chunk was reached stands in its place.  What the function
    adds are rows at place 0 of the documents of the chunks given, at half
    the score of the chunk they were found for; the result does not depend
    on [window_size], since a retrieved chunk records no place of its
    own. *)
Theorem expand_context_window_chunks (chunks : list RetrievedChunk) (db : Db)
    (window_size : Z) :
  let out := expand_context_window chunks db window_size in
  List.NoDup (List.map chunk_id out)
  /\ (forall c, In c chunks -> In (chunk_id c) (List.map chunk_id out))
  /\ (forall before c after, chunks = before ++ c :: after ->
        (~ met_before db before (chunk_id c) -> In c out)
        /\ (met_before db before (chunk_id c) ->
            exists x, In x out /\ chunk_id x = chunk_id c /\ expanded_from db before x))
  /\ Forall (expanded_from db chunks) out
  /\ StronglySorted (desc final_score) out
  /\ (forall w, expand_context_window chunks db w = out).
Proof.
  intros out. unfold out, expand_context_window.
  assert (Htr0 : tracks (([], ∅) : Expansion)).
  { split; [constructor|]. intros k. cbn.
    split; [intros Hk; apply elem_of_empty in Hk; exact Hk|intros []]. }
  assert (Hfrom0 : forall l, Forall (expanded_from db l) (fst (([], ∅) : Expansion)))
    by constructor.
  destruct (expand_loop db chunks window_size chunks ([], ∅) (fun c Hc => Hc) Htr0
              (Hfrom0 chunks))
    as [[Hnd _] [Hfrom [_ Hall]]].
  assert (Hsame : forall w,
            List.fold_left (expand_step db w) chunks ([], ∅)
            = List.fold_left (expand_step db window_size) chunks ([], ∅)).
  { intros w. reflexivity. }
  assert (Hplace : forall before c after, chunks = before ++ c :: after ->
            let expanded :=
              fst (List.fold_left (expand_step db window_size) chunks ([], ∅)) in
            (~ met_before db before (chunk_id c) -> In c expanded)
            /\ (met_before db before (chunk_id c) ->
                exists x, In x expanded /\ chunk_id x = chunk_id c
                          /\ expanded_from db before x)).
  { intros before c after -> expanded. unfold expanded.
    rewrite fold_left_app. cbn [List.fold_left].
    destruct (expand_loop db before window_size before ([], ∅) (fun c Hc => Hc) Htr0
                (Hfrom0 before))
      as [Htr1 [Hfrom1 _]].
    set (st1 := List.fold_left (expand_step db window_size) before ([], ∅)) in *.
    split.
    - intros Hnew. apply expand_fold_mono. unfold expand_step.
      apply adjacent_fold_mono. apply add_unseen_new.
      intros Hseen. apply Hnew. apply (proj2 Htr1) in Hseen.
      apply in_map_iff in Hseen. destruct Hseen as [x [Hx Hin]].
      rewrite List.Forall_forall in Hfrom1.
      destruct (Hfrom1 x Hin) as [Hgiven|[chunk [adj [Hc [Hrow [Hdoc [Hseq ->]]]]]]].
      + left. rewrite <- Hx. apply in_map. exact Hgiven.
      + right. exists chunk, adj. auto.
    - intros Hmet.
      pose proof (expand_loop_ids db window_size before ([], ∅) (chunk_id c) Htr0 Hmet)
        as Hk.
      fold st1 in Hk. apply in_map_iff in Hk. destruct Hk as [x [Hx Hin]].
      exists x. split; [|split; [exact Hx|]].
      + apply expand_fold_mono, expand_step_mono. exact Hin.
      + rewrite List.Forall_forall in Hfrom1. apply Hfrom1. exact Hin. }
  clear Htr0 Hfrom0.
  destruct (List.fold_left (expand_step db window_size) chunks ([], ∅))
    as [expanded seen] eqn:Hrun.
  cbn [fst] in *.
  split; [|split; [|split; [|split; [|split]]]].
  - eapply Permutation_NoDup; [|exact Hnd].
    apply Permutation_map, Permutation_sym, sorted_desc_perm.
  - intros c Hc. specialize (Hall c Hc).
    eapply Permutation_in; [|exact Hall].
    apply Permutation_map, Permutation_sym, sorted_desc_perm.
  - intros before c after Hsplit.
    destruct (Hplace before c after Hsplit) as [Hnew Hmet]. split.
    + intros Hn. eapply Permutation_in; [apply Permutation_sym, sorted_desc_perm|].
      apply Hnew. exact Hn.
    + intros Hm. destruct (Hmet Hm) as [x [Hx Hrest]]. exists x. split; [|exact Hrest].
      eapply Permutation_in; [apply Permutation_sym, sorted_desc_perm|exact Hx].
  - rewrite List.Forall_forall in *. intros x Hx. apply Hfrom.
    eapply Permutation_in; [apply sorted_desc_perm|exact Hx].
  - apply sorted_desc_sorted.
  - intros w. rewrite Hsame. reflexivity.
Qed.

(** A chunk whose row was added next to an earlier chunk: of the chunks of
    ids c2 and c0, scored 0.9 and 0.8, the second is the row at place 0 of
    the document of the first; the list returned holds that row at half the
    score of the first chunk, 0.45, in its place. *)
Lemma adjacent_copy_stands_in :
  List.map (fun r => (chunk_id r, Qeq_bool (final_score r) (45 # 100),
                      Qeq_bool (dense_score r) 0))
    (expand_context_window [scored "c2" "d1" (9 # 10); scored "c0" "d1" (8 # 10)]
       window_db 1)
  = [("c2", false, false); ("c0", true, true)].
Proof. vm_compute. reflexivity. Qed.

End ContextAssembly.

(* ===================================================================== *)
(** * Decisions of the grounding validator *)
(* ===================================================================== *)

Module GroundingDecisions.
Import Text Config Embedding Context Validation Samples ValidationSpec.
Import Tokenizer TextFacts ValidationFacts.
Local Open Scope list_scope.

(** ** Ratios of counts *)

Lemma ratio_range (a b : nat) :
  (a <= b)%nat -> (0 < b)%nat ->
  (0 <= inject_Z (Z.of_nat a) / inject_Z (Z.of_nat b) <= 1)%Q.
Proof.
  intros Hab Hb.
  assert (Hpos : (0 < inject_Z (Z.of_nat b))%Q).
  { change 0%Q with (inject_Z 0). rewrite <- Zlt_Qlt. lia. }
  split.
  - apply Qle_shift_div_l; [exact Hpos|]. rewrite Qmult_0_l.
    change 0%Q with (inject_Z 0). rewrite <- Zle_Qle. lia.
  - apply Qle_shift_div_r; [exact Hpos|]. rewrite Qmult_1_l. rewrite <- Zle_Qle. lia.
Qed.

Lemma ratio_eq (a b c : nat) :
  (0 < b)%nat ->
  (inject_Z (Z.of_nat a) / inject_Z (Z.of_nat b) == inject_Z (Z.of_nat c))%Q
  <-> a = (c * b)%nat.
Proof.
  intros Hb.
  assert (Hne : ~ (inject_Z (Z.of_nat b) == 0)%Q).
  { change 0%Q with (inject_Z 0). rewrite inject_Z_injective. lia. }
  split.
  - intros Heq.
    assert (Hm : (inject_Z (Z.of_nat a) == inject_Z (Z.of_nat c) * inject_Z (Z.of_nat b))%Q).
    { rewrite <- Heq. field. exact Hne. }
    rewrite <- inject_Z_mult, inject_Z_injective in Hm. lia.
  - intros ->. rewrite Nat2Z.inj_mul, inject_Z_mult. field. exact Hne.
Qed.

Lemma ratio_one (a b : nat) :
  (0 < b)%nat -> (inject_Z (Z.of_nat a) / inject_Z (Z.of_nat b) == 1)%Q <-> a = b.
Proof.
  intros Hb. change 1%Q with (inject_Z (Z.of_nat 1)). rewrite (ratio_eq a b 1 Hb). lia.
Qed.

Lemma ratio_zero (a b : nat) :
  (0 < b)%nat -> (inject_Z (Z.of_nat a) / inject_Z (Z.of_nat b) == 0)%Q <-> a = 0%nat.
Proof.
  intros Hb. change 0%Q with (inject_Z (Z.of_nat 0)). rewrite (ratio_eq a b 0 Hb). lia.
Qed.

(** ** The fuzzy score *)

Lemma fuzzy_score_bounds (sentence content : string) :
  (0 <= _fuzzy_match_score sentence content <= 1)%Q.
Proof.
  unfold _fuzzy_match_score. cbv zeta.
  case_bool_decide as Hempty; [split; [apply Qle_refl|discriminate]|].
  apply ratio_range.
  - apply subseteq_size, intersection_subseteq_l.
  - match goal with |- (0 < size ?X)%nat => destruct (size X) eqn:Hs; [|lia] end.
    apply size_empty_iff in Hs. apply leibniz_equiv in Hs. contradiction.
Qed.

(** X13.  The fuzzy score is a fraction between 0 and 1: the share of the
    words of the sentence (markers removed, stop words apart) that are
    words of the content.  It is 1 exactly when the sentence has such words
    and all of them are in the content, and 0 exactly when none is. *)
Theorem fuzzy_match_score_range (sentence content : string) :
  let sentence_words :=
    word_set (strip (sub_markers (lower sentence))) ∖ fuzzy_stopwords in
  let content_words := word_set (lower content) ∖ fuzzy_stopwords in
  (0 <= _fuzzy_match_score sentence content <= 1)%Q
  /\ ((_fuzzy_match_score sentence content == 1)%Q
      <-> sentence_words <> ∅ /\ sentence_words ⊆ content_words)
  /\ ((_fuzzy_match_score sentence content == 0)%Q
      <-> sentence_words ∩ content_words = ∅).
Proof.
  intros sentence_words content_words. unfold _fuzzy_match_score.
  fold sentence_words content_words.
  case_bool_decide as Hempty.
  - split; [split; [apply Qle_refl|discriminate]|]. split.
    + split; [intros Heq; discriminate Heq|intros [Hne _]; contradiction].
    + split; [intros _|reflexivity]. rewrite Hempty. apply left_absorb_L. exact _.
  - assert (Hpos : (0 < size sentence_words)%nat).
    { destruct (size sentence_words) eqn:Hs; [|lia].
      apply size_empty_iff in Hs. apply leibniz_equiv in Hs. contradiction. }
    assert (Hsub : sentence_words ∩ content_words ⊆ sentence_words)
      by apply intersection_subseteq_l.
    pose proof (subseteq_size _ _ Hsub) as Hle.
    split; [apply ratio_range; assumption|]. split.
    + rewrite (ratio_one _ _ Hpos). split.
      * intros Hsize. split; [exact Hempty|].
        assert (Heq : sentence_words ∩ content_words = sentence_words).
        { apply set_subseteq_size_eq; [exact Hsub|lia]. }
        rewrite <- Heq. apply intersection_subseteq_r.
      * intros [_ Hin]. f_equal. apply leibniz_equiv. apply subseteq_intersection_1.
        exact Hin.
    + rewrite (ratio_zero _ _ Hpos). split.
      * intros Hz. apply leibniz_equiv, size_empty_iff. exact Hz.
      * intros ->. apply size_empty.
Qed.

(** ** One sentence *)

Lemma semantic_similarity_range `{EmbeddingModel} cfg a b :
  (0 <= _semantic_similarity cfg a b <= 1)%Q.
Proof.
  unfold _semantic_similarity. cbv zeta. split.
  - apply Q.le_max_l.
  - apply Q.max_lub; [discriminate|apply Q.le_min_l].
Qed.

Lemma gt_false (a b : Q) : gt a b = false -> (a <= b)%Q.
Proof. unfold gt. rewrite negb_false_iff. apply Qle_bool_iff. Qed.

Lemma check_citations_result `{EmbeddingModel} cfg s ctx cites : forall r,
  check_citations cfg s ctx cites = Some r ->
  sentence r = s /\ is_grounded r = true /\ match_type r = CITED
  /\ (5 # 10 < confidence r)%Q /\ (0 <= confidence r <= 1)%Q
  /\ exists c, In c ctx /\ matched_chunks r = [cc_chunk_id c]
               /\ confidence r = _semantic_similarity cfg s (cc_content c).
Proof.
  induction cites as [|k cites IH]; intros r; cbn [check_citations]; [discriminate|].
  cbv zeta.
  destruct (Z.leb 0 _ && Z.ltb _ _); [|apply IH].
  destruct (nth_error ctx _) as [c|] eqn:Hc; [|apply IH].
  destruct (gt _ _) eqn:Hgt; [|apply IH].
  intros E. injection E as <-. cbn.
  apply gt_iff in Hgt. repeat split; try assumption; try apply semantic_similarity_range.
  exists c. split; [eapply nth_error_In; exact Hc|]. split; reflexivity.
Qed.

Lemma check_exact_result s sl items : forall r,
  check_exact s sl items = Some r ->
  sentence r = s /\ is_grounded r = true /\ match_type r = EXACT /\ confidence r = 1%Q
  /\ exists k v, In (k, v) items /\ matched_chunks r = [k]
                 /\ (20 < String.length (strip (sub_markers sl)))%nat
                 /\ contains (strip (sub_markers sl)) v = true.
Proof.
  induction items as [|[k v] items IH]; intros r; cbn [check_exact]; [discriminate|].
  cbv zeta. destruct (Nat.ltb 20 _ && contains _ v) eqn:Hfire.
  - intros E. injection E as <-. cbn. repeat split.
    apply andb_true_iff in Hfire. destruct Hfire as [Hlen Hc]. apply Nat.ltb_lt in Hlen.
    exists k, v. repeat split; try assumption. left. reflexivity.
  - intros Hr. destruct (IH r Hr) as [H1 [H2 [H3 [H4 [k' [v' [Hin Hrest]]]]]]].
    repeat split; try assumption. exists k', v'. split; [right; exact Hin|exact Hrest].
Qed.

Lemma best_by_range (score_of : string -> string -> Q) s ctx :
  (forall a b, (0 <= score_of a b <= 1)%Q) ->
  (0 <= snd (fst (best_by score_of s ctx)) <= 1)%Q.
Proof.
  intros Hsc. unfold best_by.
  assert (Hgen : forall st : Best,
            (0 <= snd (fst st) <= 1)%Q ->
            (0 <= snd (fst (List.fold_left
               (fun '(best_chunk, best_score, best_excerpt) chunk =>
                  let score := score_of s (cc_content chunk) in
                  if gt score best_score then
                    (Some (cc_chunk_id chunk), score,
                     _find_matching_excerpt s (cc_content chunk) default_max_length)
                  else (best_chunk, best_score, best_excerpt)) ctx st)) <= 1)%Q).
  { induction ctx as [|c ctx IH]; intros st Hst; [exact Hst|].
    cbn [List.fold_left]. apply IH. destruct st as [[bc bs] be]. cbv zeta.
    destruct (gt _ bs); cbn [fst snd]; [apply Hsc|exact Hst]. }
  apply Hgen. cbn. split; [apply Qle_refl|discriminate].
Qed.

Lemma singleton_if_id_length o : (List.length (singleton_if_id o) <= 1)%nat.
Proof. destruct o as [s|]; cbn; [destruct (nonempty s)|]; cbn; lia. Qed.

(** X14.  What [_validate_sentence] returns for a sentence: a result for
    that sentence, with a confidence between 0 and 1 and at most one
    matched chunk.  It is grounded exactly when its match type is not
    UNGROUNDED, and an ungrounded result names no chunk and no excerpt.
    The confidence tells the strategy that fired: above 0.5 for a citation
    check, 1 for an exact match, above 0.6 for a paraphrase, above 0.7 for
    an inference, and at most 0.7 when nothing fired. *)
Theorem validate_sentence_result `{EmbeddingModel} (cfg : Settings) (s : string)
    (context_chunks : list ContextChunk) (content_index : list (string * string)) :
  let r := _validate_sentence cfg s context_chunks content_index in
  sentence r = s
  /\ (0 <= confidence r <= 1)%Q
  /\ (is_grounded r = true <-> match_type r <> UNGROUNDED)
  /\ (is_grounded r = false -> matched_chunks r = [] /\ matched_excerpts r = [])
  /\ (List.length (matched_chunks r) <= 1)%nat
  /\ match match_type r with
     | CITED => (5 # 10 < confidence r)%Q
     | EXACT => (confidence r == 1)%Q
     | PARAPHRASE => (6 # 10 < confidence r)%Q
     | INFERRED => (7 # 10 < confidence r)%Q
     | UNGROUNDED => (confidence r <= 7 # 10)%Q
     end.
Proof.
  intros r. unfold r, _validate_sentence. cbv zeta.
  destruct (check_citations cfg s context_chunks (findall_markers s)) as [rc|] eqn:Hc.
  { destruct (check_citations_result _ _ _ _ _ Hc)
      as [H1 [H2 [H3 [H4 [H5 [c [_ [H6 _]]]]]]]].
    rewrite H3, H2, H6.
    repeat split; solve [assumption | discriminate | apply H5 | cbn; lia]. }
  destruct (check_exact s (lower s) content_index) as [re|] eqn:He.
  { destruct (check_exact_result _ _ _ _ He) as [H1 [H2 [H3 [H4 [k [v [_ [H5 _]]]]]]]].
    rewrite H3, H2, H4, H5.
    repeat split; solve [assumption | discriminate | reflexivity | cbn; lia]. }
  pose proof (best_by_range _fuzzy_match_score s context_chunks
                fuzzy_score_bounds) as Hf.
  pose proof (best_by_range (_semantic_similarity cfg) s context_chunks
                (semantic_similarity_range cfg)) as Hs.
  destruct (best_by _fuzzy_match_score s context_chunks) as [[fc fs] fe].
  destruct (best_by (_semantic_similarity cfg) s context_chunks) as [[sc ss] se].
  cbn [fst snd] in Hf, Hs.
  destruct (gt fs (6 # 10)) eqn:Hgf.
  { apply gt_iff in Hgf. cbn. repeat split; try apply Hf; try discriminate.
    - apply singleton_if_id_length.
    - exact Hgf. }
  destruct (gt ss (7 # 10)) eqn:Hgs.
  { apply gt_iff in Hgs. cbn. repeat split; try apply Hs; try discriminate.
    - apply singleton_if_id_length.
    - exact Hgs. }
  apply gt_false in Hgf, Hgs. cbn. repeat split; try discriminate.
  - eapply Qle_trans; [apply Hf|apply Q.le_max_l].
  - apply Q.max_lub; [apply Hf|apply Hs].
  - intros Hne. contradiction.
  - lia.
  - apply Q.max_lub; [|exact Hgs]. eapply Qle_trans; [exact Hgf|discriminate].
Qed.

(** ** The whole answer *)

Lemma grounded_count_le results : (grounded_count results <= List.length results)%nat.
Proof. unfold grounded_count. apply List.filter_length_le. Qed.

Lemma grounded_count_all results :
  grounded_count results = List.length results
  <-> Forall (fun g => is_grounded g = true) results.
Proof.
  unfold grounded_count. induction results as [|g results IH]; cbn [List.filter List.length].
  - split; [constructor|reflexivity].
  - destruct (is_grounded g) eqn:Hg; cbn [List.length].
    + split.
      * intros E. constructor; [exact Hg|]. apply IH. lia.
      * intros Hall. inversion Hall; subst. f_equal. apply IH. assumption.
    + pose proof (List.filter_length_le is_grounded results). split; [lia|].
      intros Hall. inversion Hall; subst. congruence.
Qed.

Lemma grounded_count_none results :
  grounded_count results = 0%nat <-> Forall (fun g => is_grounded g = false) results.
Proof.
  unfold grounded_count. induction results as [|g results IH]; cbn [List.filter].
  - split; [constructor|reflexivity].
  - destruct (is_grounded g) eqn:Hg; cbn [List.length].
    + split; [discriminate|]. intros Hall. inversion Hall; subst. congruence.
    + rewrite IH. split; [intros Hall; constructor; assumption|].
      intros Hall. inversion Hall; subst. assumption.
Qed.

(** The score and the results of an answer, whatever the input. *)
Lemma validate_answer_score `{EmbeddingModel} cfg answer ctx :
  let r := validate_answer cfg answer ctx in
  grounding_score r
  = match sentence_results r with
    | [] => 0%Q
    | _ :: _ => (inject_Z (Z.of_nat (grounded_count (sentence_results r)))
                 / inject_Z (Z.of_nat (List.length (sentence_results r))))%Q
    end.
Proof.
  unfold validate_answer. destruct (negb (nonempty answer) || is_nil ctx); reflexivity.
Qed.

(** X15.  The grounding score of an answer lies between 0 and 1.  It is 1
    exactly when the answer has sentences and every one of them is
    grounded, and 0 exactly when none is (as for an empty answer or an empty
    context, which give no sentence results at all). *)
Theorem grounding_score_range `{EmbeddingModel} (cfg : Settings) (answer : string)
    (context_chunks : list ContextChunk) :
  let r := validate_answer cfg answer context_chunks in
  (0 <= grounding_score r <= 1)%Q
  /\ ((grounding_score r == 1)%Q
      <-> sentence_results r <> []
          /\ Forall (fun g => is_grounded g = true) (sentence_results r))
  /\ ((grounding_score r == 0)%Q
      <-> Forall (fun g => is_grounded g = false) (sentence_results r))
  /\ ((answer = EmptyString \/ context_chunks = []) ->
      sentence_results r = [] /\ is_valid r = false /\ errors r = []).
Proof.
  intros r. pose proof (validate_answer_score cfg answer context_chunks) as Hscore.
  fold r in Hscore. cbv zeta in Hscore. rewrite Hscore.
  split; [|split; [|split]].
  - destruct (sentence_results r) as [|g results] eqn:Hres.
    + split; [apply Qle_refl|discriminate].
    + apply ratio_range; [apply grounded_count_le|cbn; lia].
  - destruct (sentence_results r) as [|g results] eqn:Hres.
    + split; [intros Heq; discriminate Heq|intros [Hne _]; contradiction].
    + rewrite ratio_one by (cbn; lia). rewrite grounded_count_all.
      split; [intros Hall; split; [discriminate|exact Hall]|intros [_ Hall]; exact Hall].
  - destruct (sentence_results r) as [|g results] eqn:Hres.
    + split; [constructor|reflexivity].
    + rewrite ratio_zero by (cbn; lia). apply grounded_count_none.
  - intros Hempty. unfold r, validate_answer.
    assert (Hb : negb (nonempty answer) || is_nil context_chunks = true).
    { destruct Hempty as [-> | ->]; [reflexivity|apply orb_true_r]. }
    rewrite Hb. repeat split.
Qed.

(** ** Rejection *)

(** X16.  [reject_if_ungrounded] on the result of [validate_answer], for a
    non-empty answer and a non-empty context: the answer is let through
    exactly when its grounding score is at least 0.5 and at least the
    configured minimum; an answer let through is valid and comes without a
    reason; a rejection always gives a reason, and below 0.5 the reason is
    the error of the validation. *)
Theorem reject_if_ungrounded_decision `{EmbeddingModel} `{PercentFormat} (cfg : Settings)
    (answer : string) (context_chunks : list ContextChunk) :
  answer <> EmptyString -> context_chunks <> [] ->
  let r := validate_answer cfg answer context_chunks in
  let decision := reject_if_ungrounded cfg r in
  (fst decision = false
   <-> (5 # 10 <= grounding_score r)%Q
       /\ (MIN_GROUNDING_CONFIDENCE cfg <= grounding_score r)%Q)
  /\ (fst decision = false -> is_valid r = true /\ snd decision = None)
  /\ (fst decision = true -> exists reason, snd decision = Some reason)
  /\ ((grounding_score r < 5 # 10)%Q ->
      decision = (true, Some "Less than 50% of the answer is grounded in sources")).
Proof.
  intros Ha Hc r decision.
  destruct (validate_answer_unfold cfg answer context_chunks Ha Hc) as [_ [Hs [Hv He]]].
  cbv zeta in Hs, Hv, He. fold r in Hs, Hv, He.
  set (score := grounding_score r) in *.
  unfold decision, reject_if_ungrounded. fold score.
  rewrite He, Hv. rewrite <- Hs. clear He Hv Hs.
  destruct (gt (5 # 10) score) eqn:Hlow.
  - apply gt_iff in Hlow. cbn [fst snd]. split; [|split; [|split]].
    + split; [discriminate|]. intros [Hge _]. exfalso. apply (Qlt_not_le _ _ Hlow Hge).
    + discriminate.
    + intros _. eauto.
    + intros _. reflexivity.
  - apply gt_false in Hlow.
    destruct (gt (MIN_GROUNDING_CONFIDENCE cfg) score) eqn:Hmin.
    + apply gt_iff in Hmin. cbn [fst snd]. split; [|split; [|split]].
      * split; [discriminate|]. intros [_ Hge]. exfalso. apply (Qlt_not_le _ _ Hmin Hge).
      * discriminate.
      * intros _. eauto.
      * intros Hlt. exfalso. apply (Qlt_not_le _ _ Hlt Hlow).
    + apply gt_false in Hmin. cbn [fst snd]. split; [|split; [|split]].
      * split; [intros _; split; assumption|reflexivity].
      * intros _. split; [apply ge_iff; exact Hmin|reflexivity].
      * discriminate.
      * intros Hlt. exfalso. apply (Qlt_not_le _ _ Hlt Hlow).
Qed.

Lemma reject_if_ungrounded_decision_witness :
  let fmt : PercentFormat := {| format_percent := fun _ => "?" |} in
  let answer := "Paris is the capital of France. Berlin is big." in
  let r := @validate_answer null_embedding settings answer paris_context in
  answer <> EmptyString /\ paris_context <> []
  /\ (grounding_score r == 5 # 10)%Q
  /\ fst (@reject_if_ungrounded fmt settings r) = true
  /\ exists reason, snd (@reject_if_ungrounded fmt settings r) = Some reason.
Proof.
  intros fmt answer r.
  assert (Ha : answer <> EmptyString) by discriminate.
  assert (Hc : paris_context <> []) by discriminate.
  assert (Hrej : fst (@reject_if_ungrounded fmt settings r) = true) by (vm_compute; reflexivity).
  split; [exact Ha|]. split; [exact Hc|]. split; [vm_compute; reflexivity|].
  split; [exact Hrej|].
  destruct (@reject_if_ungrounded_decision null_embedding fmt settings answer paris_context
              Ha Hc) as [_ [_ [Hreason _]]].
  apply Hreason. exact Hrej.
Defined.

(** ** Sentences and excerpts *)

Lemma all_chars_push (p : ascii -> bool) c pieces :
  p c = true -> Forall (fun x => all_chars p x = true) pieces ->
  Forall (fun x => all_chars p x = true) (push c pieces).
Proof.
  intros Hc Hall. destruct Hall as [|x pieces Hx Hrest]; cbn [push].
  - constructor; [cbn [all_chars]; rewrite Hc; reflexivity|constructor].
  - constructor; [cbn [all_chars]; rewrite Hc, Hx; reflexivity|exact Hrest].
Qed.

Lemma split_char_pieces (sep : ascii) (s : string) :
  Forall (fun x => all_chars (fun c => negb (Ascii.eqb c sep)) x = true) (split_char sep s).
Proof.
  induction s as [|c s IH]; cbn [split_char].
  - constructor; [reflexivity|constructor].
  - destruct (Ascii.eqb c sep) eqn:Hc.
    + constructor; [reflexivity|exact IH].
    + apply all_chars_push; [rewrite Hc; reflexivity|exact IH].
Qed.

(** The pieces between the sentence ends: the first is a prefix of the text
    and every other one occurs in it. *)
Lemma marked_pieces_occur (text : string) : forall before,
  exists r rs, split_char newline (mark_sentence_ends before text) = r :: rs
               /\ String.prefix r text = true
               /\ Forall (fun x => contains x text = true) rs.
Proof.
  induction text as [|c text IH]; intros before; cbn [mark_sentence_ends split_char].
  - exists EmptyString, []. repeat split. constructor.
  - destruct (IH (c :: before)) as [r [rs [Hsplit [Hr Hrs]]]]. rewrite Hsplit.
    assert (Hlater : Forall (fun x => contains x (String c text) = true) (r :: rs)).
    { constructor.
      - rewrite contains_step. apply orb_true_iff. right.
        rewrite contains_step, Hr. reflexivity.
      - eapply List.Forall_impl; [|exact Hrs]. intros x Hx.
        rewrite contains_step, Hx. apply orb_true_r. }
    destruct (Ascii.eqb (if is_space c && ends_sentence before then newline else c) newline)
      eqn:Hnl.
    + exists EmptyString, (r :: rs). split; [reflexivity|]. split; [reflexivity|exact Hlater].
    + assert (Hc : (if is_space c && ends_sentence before then newline else c) = c).
      { destruct (is_space c && ends_sentence before); [|reflexivity].
        rewrite Ascii.eqb_refl in Hnl. discriminate. }
      rewrite Hc. cbn [push]. exists (String c r), rs. split; [reflexivity|]. split.
      * cbn [String.prefix]. destruct (ascii_dec c c); [exact Hr|contradiction].
      * inversion Hlater; assumption.
Qed.

(** X17.  Every sentence [_split_sentences] returns is non-empty, has no
    whitespace at either end ([strip] leaves it as it is), holds no line
    break, and occurs as it stands in the text that was split. *)
Theorem split_sentences_shape (text s : string) :
  In s (_split_sentences text) ->
  s <> EmptyString
  /\ strip s = s
  /\ all_chars not_newline s = true
  /\ contains s text = true.
Proof.
  unfold _split_sentences. rewrite List.filter_In, in_map_iff.
  intros [[piece [<- Hpiece]] Hne].
  split; [intros E; rewrite E in Hne; discriminate|]. split; [apply strip_idem|]. split.
  - apply (all_chars_occurs _ _ piece (strip_occurs piece)).
    pose proof (split_char_pieces newline (mark_sentence_ends [] text)) as Hall.
    rewrite List.Forall_forall in Hall. apply Hall. exact Hpiece.
  - apply (contains_trans _ piece); [apply strip_occurs|].
    destruct (marked_pieces_occur text []) as [r [rs [Hsplit [Hr Hrs]]]].
    rewrite Hsplit in Hpiece. destruct Hpiece as [<-|Hin].
    + rewrite contains_step, Hr. reflexivity.
    + rewrite List.Forall_forall in Hrs. apply Hrs. exact Hin.
Qed.

Lemma split_sentences_shape_witness :
  let text := "Paris is big.  It is old." in
  In "It is old." (_split_sentences text)
  /\ strip "It is old." = "It is old."
  /\ contains "It is old." text = true.
Proof.
  intros text.
  assert (Hin : In "It is old." (_split_sentences text)) by (vm_compute; right; left; reflexivity).
  destruct (split_sentences_shape text "It is old." Hin) as [_ [Hs [_ Hc]]].
  split; [exact Hin|]. split; [exact Hs|exact Hc].
Defined.

Lemma excerpt_loop sentence all todo : forall st,
  (forall x, In x todo -> In x all) ->
  best_of sentence all st ->
  best_of sentence all
    (List.fold_left
       (fun '(best_excerpt, best_score) excerpt =>
          let excerpt_words := word_set (lower excerpt) in
          let overlap := size (word_set (lower sentence) ∩ excerpt_words) in
          if Nat.ltb best_score overlap then (excerpt, overlap)
          else (best_excerpt, best_score))
       todo st).
Proof.
  induction todo as [|x todo IH]; intros st Hsub Hst; [exact Hst|].
  cbn [List.fold_left]. apply IH; [intros y Hy; apply Hsub; right; exact Hy|].
  destruct st as [be bs]. cbv zeta.
  destruct (Nat.ltb_spec bs (size (word_set (lower sentence) ∩ word_set (lower x))))
    as [Hlt|Hge]; [|exact Hst].
  right. cbn [fst snd]. unfold shared_words.
  split; [apply Hsub; left; reflexivity|]. split; [lia|reflexivity].
Qed.

(** X18.  The excerpt [_find_matching_excerpt] returns is never longer than
    [max_length] plus the three dots.  It is empty, or it is taken from a
    sentence of the content that shares a word with the sentence: that
    sentence itself when it fits, its first [max_length] characters
    followed by three dots when it does not. *)
Theorem find_matching_excerpt_bound (sentence content : string) (max_length : nat) :
  let excerpt := _find_matching_excerpt sentence content max_length in
  (String.length excerpt <= max_length + 3)%nat
  /\ (excerpt = EmptyString
      \/ exists x,
           In x (_split_sentences content)
           /\ (0 < shared_words sentence x)%nat
           /\ ((String.length x <= max_length)%nat /\ excerpt = x
               \/ (max_length < String.length x)%nat
                  /\ excerpt = (take max_length x ++ "...")%string)).
Proof.
  intros excerpt. unfold excerpt, _find_matching_excerpt. cbv zeta.
  pose proof (excerpt_loop sentence (_split_sentences content) (_split_sentences content)
                (EmptyString, 0%nat) (fun x Hx => Hx) (or_introl (conj eq_refl eq_refl)))
    as Hbest.
  destruct (List.fold_left _ (_split_sentences content) (EmptyString, 0%nat)) as [be bs].
  unfold best_of in Hbest. cbn [fst snd] in Hbest.
  destruct (Nat.ltb_spec max_length (String.length be)) as [Hlong|Hfits].
  - split.
    + rewrite length_append, take_length. cbn [String.length]. lia.
    + destruct Hbest as [[-> _]|[Hin [Hshared _]]]; [cbn in Hlong; lia|].
      right. exists be. split; [exact Hin|]. split; [exact Hshared|]. right. auto.
  - split; [lia|].
    destruct Hbest as [[-> _]|[Hin [Hshared _]]]; [left; reflexivity|].
    right. exists be. split; [exact Hin|]. split; [exact Hshared|]. left. auto.
Qed.

End GroundingDecisions.

(* ===================================================================== *)
(** * Extraction of quotes *)
(* ===================================================================== *)

Module QuoteExtraction.
Import Text Context Extractive Samples ExtractiveSpec.
Import Tokenizer TextFacts.
Local Open Scope list_scope.

Lemma span_eq (p : ascii -> bool) (s a b : string) :
  span p s = (a, b) ->
  s = (a ++ b)%string /\ all_chars p a = true.
Proof.
  intros Hs. destruct (span_split p s) as [H1 [H2 _]]. rewrite Hs in H1, H2.
  split; assumption.
Qed.

(** What a match of the marker pattern at the head of [s] looks like. *)
Lemma match_marker_shape (s ds : string) (n : nat) :
  match_marker s = Some (ds, n) ->
  ds <> EmptyString /\ all_chars is_digit ds = true
  /\ exists rest, s = ("[" ++ ds ++ "]" ++ rest)%string.
Proof.
  unfold match_marker. destruct s as [|c s1]; [discriminate|].
  destruct (Ascii.eqb c lbracket) eqn:Hc; [|discriminate].
  apply Ascii.eqb_eq in Hc. subst c.
  destruct (span is_digit s1) as [d rest] eqn:Hspan.
  destruct (span_eq _ _ _ _ Hspan) as [Hs1 Hd].
  destruct d as [|d0 d']; [discriminate|]. destruct rest as [|r rest']; [discriminate|].
  destruct (Ascii.eqb r rbracket) eqn:Hr; [|discriminate].
  apply Ascii.eqb_eq in Hr. subst r.
  intros E. injection E as <- _.
  split; [discriminate|]. split; [exact Hd|]. exists rest'. rewrite Hs1. reflexivity.
Qed.

(** What a match of the quote pattern at the head of [s] looks like. *)
Lemma match_quote_shape (s q ds : string) (n : nat) :
  match_quote s = Some (q, ds, n) ->
  q <> EmptyString /\ all_chars not_dquote q = true
  /\ ds <> EmptyString /\ all_chars is_digit ds = true
  /\ exists ws rest,
       all_chars is_space ws = true
       /\ s = (String dquote q ++ String dquote ws ++ "[" ++ ds ++ "]" ++ rest)%string.
Proof.
  unfold match_quote. destruct s as [|c s1]; [discriminate|].
  destruct (Ascii.eqb c dquote) eqn:Hc; [|discriminate].
  apply Ascii.eqb_eq in Hc. subst c.
  destruct (span not_dquote s1) as [q0 r1] eqn:Hq.
  destruct (span_split not_dquote s1) as [Hs1 [Hq0 Hstop]]. rewrite Hq in Hs1, Hq0, Hstop.
  cbn [fst snd] in Hs1, Hq0, Hstop.
  destruct q0 as [|q1 q']; [discriminate|]. destruct r1 as [|c2 r2]; [discriminate|].
  assert (Hc2 : c2 = dquote).
  { unfold not_dquote in Hstop. apply negb_false_iff, Ascii.eqb_eq in Hstop. exact Hstop. }
  subst c2.
  destruct (span is_space r2) as [ws r3] eqn:Hws.
  destruct (span_eq _ _ _ _ Hws) as [Hr2 Hsp].
  destruct (match_marker r3) as [[ds0 n0]|] eqn:Hm; [|discriminate].
  intros E. injection E as <- <- _.
  destruct (match_marker_shape _ _ _ Hm) as [Hne [Hd [rest Hr3]]].
  split; [discriminate|]. split; [exact Hq0|]. split; [exact Hne|]. split; [exact Hd|].
  exists ws, rest. split; [exact Hsp|].
  rewrite Hs1, Hr2, Hr3. rewrite !append_cons. reflexivity.
Qed.

Lemma findall_quotes_from_in (q ds : string) (s : string) : forall skip,
  In (q, ds) (findall_quotes_from skip s) ->
  exists a t n, s = (a ++ t)%string /\ match_quote t = Some (q, ds, n).
Proof.
  induction s as [|c s IH]; intros skip; cbn [findall_quotes_from]; [intros []|].
  assert (Hlater : forall k, In (q, ds) (findall_quotes_from k s) ->
            exists a t n, String c s = (a ++ t)%string /\ match_quote t = Some (q, ds, n)).
  { intros k Hin. destruct (IH k Hin) as [a [t [n [Hs Hm]]]].
    exists (String c a), t, n. split; [rewrite Hs; reflexivity|exact Hm]. }
  destruct skip as [|k]; [|apply Hlater].
  destruct (match_quote (String c s)) as [[[q0 ds0] n0]|] eqn:Hm; [|apply Hlater].
  intros [E|Hin]; [|eapply Hlater; exact Hin].
  injection E as <- <-. exists EmptyString, (String c s), n0. split; [reflexivity|exact Hm].
Qed.

(** X19.  Every entry of [quotes] in a parsed response is a quotation of the
    response: its text is not empty, holds no double quote and stands in
    the response between two double quotes; its citation is a marker of
    the response, a bracketed number of decimal digits, which is the number
    of a context chunk; its source is the citation of that chunk, and it is
    verified exactly when that chunk contains the text, letter case
    apart. *)
Theorem parsed_quotes_shape (response : string) (context_chunks : list ContextChunk)
    (v : VerifiedQuote) :
  In v (quotes (_parse_extractive_response response context_chunks)) ->
  quote v <> EmptyString
  /\ all_chars not_dquote (quote v) = true
  /\ contains (String dquote (quote v) ++ String dquote EmptyString) response = true
  /\ contains (q_citation v) response = true
  /\ exists k c,
       q_citation v = ("[" ++ k ++ "]")%string
       /\ k <> EmptyString /\ all_chars is_digit k = true
       /\ (1 <= int_of_digits k <= Z.of_nat (List.length context_chunks))%Z
       /\ cited_chunk context_chunks k = Some c
       /\ source v = citation c
       /\ verified v = contains (lower (quote v)) (lower (cc_content c)).
Proof.
  unfold _parse_extractive_response.
  destruct (contains "NOT_FOUND" (upper response)); [intros []|].
  cbn [quotes]. rewrite in_flat_map. intros [[q ds] [Hfound Hv]].
  unfold verify_quote in Hv.
  destruct (in_range context_chunks ds) eqn:Hrange; [|destruct Hv].
  destruct (nth_error context_chunks _) as [c|] eqn:Hc; [|destruct Hv].
  destruct Hv as [<-|[]]. cbn [quote q_citation source verified].
  apply findall_quotes_from_in in Hfound. destruct Hfound as [a [t [n [Hresp Hm]]]].
  destruct (match_quote_shape _ _ _ _ Hm) as [Hq [Hqc [Hds [Hdig [ws [rest [_ Ht]]]]]]].
  split; [exact Hq|]. split; [exact Hqc|]. split; [|split].
  - apply contains_iff. exists a, (ws ++ "[" ++ ds ++ "]" ++ rest)%string.
    rewrite Hresp, Ht. rewrite !append_cons, !string_app_assoc. reflexivity.
  - apply contains_iff. exists (a ++ String dquote q ++ String dquote ws)%string, rest.
    rewrite Hresp, Ht. rewrite !append_cons, !string_app_assoc.
    rewrite !append_cons, !string_app_assoc. reflexivity.
  - exists ds, c. split; [reflexivity|]. split; [exact Hds|]. split; [exact Hdig|].
    unfold in_range in Hrange. cbv zeta in Hrange.
    apply andb_true_iff in Hrange. destruct Hrange as [Hlo Hhi].
    apply Z.leb_le in Hlo. apply Z.ltb_lt in Hhi.
    split; [lia|]. split; [exact Hc|]. split; reflexivity.
Qed.

Lemma parsed_quotes_shape_witness :
  let ctx := [context_chunk "c1" "Paris is the capital of France."] in
  let v := {| quote := "Paris"; q_citation := "[1]"; source := "notes.txt";
              verified := true |} in
  In v (quotes (_parse_extractive_response two_quotes ctx))
  /\ contains (String dquote "Paris" ++ String dquote EmptyString) two_quotes = true
  /\ contains "[1]" two_quotes = true.
Proof.
  intros ctx v.
  assert (Hin : In v (quotes (_parse_extractive_response two_quotes ctx)))
    by (vm_compute; left; reflexivity).
  destruct (parsed_quotes_shape two_quotes ctx v Hin) as [_ [_ [Hq [Hc _]]]].
  split; [exact Hin|]. split; [exact Hq|exact Hc].
Defined.

End QuoteExtraction.

(* ===================================================================== *)
(** * Storage of ingested documents *)
(* ===================================================================== *)

Module IngestionStorage.
Import Text Config Models Database Ingestion Samples IngestionSpec.
Import Tokenizer TextFacts IngestionFacts.
Local Open Scope list_scope.

(** ** Joining with a separator *)

Lemma join_cons sep x l :
  l <> [] -> join sep (x :: l) = (x ++ sep ++ join sep l)%string.
Proof. destruct l; [contradiction|reflexivity]. Qed.

Lemma join_one sep p : join sep [p] = p.
Proof. reflexivity. Qed.

Lemma join_merge sep xs a b ys :
  join sep (xs ++ (a ++ sep ++ b)%string :: ys) = join sep (xs ++ a :: b :: ys).
Proof.
  induction xs as [|x xs IH]; cbn [app].
  - destruct ys as [|y ys]; [reflexivity|].
    rewrite !join_cons_cons, !string_app_assoc. reflexivity.
  - rewrite !join_cons by (destruct xs; discriminate). rewrite IH. reflexivity.
Qed.

Lemma join_snoc sep l p :
  l <> [] -> join sep (l ++ [p]) = (join sep l ++ sep ++ p)%string.
Proof.
  induction l as [|x l IH]; [contradiction|]. intros _.
  destruct l as [|y l]; [reflexivity|].
  change ((x :: y :: l) ++ [p]) with (x :: (y :: l) ++ [p]).
  rewrite join_cons by discriminate. rewrite IH by discriminate.
  rewrite join_cons_cons, !string_app_assoc. reflexivity.
Qed.

Lemma join_not_empty sep l :
  l <> [] -> Forall (fun p => p <> EmptyString) l -> join sep l <> EmptyString.
Proof.
  destruct l as [|x l]; [contradiction|]. intros _ Hall.
  inversion Hall as [|? ? Hx _]; subst.
  destruct l as [|y l]; [exact Hx|]. rewrite join_cons_cons.
  destruct x; [contradiction|discriminate].
Qed.

(** ** The text kept by [_merge_small_chunks] *)

Lemma text_of_merge merged a b rest :
  text_of (merged ++ set_content a (content a ++ " " ++ content b)%string :: rest)
  = text_of (merged ++ a :: b :: rest).
Proof.
  unfold text_of. rewrite !map_app. cbn [List.map content set_content].
  apply join_merge.
Qed.

Lemma text_of_merge_into merged a b rest :
  text_of (merged ++ set_content b (content a ++ " " ++ content b)%string :: rest)
  = text_of (merged ++ a :: b :: rest).
Proof.
  unfold text_of. rewrite !map_app. cbn [List.map content set_content].
  apply join_merge.
Qed.

Lemma merge_step_text min_size st c rest :
  let st' := merge_step min_size st c in
  text_of ((fst st' ++ pending (snd st')) ++ rest)
  = text_of ((fst st ++ pending (snd st)) ++ c :: rest)
  /\ (List.length (fst st' ++ pending (snd st'))
      <= S (List.length (fst st ++ pending (snd st))))%nat
  /\ fst st' ++ pending (snd st') <> [].
Proof.
  destruct st as [merged buffer]. unfold merge_step. cbv zeta.
  destruct (is_small min_size c); destruct buffer as [b|]; cbn [fst snd pending].
  - unfold append_content. rewrite <- !app_assoc. cbn [app].
    split; [apply text_of_merge|]. split; [rewrite !length_app; cbn; lia|].
    destruct merged; discriminate.
  - rewrite app_nil_r, <- !app_assoc. cbn [app].
    split; [reflexivity|]. split; [rewrite length_app; cbn; lia|]. destruct merged; discriminate.
  - destruct (Nat.ltb (String.length (content b)) min_size); cbn [fst snd pending].
    + rewrite app_nil_r, <- !app_assoc. cbn [app].
      split; [apply text_of_merge_into|]. split; [rewrite !length_app; cbn; lia|].
      destruct merged; discriminate.
    + rewrite app_nil_r, <- !app_assoc. cbn [app].
      split; [reflexivity|]. split; [rewrite !length_app; cbn; lia|].
      destruct merged; discriminate.
  - rewrite !app_nil_r, <- !app_assoc. cbn [app].
    split; [reflexivity|]. split; [rewrite !length_app; cbn; lia|].
    destruct merged; discriminate.
Qed.

Lemma merge_loop_text min_size l : forall st,
  let st' := List.fold_left (merge_step min_size) l st in
  text_of (fst st' ++ pending (snd st')) = text_of ((fst st ++ pending (snd st)) ++ l)
  /\ (List.length (fst st' ++ pending (snd st'))
      <= List.length (fst st ++ pending (snd st)) + List.length l)%nat
  /\ (l <> [] -> fst st' ++ pending (snd st') <> []).
Proof.
  induction l as [|c l IH]; intros st; cbn [List.fold_left].
  - rewrite app_nil_r. split; [reflexivity|]. split; [lia|]. intros Hne. contradiction.
  - destruct (IH (merge_step min_size st c)) as [H1 [H2 H3]].
    destruct (merge_step_text min_size st c l) as [K1 [K2 K3]]. cbv zeta in *.
    split; [rewrite H1; exact K1|]. split; [cbn [List.length]; lia|].
    intros _. destruct l as [|c2 l]; [exact K3|]. apply H3. discriminate.
Qed.

Lemma append_to_last_text merged b :
  merged <> [] ->
  text_of (append_to_last merged b) = text_of (merged ++ [b])
  /\ List.length (append_to_last merged b) = List.length merged.
Proof.
  induction merged as [|c merged IH]; [contradiction|]. intros _.
  destruct merged as [|c2 merged].
  - cbn [append_to_last app]. split; [|reflexivity].
    apply (text_of_merge [] c b []).
  - destruct (IH ltac:(discriminate)) as [Ht Hl].
    change (append_to_last (c :: c2 :: merged) b)
      with (c :: append_to_last (c2 :: merged) b).
    split; [|cbn [List.length]; rewrite Hl; reflexivity].
    unfold text_of in *. cbn [List.map app].
    assert (Hne : List.map content (append_to_last (c2 :: merged) b) <> []).
    { intros E. apply (f_equal (@List.length _)) in E. rewrite length_map, Hl in E.
      discriminate. }
    rewrite join_cons by exact Hne. rewrite Ht. cbn [List.map app]. reflexivity.
Qed.

(** X24.  [_merge_small_chunks] neither loses nor reorders text: the
    contents of the chunks it returns, joined by spaces, are the contents of
    the chunks it was given, joined by spaces.  It never returns more
    chunks than it was given, and it returns none only when given none. *)
Theorem merge_small_chunks_text (chunks : list Chunk) (min_size : nat) :
  text_of (_merge_small_chunks chunks min_size) = text_of chunks
  /\ (List.length (_merge_small_chunks chunks min_size) <= List.length chunks)%nat
  /\ (_merge_small_chunks chunks min_size = [] <-> chunks = []).
Proof.
  unfold _merge_small_chunks.
  destruct (Nat.ltb_spec (List.length chunks) 2) as [Hshort|Hlong].
  { split; [reflexivity|]. split; [lia|reflexivity]. }
  destruct (merge_loop_text min_size chunks ([], None)) as [Ht [Hl Hne]].
  cbv zeta in *. cbn [fst snd pending app] in Ht, Hl.
  destruct (List.fold_left (merge_step min_size) chunks ([], None)) as [merged buffer].
  cbn [fst snd] in *.
  assert (Hchunks : chunks <> []) by (destruct chunks; [cbn in Hlong; lia|discriminate]).
  specialize (Hne Hchunks).
  destruct buffer as [b|]; cbn [pending] in *.
  - destruct merged as [|m merged].
    + cbn [app] in *. split; [exact Ht|]. split; [exact Hl|].
      split; [discriminate|intros E; contradiction].
    + destruct (append_to_last_text (m :: merged) b ltac:(discriminate)) as [Ht' Hl'].
      split; [rewrite Ht'; exact Ht|]. split.
      * rewrite Hl'. rewrite length_app in Hl. cbn [List.length] in *. lia.
      * split; [|intros E; contradiction].
        intros E. apply (f_equal (@List.length _)) in E. rewrite Hl' in E. discriminate.
  - rewrite app_nil_r in *. split; [exact Ht|]. split; [exact Hl|].
    split; [intros E; contradiction|intros E; contradiction].
Qed.

(** ** The chunks of one text *)

Section ChunkerSizes.
Context `{Readers} (cfg : Settings) (text : string) (document : Document) (page : option nat).

Lemma text_chunk_built pieces i :
  pieces <> [] -> Forall (fun p => p <> EmptyString) pieces ->
  sized cfg text (join " " pieces) ->
  text_chunk_of cfg text document page (text_chunk document page pieces i).
Proof.
  intros Hne Hall Hsized. unfold text_chunk_of, built_for, text_chunk.
  cbn [document_id id content page_number chunk_type content_hash].
  repeat split; try assumption. apply join_not_empty; assumption.
Qed.

Lemma flushed_then_added st piece :
  current_chunk st <> [] -> piece <> EmptyString -> sized cfg text piece ->
  chunker_ok cfg text document page st ->
  chunker_ok cfg text document page
    {| chunks := chunks (flush document page st);
       current_chunk := current_chunk (flush document page st) ++ [piece];
       current_length := current_length (flush document page st) + String.length piece + 1;
       next_index := next_index (flush document page st) |}.
Proof.
  intros Hne Hp Hsized [Hchunks [Hpieces Hlen]].
  unfold chunker_ok, within_size, flush.
  cbn [chunks current_chunk current_length next_index app].
  split; [|split; [|split]].
  - apply Forall_app. split; [exact Hchunks|]. constructor; [|constructor].
    destruct (current_chunk st) as [|x l] eqn:Hcur; [contradiction|].
    apply text_chunk_built; [discriminate|exact Hpieces|apply Hlen].
  - constructor; [exact Hp|constructor].
  - rewrite join_one. lia.
  - rewrite join_one. exact Hsized.
Qed.

Lemma add_piece_sized st piece :
  piece <> EmptyString -> sized cfg text piece ->
  chunker_ok cfg text document page st ->
  chunker_ok cfg text document page (add_piece cfg document page st piece).
Proof.
  intros Hp Hsized Hst. unfold add_piece.
  destruct (Nat.ltb_spec (CHUNK_SIZE cfg) (current_length st + String.length piece))
    as [Hover|Hfits]; cbn [andb].
  - destruct (current_chunk st) as [|x l] eqn:Hcur; cbn [is_nil negb].
    + destruct Hst as [Hchunks [_ Hlen]]. rewrite Hcur in Hlen.
      unfold chunker_ok, within_size. cbn [chunks current_chunk current_length]. rewrite Hcur.
      cbn [app]. split; [exact Hchunks|]. split; [constructor; [exact Hp|constructor]|].
      rewrite join_one. split; [lia|exact Hsized].
    + apply flushed_then_added; try assumption. rewrite Hcur. discriminate.
  - destruct Hst as [Hchunks [Hpieces Hlen]].
    unfold chunker_ok, within_size. cbn [chunks current_chunk current_length].
    split; [exact Hchunks|]. split.
    { apply Forall_app. split; [exact Hpieces|]. constructor; [exact Hp|constructor]. }
    destruct (current_chunk st) as [|x l] eqn:Hcur.
    + cbn [app]. rewrite join_one. split; [lia|exact Hsized].
    + destruct Hlen as [Hlen _].
      change ((x :: l) ++ [piece]) with (x :: (l ++ [piece])).
      change (x :: (l ++ [piece])) with ((x :: l) ++ [piece]).
      assert (Hjoin : join " " ((x :: l) ++ [piece])
                      = (join " " (x :: l) ++ " " ++ piece)%string)
        by (apply join_snoc; discriminate).
      change ((x :: l) ++ [piece]) with (x :: (l ++ [piece])) in Hjoin |- *.
      rewrite Hjoin, !length_append. cbn [String.length].
      split; [clear - Hlen; lia|].
      left. rewrite !length_append. cbn [String.length]. clear - Hlen Hfits. lia.
Qed.

Lemma add_sentences_sized para sentences : forall st,
  In para (re_split match_blank_line text) ->
  (CHUNK_SIZE cfg < String.length (strip para))%nat ->
  (forall s, In s sentences -> In s (re_split match_sentence_gap (strip para))) ->
  chunker_ok cfg text document page st ->
  chunker_ok cfg text document page
    (List.fold_left
       (fun st sent =>
          let sent := strip sent in
          if negb (nonempty sent) then st
          else add_piece cfg document page st sent)
       sentences st).
Proof.
  induction sentences as [|sent sentences IH]; intros st Hpara Hlong Hsub Hst; [exact Hst|].
  cbn [List.fold_left]. apply IH; try assumption.
  { intros s Hs. apply Hsub. right. exact Hs. }
  cbv zeta. destruct (strip sent) as [|c rest] eqn:Hsent; cbn [nonempty negb]; [exact Hst|].
  rewrite <- Hsent. apply add_piece_sized; [rewrite Hsent; discriminate| |exact Hst].
  destruct (Nat.le_gt_cases (String.length (strip sent)) (CHUNK_SIZE cfg)) as [Hle|Hgt].
  - left. exact Hle.
  - right. exists para, sent. split; [exact Hpara|]. split; [exact Hlong|].
    split; [apply Hsub; left; reflexivity|reflexivity].
Qed.

Lemma flush_sized st :
  current_chunk st <> [] -> chunker_ok cfg text document page st ->
  chunker_ok cfg text document page (flush document page st).
Proof.
  intros Hne [Hchunks [Hpieces Hlen]]. unfold chunker_ok, within_size, flush.
  cbn [chunks current_chunk current_length].
  split; [|split; [constructor|reflexivity]].
  apply Forall_app. split; [exact Hchunks|]. constructor; [|constructor].
  destruct (current_chunk st) as [|x l] eqn:Hcur; [contradiction|].
  apply text_chunk_built; [discriminate|exact Hpieces|apply Hlen].
Qed.

Lemma add_paragraph_sized st para :
  In para (re_split match_blank_line text) ->
  chunker_ok cfg text document page st ->
  chunker_ok cfg text document page (add_paragraph cfg document page st para).
Proof.
  intros Hpara Hst. unfold add_paragraph. cbv zeta.
  destruct (strip para) as [|c rest] eqn:Hstrip; cbn [nonempty negb]; [exact Hst|].
  rewrite <- Hstrip.
  destruct (Nat.ltb_spec (CHUNK_SIZE cfg) (String.length (strip para))) as [Hlong|Hshort].
  - apply (add_sentences_sized para); try assumption; [auto|].
    destruct (current_chunk st) as [|x l] eqn:Hcur; cbn [is_nil negb]; [exact Hst|].
    apply flush_sized; [rewrite Hcur; discriminate|exact Hst].
  - apply add_piece_sized; [rewrite Hstrip; discriminate|left; exact Hshort|exact Hst].
Qed.

Lemma add_paragraphs_sized todo : forall st,
  (forall p, In p todo -> In p (re_split match_blank_line text)) ->
  chunker_ok cfg text document page st ->
  chunker_ok cfg text document page (List.fold_left (add_paragraph cfg document page) todo st).
Proof.
  induction todo as [|para todo IH]; intros st Hsub Hst; [exact Hst|].
  cbn [List.fold_left]. apply IH; [intros p Hp; apply Hsub; right; exact Hp|].
  apply add_paragraph_sized; [apply Hsub; left; reflexivity|exact Hst].
Qed.

(** The chunks of one call of the chunker. *)
Lemma chunk_text_built :
  Forall (text_chunk_of cfg text document page)
    (_chunk_text_with_structure cfg text document page).
Proof.
  unfold _chunk_text_with_structure. cbv zeta.
  set (st := List.fold_left _ _ _).
  assert (Hst : chunker_ok cfg text document page st).
  { apply add_paragraphs_sized; [auto|].
    unfold chunker_ok, within_size. cbn. repeat split; constructor. }
  destruct Hst as [Hchunks [Hpieces Hlen]].
  destruct (current_chunk st) as [|x l] eqn:Hcur; cbn [is_nil negb]; [exact Hchunks|].
  apply Forall_app. split; [exact Hchunks|]. constructor; [|constructor].
  apply text_chunk_built; [discriminate|exact Hpieces|apply Hlen].
Qed.

End ChunkerSizes.

(** X23.  Every chunk [_chunk_text_with_structure] builds from a text has a
    content that is not empty and not longer than [CHUNK_SIZE], unless the
    content is one sentence of a paragraph longer than [CHUNK_SIZE], which
    is kept whole.  The chunk belongs to the document, is of type
    PARAGRAPH, is on the page given, and its hash is the first 32
    characters of the digest of its content. *)
Theorem chunk_text_sizes `{Readers} (cfg : Settings) (text : string) (document : Document)
    (page : option nat) (c : Chunk) :
  In c (_chunk_text_with_structure cfg text document page) ->
  content c <> EmptyString
  /\ ((String.length (content c) <= CHUNK_SIZE cfg)%nat
      \/ long_sentence cfg text (content c))
  /\ document_id c = doc_id document
  /\ page_number c = page
  /\ chunk_type c = PARAGRAPH
  /\ content_hash c = Some (take 32 (sha256_hex (content c))).
Proof.
  intros Hin. pose proof (chunk_text_built cfg text document page) as Hall.
  rewrite List.Forall_forall in Hall.
  destruct (Hall c Hin) as [[Hd [_ Hne]] [Hs [Hp [Ht Hh]]]]. auto 10.
Qed.

Lemma chunk_text_sizes_witness :
  let text := "Alpha beta." in
  let doc := new_document sample_uuid4 (file "notes.txt" ".txt") no_metadata in
  let c := @text_chunk sample_readers doc None ["Alpha beta."] 0 in
  In c (@_chunk_text_with_structure sample_readers settings text doc None)
  /\ content c <> EmptyString
  /\ chunk_type c = PARAGRAPH.
Proof.
  intros text doc c.
  assert (Hin : In c (@_chunk_text_with_structure sample_readers settings text doc None))
    by (vm_compute; left; reflexivity).
  destruct (@chunk_text_sizes sample_readers settings text doc None c Hin)
    as [Hne [_ [_ [_ [Ht _]]]]].
  split; [exact Hin|]. split; [exact Hne|exact Ht].
Defined.

(** ** The chunks of a document *)

Lemma built_for_content document c s :
  built_for document c -> s <> EmptyString -> built_for document (set_content c s).
Proof. intros [Hd [Hi _]] Hs. repeat split; assumption. Qed.

Lemma spaced_not_empty (a b : string) : (a ++ " " ++ b)%string <> EmptyString.
Proof. destruct a; discriminate. Qed.

Lemma merge_step_stable (Q : Chunk -> Prop) min_size st c :
  merge_stable Q -> Q c ->
  Forall Q (fst st ++ pending (snd st)) ->
  Forall Q (fst (merge_step min_size st c) ++ pending (snd (merge_step min_size st c))).
Proof.
  intros HQ Hc Hst. destruct st as [merged buffer]. unfold merge_step.
  cbn [fst snd] in Hst. apply Forall_app in Hst. destruct Hst as [Hm Hb].
  destruct (is_small min_size c); destruct buffer as [b|]; cbn [fst snd pending] in *.
  - apply Forall_app. split; [exact Hm|]. constructor; [|constructor].
    inversion Hb as [|? ? Hqb _]; subst. unfold append_content.
    apply (proj1 (HQ b c _ Hqb Hc eq_refl)).
  - apply Forall_app. split; [exact Hm|]. constructor; [exact Hc|constructor].
  - inversion Hb as [|? ? Hqb _]; subst.
    destruct (Nat.ltb (String.length (content b)) min_size); cbn [fst snd pending];
      rewrite app_nil_r; apply Forall_app; (split; [exact Hm|]).
    + constructor; [|constructor]. apply (proj2 (HQ b c _ Hqb Hc eq_refl)).
    + constructor; [exact Hqb|]. constructor; [exact Hc|constructor].
  - rewrite app_nil_r. apply Forall_app. split; [exact Hm|].
    constructor; [exact Hc|constructor].
Qed.

Lemma merge_loop_stable (Q : Chunk -> Prop) min_size l : forall st,
  merge_stable Q -> Forall Q l ->
  Forall Q (fst st ++ pending (snd st)) ->
  Forall Q (fst (List.fold_left (merge_step min_size) l st)
            ++ pending (snd (List.fold_left (merge_step min_size) l st))).
Proof.
  induction l as [|c l IH]; intros st HQ Hl Hst; [exact Hst|].
  cbn [List.fold_left]. inversion Hl; subst.
  apply IH; [exact HQ|assumption|]. apply merge_step_stable; assumption.
Qed.

Lemma append_to_last_stable (Q : Chunk -> Prop) merged b :
  merge_stable Q -> Forall Q merged -> Q b -> Forall Q (append_to_last merged b).
Proof.
  intros HQ Hm Hb. induction merged as [|c merged IH]; [constructor|].
  inversion Hm; subst. destruct merged as [|c2 merged].
  - cbn [append_to_last]. constructor; [|constructor]. unfold append_content.
    match goal with Hc : Q c |- _ => apply (proj1 (HQ c b _ Hc Hb eq_refl)) end.
  - change (append_to_last (c :: c2 :: merged) b)
      with (c :: append_to_last (c2 :: merged) b).
    constructor; [assumption|]. apply IH. assumption.
Qed.

Lemma merge_small_chunks_stable (Q : Chunk -> Prop) l min_size :
  merge_stable Q -> Forall Q l -> Forall Q (_merge_small_chunks l min_size).
Proof.
  intros HQ Hl. unfold _merge_small_chunks.
  destruct (Nat.ltb (List.length l) 2); [exact Hl|].
  pose proof (merge_loop_stable Q min_size l ([], None) HQ Hl (Forall_nil_2 _)) as Hloop.
  destruct (List.fold_left (merge_step min_size) l ([], None)) as [merged buffer].
  cbn [fst snd] in Hloop. apply Forall_app in Hloop. destruct Hloop as [Hm Hb].
  destruct buffer as [b|]; [|exact Hm]. cbn [pending] in Hb. inversion Hb; subst.
  destruct merged as [|m merged]; [constructor; [assumption|constructor]|].
  apply append_to_last_stable; assumption.
Qed.

Lemma unplaced_stable document : merge_stable (unplaced document).
Proof.
  intros a b s [Ha Hsa] [Hb Hsb] ->.
  split; (split; [apply built_for_content; [assumption|apply spaced_not_empty]|assumption]).
Qed.

Lemma nonempty_not_empty s : nonempty s = true -> s <> EmptyString.
Proof. destruct s; [discriminate|discriminate]. Qed.

Lemma structured_chunk_unplaced document text type level section weight :
  text <> EmptyString ->
  unplaced document (structured_chunk document text type level section weight).
Proof. intros Ht. repeat split. exact Ht. Qed.

Lemma docx_chunks_unplaced document paragraphs : forall section,
  Forall (unplaced document) (docx_chunks document section paragraphs).
Proof.
  induction paragraphs as [|[para_text para_style] rest IH]; intros section;
    cbn [docx_chunks]; [constructor|]. cbv zeta.
  destruct (strip para_text) as [|c t] eqn:Htext; cbn [nonempty negb]; [apply IH|].
  destruct (contains "heading" _); (constructor; [|apply IH]);
    apply structured_chunk_unplaced; discriminate.
Qed.

Lemma match_header_text line level text :
  match_header line = Some (level, text) -> text <> EmptyString.
Proof.
  unfold match_header. destruct (span is_hash line) as [hashes rest].
  destruct (span is_space rest) as [ws t]. cbv zeta.
  destruct (Nat.leb 1 _ && Nat.leb _ 6 && nonempty ws && nonempty t) eqn:Hc; [|discriminate].
  intros E. injection E as _ <-. apply andb_true_iff in Hc. destruct Hc as [_ Ht].
  apply nonempty_not_empty. exact Ht.
Qed.

Lemma markdown_chunks_unplaced document lines : forall section,
  Forall (unplaced document) (markdown_chunks document section lines).
Proof.
  induction lines as [|line rest IH]; intros section; cbn [markdown_chunks]; [constructor|].
  cbv zeta. destruct (strip line) as [|c t] eqn:Hline; cbn [nonempty negb]; [apply IH|].
  destruct (match_header (String c t)) as [[level text]|] eqn:Hh.
  - constructor; [|apply IH]. apply structured_chunk_unplaced.
    eapply match_header_text. exact Hh.
  - constructor; [|apply IH]. apply structured_chunk_unplaced. discriminate.
Qed.

Lemma html_chunks_unplaced document tags :
  Forall (unplaced document)
    (List.flat_map
       (fun '(tag, text) => if nonempty text then [html_chunk document tag text] else [])
       tags).
Proof.
  induction tags as [|[tag text] rest IH]; cbn [List.flat_map]; [constructor|].
  apply Forall_app. split; [|exact IH].
  destruct (nonempty text) eqn:Ht; [|constructor]. constructor; [|constructor].
  apply nonempty_not_empty in Ht. destruct tag; apply structured_chunk_unplaced; exact Ht.
Qed.

Lemma text_chunks_built `{Readers} cfg text document page :
  Forall (built_for document) (_chunk_text_with_structure cfg text document page).
Proof.
  eapply List.Forall_impl; [|apply chunk_text_built]. intros c Hc. apply Hc.
Qed.

Lemma pdf_chunks_built `{Readers} cfg document pages : forall page_num chunks,
  pdf_chunks cfg document page_num pages = inr chunks ->
  Forall (built_for document) chunks.
Proof.
  induction pages as [|[e|text] rest IH]; intros page_num chunks; cbn [pdf_chunks].
  - intros E. injection E as <-. constructor.
  - discriminate.
  - destruct (negb (nonempty (strip text))); [apply IH|].
    destruct (pdf_chunks cfg document (S page_num) rest) as [e|more] eqn:Hrest;
      [discriminate|].
    intros E. injection E as <-.
    apply Forall_app. split; [apply text_chunks_built|eapply IH; exact Hrest].
Qed.

(** What every processor returns. *)
Lemma process_document_built `{Readers} cfg document filepath d' chunks :
  _process_document cfg document filepath = inr (d', chunks) ->
  Forall (built_for document) chunks
  /\ (exists n, d' = set_page_count document n)
  /\ (file_type document = DOCX \/ file_type document = HTML
      \/ file_type document = MARKDOWN ->
      Forall (fun c => sequence_index c = None) chunks).
Proof.
  assert (Hweaken : forall l, Forall (unplaced document) l ->
            Forall (built_for document) l /\ Forall (fun c => sequence_index c = None) l).
  { intros l Hl. split; (eapply List.Forall_impl; [|exact Hl]); intros c Hc; apply Hc. }
  assert (Hsame : exists n, document = set_page_count document n).
  { exists (page_count document). symmetry. apply set_page_count_same. }
  unfold _process_document.
  destruct (file_type document) eqn:Htype.
  - unfold _process_pdf. destruct (pdf_pages filepath) as [e|pages]; [discriminate|].
    destruct (pdf_chunks cfg _ 1 pages) as [e|page_chunks] eqn:Hpages; [discriminate|].
    intros E. injection E as <- <-. split; [|split].
    + eapply List.Forall_impl; [|eapply pdf_chunks_built; exact Hpages].
      intros c Hc. exact Hc.
    + eauto.
    + intros [Hf|[Hf|Hf]]; discriminate.
  - unfold _process_docx. destruct (docx_paragraphs filepath) as [e|paragraphs]; [discriminate|].
    intros E. injection E as <- <-.
    destruct (Hweaken _ (merge_small_chunks_stable _ _ default_min_size
                           (unplaced_stable document)
                           (docx_chunks_unplaced document paragraphs None))) as [Hb Hs].
    split; [exact Hb|]. split; [exact Hsame|]. intros _. exact Hs.
  - unfold _process_text. destruct (read_text filepath) as [e|text]; [discriminate|].
    intros E. injection E as <- <-. split; [apply text_chunks_built|].
    split; [exact Hsame|]. intros [Hf|[Hf|Hf]]; discriminate.
  - unfold _process_html. destruct (html_tags filepath) as [e|tags]; [discriminate|].
    intros E. injection E as <- <-.
    destruct (Hweaken _ (merge_small_chunks_stable _ _ default_min_size
                           (unplaced_stable document)
                           (html_chunks_unplaced document tags))) as [Hb Hs].
    split; [exact Hb|]. split; [exact Hsame|]. intros _. exact Hs.
  - unfold _process_text. destruct (read_text filepath) as [e|text]; [discriminate|].
    intros E. injection E as <- <-. split; [apply text_chunks_built|].
    split; [exact Hsame|]. intros [Hf|[Hf|Hf]]; discriminate.
  - unfold _process_markdown. destruct (read_text filepath) as [e|text]; [discriminate|].
    intros E. injection E as <- <-.
    destruct (Hweaken _ (merge_small_chunks_stable _ _ default_min_size
                           (unplaced_stable document)
                           (markdown_chunks_unplaced document
                              (split_char newline text) None))) as [Hb Hs].
    split; [exact Hb|]. split; [exact Hsame|]. intros _. exact Hs.
  - unfold _process_image. destruct (ocr_text filepath) as [e|text]; [discriminate|].
    destruct (negb (nonempty (strip text))); intros E; injection E as <- <-.
    + split; [constructor|]. split; [exact Hsame|]. intros _. constructor.
    + split; [apply text_chunks_built|]. split; [exact Hsame|].
      intros [Hf|[Hf|Hf]]; discriminate.
Qed.

(** X25.  Whatever the file type, the chunks a processor returns belong to
    the document being processed, have no primary key yet and a content
    that is not empty; the document comes back as it was, but for its page
    count.  The DOCX, HTML and Markdown processors give none of their
    chunks a sequence index. *)
Theorem process_document_chunks `{Readers} (cfg : Settings) (document : Document)
    (filepath : Path) (d' : Document) (chunks : list Chunk) :
  _process_document cfg document filepath = inr (d', chunks) ->
  Forall (built_for document) chunks
  /\ (exists n, d' = set_page_count document n)
  /\ (file_type document = DOCX \/ file_type document = HTML
      \/ file_type document = MARKDOWN ->
      Forall (fun c => sequence_index c = None) chunks).
Proof. apply process_document_built. Qed.

Lemma process_document_chunks_witness :
  let doc := new_document sample_uuid4 (file "report.docx" ".docx") no_metadata in
  let out := @_process_document sample_readers settings doc (file "report.docx" ".docx") in
  exists d' chunks,
    out = inr (d', chunks)
    /\ List.length chunks = 2%nat
    /\ Forall (built_for doc) chunks
    /\ Forall (fun c => sequence_index c = None) chunks.
Proof.
  intros doc out.
  destruct out as [e|[d' chunks]] eqn:Hout; [vm_compute in Hout; discriminate|].
  exists d', chunks. split; [reflexivity|].
  destruct (@process_document_chunks sample_readers settings doc
              (file "report.docx" ".docx") d' chunks Hout) as [Hb [_ Hs]].
  split; [vm_compute in Hout; injection Hout as _ <-; reflexivity|].
  split; [exact Hb|]. apply Hs. left. reflexivity.
Defined.

(** ** What [ingest_file] stores *)


Lemma chunk_rows_from_spec uuid4 chunks : forall n,
  List.length (chunk_rows_from uuid4 n chunks) = List.length chunks
  /\ List.map id (chunk_rows_from uuid4 n chunks)
     = List.map uuid4 (List.seq n (List.length chunks))
  /\ List.map document_id (chunk_rows_from uuid4 n chunks) = List.map document_id chunks
  /\ List.map content (chunk_rows_from uuid4 n chunks) = List.map content chunks
  /\ List.map sequence_index (chunk_rows_from uuid4 n chunks)
     = List.map (fun c => Some (stored_sequence_index c)) chunks.
Proof.
  induction chunks as [|c chunks IH]; intros n; cbn [chunk_rows_from]; [repeat split|].
  destruct (IH (S n)) as [H1 [H2 [H3 [H4 H5]]]].
  cbn [List.length List.map List.seq id document_id content sequence_index chunk_row].
  rewrite H1, H2, H3, H4, H5. repeat split.
Qed.

Lemma chunks_of_commit db document rows did :
  Forall (fun c => document_id c <> did) (chunk_rows db) ->
  Forall (fun c => document_id c = did) rows ->
  chunks_of (commit db document rows) did = rows.
Proof.
  intros Hold Hnew. unfold chunks_of, commit. cbn [chunk_rows].
  rewrite List.filter_app.
  assert (H1 : List.filter (fun c => String.eqb (document_id c) did) (chunk_rows db) = []).
  { induction Hold as [|c l Hc _ IH]; [reflexivity|]. cbn [List.filter].
    destruct (String.eqb_spec (document_id c) did); [contradiction|exact IH]. }
  assert (H2 : List.filter (fun c => String.eqb (document_id c) did) rows = rows).
  { induction Hnew as [|c l Hc _ IH]; [reflexivity|]. cbn [List.filter].
    rewrite Hc, String.eqb_refl, IH. reflexivity. }
  rewrite H1, H2. reflexivity.
Qed.

(** The rows written for the chunks of a new document. *)
Lemma stored_rows_owned uuid4 document chunks n :
  Forall (built_for document) chunks ->
  Forall (fun c => document_id c = doc_id document) (chunk_rows_from uuid4 n chunks)
  /\ Forall (fun c => content c <> EmptyString /\ is_Some (sequence_index c))
       (chunk_rows_from uuid4 n chunks).
Proof.
  intros Hall. revert n. induction Hall as [|c l [Hd [_ Hc]] _ IH]; intros n;
    cbn [chunk_rows_from]; [split; constructor|].
  destruct (IH (S n)) as [H1 H2]. split; constructor; try assumption.
  split; [exact Hc|]. cbn. eauto.
Qed.

(** X21.  When a new file is processed without an exception, [ingest_file]
    returns the document in state INDEXED, under the first key drawn and
    without an error message; its [chunk_count] is the number of chunks
    the processor built, and is the number of chunk rows the database
    now holds for the document.  Those rows are the chunks built, in
    order, under the next keys drawn; each has a content that is not empty
    and a sequence index.  The rows of other documents are as before. *)
Theorem ingest_file_success `{Readers} (cfg : Settings) (uuid4 : nat -> string) (db : Db)
    (filepath : Path) (metadata : Metadata) (d' : Document) (chunks : list Chunk) :
  List.find (fun d => String.eqb (file_hash d) (_compute_file_hash filepath))
    (document_rows db) = None ->
  _process_document cfg (new_document uuid4 filepath metadata) filepath = inr (d', chunks) ->
  Forall (fun c => document_id c <> uuid4 0) (chunk_rows db) ->
  let db' := fst (ingest_file cfg uuid4 db filepath metadata) in
  let stored := chunks_of db' (uuid4 0) in
  exists d,
    snd (ingest_file cfg uuid4 db filepath metadata) = inr d
    /\ doc_id d = uuid4 0 /\ status d = INDEXED /\ error_message d = None
    /\ file_hash d = _compute_file_hash filepath
    /\ chunk_count d = List.length chunks
    /\ List.length stored = chunk_count d
    /\ document_rows db' = document_rows db ++ [d]
    /\ chunk_rows db' = chunk_rows db ++ stored
    /\ stored = chunk_rows_from uuid4 1 chunks
    /\ List.map id stored = List.map uuid4 (List.seq 1 (List.length chunks))
    /\ List.map content stored = List.map content chunks
    /\ Forall (fun c => content c <> EmptyString /\ is_Some (sequence_index c)) stored.
Proof.
  intros Hnew Hrun Hfresh db' stored.
  destruct (process_document_built _ _ _ _ _ Hrun) as [Hbuilt [[n Hd'] _]].
  set (d := set_status d' INDEXED (error_message d') (List.length chunks)).
  assert (Hout : ingest_file cfg uuid4 db filepath metadata
                 = (commit db d (chunk_rows_from uuid4 1 chunks), inr d)).
  { rewrite ingest_file_unfold, Hnew, Hrun. reflexivity. }
  destruct (stored_rows_owned uuid4 _ chunks 1 Hbuilt) as [Hown Hrows].
  assert (Hstored : stored = chunk_rows_from uuid4 1 chunks).
  { unfold stored, db'. rewrite Hout. cbn [fst].
    apply chunks_of_commit; [exact Hfresh|exact Hown]. }
  destruct (chunk_rows_from_spec uuid4 chunks 1) as [Hlen [Hids [_ [Hcontent _]]]].
  exists d. rewrite Hstored. unfold db'. rewrite Hout.
  cbn [fst snd commit chunk_rows document_rows].
  subst d d'. cbn [doc_id status error_message file_hash chunk_count set_status set_page_count
                   new_document].
  repeat split; try assumption; try reflexivity.
Qed.

Lemma ingest_file_success_witness :
  let report := file "report.pdf" ".pdf" in
  let out := @ingest_file sample_readers settings sample_uuid4 empty_db report no_metadata in
  List.find (fun d => String.eqb (file_hash d) (_compute_file_hash report))
    (document_rows empty_db) = None
  /\ Forall (fun c => document_id c <> sample_uuid4 0) (chunk_rows empty_db)
  /\ exists d,
       snd out = inr d /\ status d = INDEXED /\ chunk_count d = 2%nat
       /\ List.length (chunks_of (fst out) (sample_uuid4 0)) = chunk_count d
       /\ List.map id (chunks_of (fst out) (sample_uuid4 0)) = ["id-1"; "id-2"].
Proof.
  intros report out.
  assert (Hnew : List.find (fun d => String.eqb (file_hash d) (_compute_file_hash report))
                   (document_rows empty_db) = None) by reflexivity.
  assert (Hfresh : Forall (fun c => document_id c <> sample_uuid4 0) (chunk_rows empty_db))
    by constructor.
  split; [exact Hnew|]. split; [exact Hfresh|].
  destruct (@_process_document sample_readers settings
              (new_document sample_uuid4 report no_metadata) report)
    as [e|[d' chunks]] eqn:Hrun; [vm_compute in Hrun; discriminate|].
  destruct (@ingest_file_success sample_readers settings sample_uuid4 empty_db report
              no_metadata d' chunks Hnew Hrun Hfresh)
    as [d [Hd [_ [Hs [_ [_ [Hc [Hl [_ [_ [_ [Hids _]]]]]]]]]]]].
  assert (Hchunks : List.length chunks = 2%nat).
  { vm_compute in Hrun. injection Hrun as _ <-. reflexivity. }
  exists d. split; [exact Hd|]. split; [exact Hs|]. split; [rewrite Hc; exact Hchunks|].
  split; [exact Hl|]. unfold out. rewrite Hids, Hchunks. reflexivity.
Defined.






End IngestionStorage.

(* ===================================================================== *)
(** * Properties of the tokenizer utilities *)
(* ===================================================================== *)

Module TokenizerFacts.
Import Text Tokenizer Samples TextFacts RetrievalFacts RetrievalGuarantees.
Local Open Scope list_scope.

(** ** Tokens *)

(** Every token [tokenize] returns is a non-empty run of small
    letters and digits that occurs in the lowercased text.  The tokens
    [tokenize_without_stopwords] keeps are tokens of the text, in their
    order, that have more than two characters and are not stop words. *)
Lemma tokenize_shape (text t : string) :
  (In t (tokenize text) ->
   t <> EmptyString /\ all_chars is_token_char t = true
   /\ contains t (lower text) = true)
  /\ (In t (tokenize_without_stopwords text) <->
      In t (tokenize text) /\ ~ In t STOPWORDS /\ (2 < String.length t)%nat).
Proof.
  split.
  - unfold tokenize, findall_tokens. rewrite List.filter_In. intros [Hin Hchars].
    split; [|split; [exact Hchars|apply findall_words_occur; exact Hin]].
    unfold findall_words in Hin. apply List.filter_In in Hin.
    destruct Hin as [_ Hne]. intros E. rewrite E in Hne. discriminate.
  - unfold tokenize_without_stopwords.
    rewrite List.filter_In, andb_true_iff, negb_true_iff, Nat.ltb_lt.
    split; intros [Hin [Hstop Hlen]]; (split; [exact Hin|split; [|exact Hlen]]).
    + intros Hs. apply str_in_spec in Hs. congruence.
    + destruct (str_in t STOPWORDS) eqn:E; [|reflexivity].
      apply str_in_spec in E. contradiction.
Qed.

(** ** n-grams *)

Lemma py_slice_window {A} (l : list A) (i n : nat) :
  (i + n <= List.length l)%nat ->
  py_slice (Z.of_nat i) (Z.of_nat i + Z.of_nat n) l = firstn n (skipn i l).
Proof.
  intros Hfit. unfold py_slice.
  destruct (Z.ltb_spec (Z.of_nat i) 0) as [Hneg|_]; [lia|].
  destruct (Z.ltb_spec (Z.of_nat i + Z.of_nat n) 0) as [Hneg|_]; [lia|].
  rewrite !Z.min_l by lia.
  replace (Z.to_nat (Z.of_nat i + Z.of_nat n - Z.of_nat i)) with n by lia.
  rewrite Nat2Z.id. reflexivity.
Qed.

(** X26.  For a positive [n], [extract_ngrams] returns one n-gram for each
    place at which [n] consecutive tokens start, in order: the n-gram at
    place [i] joins the tokens [i], ..., [i + n - 1] with single spaces.
    There are as many as the tokens less [n - 1], and none when the text
    has fewer than [n] tokens. *)
Theorem extract_ngrams_windows (text : string) (n : Z) :
  (1 <= n)%Z ->
  let tokens := tokenize text in
  let k := Z.to_nat n in
  extract_ngrams text n
  = List.map (fun i => join " " (firstn k (skipn i tokens)))
      (List.seq 0 (List.length tokens + 1 - k))
  /\ List.length (extract_ngrams text n) = (List.length tokens + 1 - k)%nat
  /\ ((List.length tokens < k)%nat -> extract_ngrams text n = []).
Proof.
  intros Hn tokens k.
  assert (Hmain : extract_ngrams text n
                  = List.map (fun i => join " " (firstn k (skipn i tokens)))
                      (List.seq 0 (List.length tokens + 1 - k))).
  { unfold extract_ngrams. fold tokens.
    destruct (Z.ltb_spec (Z.of_nat (List.length tokens)) n) as [Hshort|Hfits].
    - replace (List.length tokens + 1 - k)%nat with 0%nat by lia. reflexivity.
    - replace (Z.to_nat (Z.of_nat (List.length tokens) - n + 1))
        with (List.length tokens + 1 - k)%nat by lia.
      apply map_ext_in. intros i Hi. apply in_seq in Hi.
      replace n with (Z.of_nat k) by lia.
      rewrite py_slice_window by lia. reflexivity. }
  split; [exact Hmain|]. split.
  - rewrite Hmain, length_map, length_seq. reflexivity.
  - intros Hshort. rewrite Hmain.
    replace (List.length tokens + 1 - k)%nat with 0%nat by lia. reflexivity.
Qed.

Lemma extract_ngrams_windows_witness :
  (1 <= 2)%Z
  /\ extract_ngrams "The quick brown fox" 2 = ["the quick"; "quick brown"; "brown fox"]
  /\ List.length (extract_ngrams "The quick brown fox" 2) = 3%nat.
Proof.
  assert (Hn : (1 <= 2)%Z) by lia.
  destruct (extract_ngrams_windows "The quick brown fox" 2 Hn) as [Hw [Hl _]].
  split; [exact Hn|]. split; [rewrite Hw; vm_compute; reflexivity|].
  rewrite Hl. vm_compute. reflexivity.
Defined.

(** ** Truncation *)

Lemma rfind_char_bound c s : (-1 <= rfind_char c s < Z.of_nat (String.length s))%Z.
Proof.
  induction s as [|a s IH]; cbn [rfind_char String.length]; [lia|].
  cbv zeta. destruct (Z.leb_spec 0 (rfind_char c s)); [lia|].
  destruct (Ascii.eqb a c); lia.
Qed.

Lemma str_slice_to_nonneg (k : Z) (s : string) :
  (0 <= k)%Z -> str_slice_to k s = take (Z.to_nat k) s.
Proof. intros Hk. unfold str_slice_to. destruct (Z.leb_spec 0 k); [reflexivity|lia]. Qed.

Lemma take_take (n m : nat) (s : string) : (n <= m)%nat -> take n (take m s) = take n s.
Proof.
  unfold take. revert m s. induction n as [|n IH]; intros m s Hle.
  - destruct (String.substring 0 m s); destruct s; reflexivity.
  - destruct m as [|m]; [lia|]. destruct s as [|c s]; [reflexivity|].
    cbn [String.substring]. rewrite IH by lia. reflexivity.
Qed.

(** X27.  For a limit that is not negative, [truncate_to_tokens] returns a
    text whose estimated token count is within the limit: at most
    [4 * max_tokens + 3] characters.  A text that fits comes back as it
    is; otherwise the result is a prefix of the text of at most
    [4 * max_tokens] characters, on its own or followed by three dots. *)
Theorem truncate_to_tokens_bound (text : string) (max_tokens : Z) :
  (0 <= max_tokens)%Z ->
  let result := truncate_to_tokens text max_tokens in
  (estimate_tokens result <= max_tokens)%Z
  /\ (Z.of_nat (String.length result) <= 4 * max_tokens + 3)%Z
  /\ ((Z.of_nat (String.length text) <= 4 * max_tokens)%Z -> result = text)
  /\ ((4 * max_tokens < Z.of_nat (String.length text))%Z ->
      exists k, (Z.of_nat k <= 4 * max_tokens)%Z
                /\ (result = take k text
                    \/ result = (take k text ++ "...")%string)).
Proof.
  intros Hm result.
  assert (Hshape :
    (Z.of_nat (String.length text) <= 4 * max_tokens)%Z /\ result = text
    \/ (4 * max_tokens < Z.of_nat (String.length text))%Z
       /\ exists k, (Z.of_nat k <= 4 * max_tokens)%Z
                    /\ (result = take k text \/ result = (take k text ++ "...")%string)).
  { unfold result, truncate_to_tokens. cbv zeta.
    destruct (Z.leb_spec (Z.of_nat (String.length text)) (max_tokens * 4)) as [Hfits|Hlong].
    { left. split; [lia|reflexivity]. }
    right. split; [lia|].
    rewrite (str_slice_to_nonneg (max_tokens * 4)) by lia.
    set (truncated := take (Z.to_nat (max_tokens * 4)) text).
    pose proof (rfind_char_bound period truncated) as Hlp.
    assert (Hlen : String.length truncated = Z.to_nat (max_tokens * 4)).
    { unfold truncated. rewrite take_length. lia. }
    destruct (Qlt_le_dec _ _) as [Hcut|Hdots].
    - assert (Hpos : (0 <= rfind_char period truncated)%Z).
      { destruct (Z.le_gt_cases 0 (rfind_char period truncated)) as [Hp|Hn]; [exact Hp|].
        exfalso. apply (Qlt_not_le _ _ Hcut).
        apply Qle_trans with 0%Q.
        - change 0%Q with (inject_Z 0). rewrite <- Zle_Qle. lia.
        - apply Qmult_le_0_compat; [|discriminate].
          change 0%Q with (inject_Z 0). rewrite <- Zle_Qle. lia. }
      rewrite str_slice_to_nonneg by (clear - Hpos; lia).
      exists (Z.to_nat (rfind_char period truncated + 1)).
      split; [clear - Hlp Hlen Hpos Hm; lia|]. left.
      unfold truncated. apply take_take. fold truncated. clear - Hlp Hlen Hpos Hm. lia.
    - exists (Z.to_nat (max_tokens * 4)). split; [lia|]. right. reflexivity. }
  assert (Hlen : (Z.of_nat (String.length result) <= 4 * max_tokens + 3)%Z).
  { destruct Hshape as [[Hfits ->]|[_ [k [Hk [-> | ->]]]]].
    - lia.
    - rewrite take_length.
      pose proof (Nat.le_min_l k (String.length text)) as Hmin. clear - Hk Hmin. lia.
    - rewrite length_append, take_length.
      change (String.length "...") with 3%nat.
      pose proof (Nat.le_min_l k (String.length text)) as Hmin. clear - Hk Hmin. lia. }
  split; [|split; [exact Hlen|split]].
  - unfold estimate_tokens.
    assert (Hlt : (Z.of_nat (String.length result) / 4 < max_tokens + 1)%Z)
      by (apply Z.div_lt_upper_bound; lia).
    lia.
  - intros Hfits. destruct Hshape as [[_ E]|[Hlong _]]; [exact E|lia].
  - intros Hlong. destruct Hshape as [[Hfits _]|[_ Hk]]; [lia|exact Hk].
Qed.

Lemma truncate_to_tokens_bound_witness :
  (0 <= 2)%Z
  /\ truncate_to_tokens "One. Two three four." 2 = "One. Two..."
  /\ (estimate_tokens (truncate_to_tokens "One. Two three four." 2) <= 2)%Z.
Proof.
  assert (Hm : (0 <= 2)%Z) by lia.
  destruct (truncate_to_tokens_bound "One. Two three four." 2 Hm) as [He _].
  split; [exact Hm|]. split; [vm_compute; reflexivity|exact He].
Defined.

End TokenizerFacts.

(* ===================================================================== *)
(** * Properties of the scoring utilities *)
(* ===================================================================== *)

Module ScoringFacts.
Import Text Scoring ScoringSpec Samples RetrievalFacts GroundingDecisions.
Local Open Scope list_scope.

(** ** Normalised scores *)

Lemma fold_min_le (l : list Q) : forall a,
  (List.fold_left Qmin l a <= a)%Q
  /\ forall x, In x l -> (List.fold_left Qmin l a <= x)%Q.
Proof.
  induction l as [|y l IH]; intros a; cbn [List.fold_left].
  - split; [apply Qle_refl|intros x []].
  - destruct (IH (Qmin a y)) as [Ha Hl]. split.
    + eapply Qle_trans; [exact Ha|apply Q.le_min_l].
    + intros x [<-|Hx]; [|apply Hl; exact Hx].
      eapply Qle_trans; [exact Ha|apply Q.le_min_r].
Qed.

Lemma fold_max_le (l : list Q) : forall a,
  (a <= List.fold_left Qmax l a)%Q
  /\ forall x, In x l -> (x <= List.fold_left Qmax l a)%Q.
Proof.
  induction l as [|y l IH]; intros a; cbn [List.fold_left].
  - split; [apply Qle_refl|intros x []].
  - destruct (IH (Qmax a y)) as [Ha Hl]. split.
    + eapply Qle_trans; [apply Q.le_max_l|exact Ha].
    + intros x [<-|Hx]; [|apply Hl; exact Hx].
      eapply Qle_trans; [apply Q.le_max_r|exact Ha].
Qed.

Lemma min_max_bounds (scores : list Q) s :
  In s scores -> (min_of scores <= s <= max_of scores)%Q.
Proof.
  destruct scores as [|a l]; [intros []|]. cbn [min_of max_of].
  destruct (fold_min_le l a) as [Hmin Hmins]. destruct (fold_max_le l a) as [Hmax Hmaxs].
  intros [<-|Hs]; split; auto.
Qed.

Lemma fold_max_attained (l : list Q) : forall a,
  exists x, In x (a :: l) /\ (x == List.fold_left Qmax l a)%Q.
Proof.
  induction l as [|y l IH]; intros a; cbn [List.fold_left].
  - exists a. split; [left; reflexivity|reflexivity].
  - destruct (IH (Qmax a y)) as [x [[<-|Hx] Heq]].
    + destruct (Q.max_dec a y) as [E|E].
      * exists a. split; [left; reflexivity|]. rewrite <- Heq. symmetry. exact E.
      * exists y. split; [right; left; reflexivity|]. rewrite <- Heq. symmetry. exact E.
    + exists x. split; [right; right; exact Hx|exact Heq].
Qed.

Lemma normalized_range (lo hi s : Q) :
  (lo <= s <= hi)%Q -> ~ (hi == lo)%Q -> (0 <= (s - lo) / (hi - lo) <= 1)%Q.
Proof.
  intros [Hlo Hhi] Hne.
  assert (Hpos : (0 < hi - lo)%Q).
  { assert (Hle : (lo <= hi)%Q) by (eapply Qle_trans; eassumption).
    destruct (Qlt_le_dec lo hi) as [Hlt|Hge].
    - rewrite <- (Qplus_opp_r lo). apply Qplus_lt_l. exact Hlt.
    - exfalso. apply Hne. apply Qle_antisym; assumption. }
  split.
  - apply Qle_shift_div_l; [exact Hpos|]. rewrite Qmult_0_l.
    rewrite <- (Qplus_opp_r lo). apply Qplus_le_l. exact Hlo.
  - apply Qle_shift_div_r; [exact Hpos|]. rewrite Qmult_1_l.
    apply Qplus_le_l. exact Hhi.
Qed.

Lemma normalized_values_unit (scores : list Q) :
  List.length (normalized_values scores) = List.length scores
  /\ Forall (fun x => (0 <= x <= 1)%Q) (normalized_values scores).
Proof.
  unfold normalized_values. destruct (is_nil scores) eqn:Hnil.
  { destruct scores; [split; [reflexivity|constructor]|discriminate]. }
  assert (Hin : forall s, In s scores -> (min_of scores <= s <= max_of scores)%Q)
    by (intros s; apply min_max_bounds).
  destruct (Qeq_bool (max_of scores) (min_of scores)) eqn:Heq.
  - split; [apply repeat_length|]. apply List.Forall_forall. intros x Hx.
    apply repeat_spec in Hx. subst x. split; [discriminate|apply Qle_refl].
  - split; [apply length_map|]. apply List.Forall_forall. intros x Hx.
    apply in_map_iff in Hx. destruct Hx as [s [<- Hs]].
    apply normalized_range; [apply Hin; exact Hs|].
    intros E. apply Qeq_bool_iff in E. congruence.
Qed.

Lemma normalized_values_spec (scores : list Q) :
  (scores <> [] -> exists x, In x (normalized_values scores) /\ (x == 1)%Q)
  /\ (forall i j a b, nth_error scores i = Some a -> nth_error scores j = Some b ->
        (a <= b)%Q ->
        exists a' b', nth_error (normalized_values scores) i = Some a'
                      /\ nth_error (normalized_values scores) j = Some b'
                      /\ (a' <= b')%Q).
Proof.
  split.
  - intros Hne. unfold normalized_values.
    destruct scores as [|a l] eqn:Hs; [contradiction|]. rewrite <- Hs.
    assert (Hnil : is_nil scores = false) by (rewrite Hs; reflexivity). rewrite Hnil.
    destruct (Qeq_bool (max_of scores) (min_of scores)) eqn:Heq.
    + exists 1%Q. split; [|reflexivity]. rewrite Hs. cbn. left. reflexivity.
    + assert (Hmax : exists s, In s scores /\ (s == max_of scores)%Q).
      { rewrite Hs. cbn [max_of]. apply fold_max_attained. }
      destruct Hmax as [s [Hin Hs']]. eexists. split; [apply in_map; exact Hin|].
      cbv beta. rewrite Hs'.
      assert (Hd : ~ (max_of scores - min_of scores == 0)%Q).
      { intros E. apply Qeq_bool_neq in Heq. apply Heq.
        rewrite <- (Qplus_0_l (min_of scores)), <- E. ring. }
      field. exact Hd.
  - intros i j a b Ha Hb Hab. unfold normalized_values.
    destruct scores as [|s0 l] eqn:Hs; [destruct i; discriminate|]. rewrite <- Hs in *.
    assert (Hnil : is_nil scores = false) by (rewrite Hs; reflexivity). rewrite Hnil.
    destruct (Qeq_bool (max_of scores) (min_of scores)) eqn:Heq.
    + exists 1%Q, 1%Q.
      assert (Hi : (i < List.length scores)%nat) by (apply nth_error_Some; congruence).
      assert (Hj : (j < List.length scores)%nat) by (apply nth_error_Some; congruence).
      assert (Hrep : forall m, (m < List.length scores)%nat ->
                nth_error (List.repeat 1%Q (List.length scores)) m = Some 1%Q).
      { intros m Hm. rewrite nth_error_repeat by exact Hm. reflexivity. }
      rewrite !Hrep by lia. repeat split. apply Qle_refl.
    + eexists. eexists. rewrite !nth_error_map, Ha, Hb. cbn [option_map].
      split; [reflexivity|]. split; [reflexivity|].
      assert (Hin : In a scores) by (eapply nth_error_In; exact Ha).
      pose proof (min_max_bounds scores a Hin) as [Hlo Hhi].
      assert (Hpos : (0 < max_of scores - min_of scores)%Q).
      { destruct (Qlt_le_dec (min_of scores) (max_of scores)) as [Hlt|Hge].
        - rewrite <- (Qplus_opp_r (min_of scores)). apply Qplus_lt_l. exact Hlt.
        - exfalso. apply Qeq_bool_neq in Heq. apply Heq. apply Qle_antisym; [exact Hge|].
          eapply Qle_trans; eassumption. }
      apply Qmult_le_compat_r; [|apply Qlt_le_weak, Qinv_lt_0_compat; exact Hpos].
      apply Qplus_le_l. exact Hab.
Qed.

(** ** Floats within the range *)

Lemma threshold_above_one : (1 < overflow_threshold)%Q.
Proof. reflexivity. Qed.

Lemma round_within (q : Q) :
  (0 <= q)%Q -> (q < overflow_threshold)%Q -> round q = Finite q.
Proof.
  intros H0 Hlt. unfold round.
  destruct (Qle_bool overflow_threshold q) eqn:Hhi.
  { apply Qle_bool_iff in Hhi. exfalso. apply (Qlt_irrefl q).
    eapply Qlt_le_trans; eassumption. }
  destruct (Qle_bool q (- overflow_threshold)) eqn:Hlo; [|reflexivity].
  apply Qle_bool_iff in Hlo. exfalso.
  assert (Hneg : (- overflow_threshold < 0)%Q) by reflexivity.
  apply (Qlt_irrefl 0). eapply Qle_lt_trans; [exact H0|].
  eapply Qle_lt_trans; [exact Hlo|exact Hneg].
Qed.

Lemma round_unit (q : Q) : (0 <= q <= 1)%Q -> round q = Finite q.
Proof.
  intros [H0 H1]. apply round_within; [exact H0|].
  eapply Qle_lt_trans; [exact H1|apply threshold_above_one].
Qed.

Lemma map_repeat {A B} (f : A -> B) (x : A) (n : nat) :
  List.map f (List.repeat x n) = List.repeat (f x) n.
Proof. induction n as [|n IH]; cbn; [reflexivity|rewrite IH; reflexivity]. Qed.

(** When no difference overflows, [normalize_scores] computes the
    normalised values. *)
Lemma normalize_scores_values (scores : list Q) :
  spread_in_range scores ->
  normalize_scores scores = List.map Finite (normalized_values scores).
Proof.
  unfold spread_in_range, normalize_scores, normalized_values. intros Hrange.
  destruct (is_nil scores); [reflexivity|].
  destruct (Qeq_bool (max_of scores) (min_of scores)) eqn:Heq.
  - rewrite map_repeat. reflexivity.
  - rewrite List.map_map. apply List.map_ext_in. intros s Hs.
    pose proof (min_max_bounds scores s Hs) as [Hlo Hhi].
    assert (Hne : ~ (max_of scores == min_of scores)%Q).
    { intros E. apply Qeq_bool_iff in E. congruence. }
    assert (Hs0 : (0 <= s - min_of scores)%Q).
    { rewrite <- (Qplus_opp_r (min_of scores)). apply Qplus_le_l. exact Hlo. }
    assert (Hsd : (s - min_of scores <= max_of scores - min_of scores)%Q)
      by (apply Qplus_le_l; exact Hhi).
    unfold fsub, fneg, fadd, fdiv.
    change (s + - min_of scores)%Q with (s - min_of scores)%Q.
    change (max_of scores + - min_of scores)%Q with (max_of scores - min_of scores)%Q.
    rewrite (round_within (s - min_of scores)%Q);
      [|exact Hs0|eapply Qle_lt_trans; [exact Hsd|exact Hrange]].
    rewrite (round_within (max_of scores - min_of scores)%Q);
      [|eapply Qle_trans; [exact Hs0|exact Hsd]|exact Hrange].
    apply round_unit. apply normalized_range; [split; assumption|exact Hne].
Qed.

(** X28.  For scores whose differences stay below the overflow threshold of
    binary64, [normalize_scores] returns one finite number between 0 and 1
    for each score, in order; the best score of a non-empty list is mapped
    to 1; when all scores are equal every one of them is mapped to 1; and
    two scores keep their order. *)
Theorem normalize_scores_range (scores : list Q) :
  spread_in_range scores ->
  exists values,
    normalize_scores scores = List.map Finite values
    /\ List.length values = List.length scores
    /\ Forall (fun x => (0 <= x <= 1)%Q) values
    /\ (scores <> [] -> exists x, In x values /\ (x == 1)%Q)
    /\ (max_of scores == min_of scores -> Forall (fun x => x == 1) values)%Q
    /\ (forall i j a b, nth_error scores i = Some a -> nth_error scores j = Some b ->
          (a <= b)%Q ->
          exists a' b', nth_error values i = Some a' /\ nth_error values j = Some b'
                        /\ (a' <= b')%Q).
Proof.
  intros Hrange. exists (normalized_values scores).
  destruct (normalized_values_unit scores) as [Hlen Hunit].
  destruct (normalized_values_spec scores) as [Hbest Hmono].
  split; [apply normalize_scores_values; exact Hrange|].
  split; [exact Hlen|]. split; [exact Hunit|]. split; [exact Hbest|].
  split; [|exact Hmono].
  intros Heq. unfold normalized_values. destruct (is_nil scores); [constructor|].
  apply Qeq_bool_iff in Heq. rewrite Heq.
  apply List.Forall_forall. intros x Hx. apply repeat_spec in Hx. subst x. reflexivity.
Qed.

Lemma normalize_scores_range_witness :
  spread_in_range [1; 3; 2]%Q
  /\ exists values,
       normalize_scores [1; 3; 2]%Q = List.map Finite values
       /\ Forall (fun x => (0 <= x <= 1)%Q) values.
Proof.
  assert (Hrange : spread_in_range [1; 3; 2]%Q) by reflexivity.
  split; [exact Hrange|].
  destruct (normalize_scores_range [1; 3; 2]%Q Hrange) as [values [Hrun [_ [Hunit _]]]].
  exists values. split; [exact Hrun|exact Hunit].
Defined.

(** Beyond the threshold the differences are infinite: the quotient of two
    infinities is NaN, and a finite difference over an infinite one is 0. *)
Lemma normalize_scores_overflow :
  let big := inject_Z (10 ^ 308) in
  normalize_scores [big; (- big)%Q; 0%Q] = [NaN; Finite 0; Finite 0].
Proof. vm_compute. reflexivity. Qed.

(** ** Precision, recall and F1 *)

Lemma metric_range (a b : gset string) :
  a ⊆ b -> b <> ∅ -> (0 <= count a / count b <= 1)%Q.
Proof.
  intros Hsub Hne. unfold count. apply ratio_range.
  - apply subseteq_size. exact Hsub.
  - destruct (size b) eqn:Hs; [|lia].
    apply size_empty_iff in Hs. apply leibniz_equiv in Hs. contradiction.
Qed.

Lemma list_to_set_not_empty (l : list string) :
  l <> [] -> (list_to_set l : gset string) <> ∅.
Proof.
  destruct l as [|x l]; [contradiction|]. intros _ E.
  assert (Hx : x ∈ (list_to_set (x :: l) : gset string)).
  { apply elem_of_list_to_set. apply elem_of_cons. left. reflexivity. }
  rewrite E in Hx. apply elem_of_empty in Hx. exact Hx.
Qed.

Lemma recall_range retrieved relevant : (0 <= compute_recall retrieved relevant <= 1)%Q.
Proof.
  unfold compute_recall. destruct relevant as [|x l] eqn:Hr; cbn [is_nil].
  - split; [apply Qle_refl|discriminate].
  - apply metric_range; [apply intersection_subseteq_r|].
    apply list_to_set_not_empty. discriminate.
Qed.

Lemma precision_range retrieved relevant : (0 <= compute_precision retrieved relevant <= 1)%Q.
Proof.
  unfold compute_precision. destruct retrieved as [|x l] eqn:Hr; cbn [is_nil].
  - split; [apply Qle_refl|discriminate].
  - apply metric_range; [apply intersection_subseteq_l|].
    apply list_to_set_not_empty. discriminate.
Qed.

Lemma precision_is_recall retrieved relevant :
  compute_precision retrieved relevant = compute_recall relevant retrieved.
Proof.
  unfold compute_precision, compute_recall. destruct (is_nil retrieved); [reflexivity|].
  cbv zeta. f_equal. f_equal. apply leibniz_equiv. apply intersection_comm.
Qed.

Lemma harmonic_range (p r : Q) :
  (0 <= p <= 1)%Q -> (0 <= r <= 1)%Q -> ~ (p + r == 0)%Q ->
  (0 <= 2 * (p * r) / (p + r) <= 1)%Q.
Proof.
  intros [Hp0 Hp1] [Hr0 Hr1] Hne.
  assert (Hsum : (0 < p + r)%Q).
  { destruct (Qlt_le_dec 0 (p + r)) as [Hlt|Hle]; [exact Hlt|].
    exfalso. apply Hne. apply Qle_antisym; [exact Hle|].
    rewrite <- (Qplus_0_l 0). apply Qplus_le_compat; assumption. }
  assert (Hpr : (0 <= p * r)%Q) by (apply Qmult_le_0_compat; assumption).
  split.
  - apply Qle_shift_div_l; [exact Hsum|]. rewrite Qmult_0_l.
    apply Qmult_le_0_compat; [discriminate|exact Hpr].
  - apply Qle_shift_div_r; [exact Hsum|]. rewrite Qmult_1_l.
    assert (H1 : (p * r <= p)%Q).
    { rewrite <- (Qmult_1_r p) at 2. rewrite !(Qmult_comm p).
      apply Qmult_le_compat_r; assumption. }
    assert (H2 : (p * r <= r)%Q).
    { rewrite <- (Qmult_1_l r) at 2. apply Qmult_le_compat_r; assumption. }
    assert (E : (2 * (p * r) == p * r + p * r)%Q) by ring. rewrite E.
    apply Qplus_le_compat; assumption.
Qed.

(** X29.  Precision, recall and F1 lie between 0 and 1.  Recall is 1
    exactly when there are relevant items and all of them were retrieved;
    precision is the recall with the two lists exchanged, and F1 does not
    change when they are. *)
Theorem retrieval_metrics_range (retrieved relevant : list string) :
  (0 <= compute_precision retrieved relevant <= 1)%Q
  /\ (0 <= compute_recall retrieved relevant <= 1)%Q
  /\ (0 <= compute_f1 retrieved relevant <= 1)%Q
  /\ ((compute_recall retrieved relevant == 1)%Q
      <-> relevant <> [] /\ forall x, In x relevant -> In x retrieved)
  /\ compute_precision retrieved relevant = compute_recall relevant retrieved
  /\ (compute_f1 retrieved relevant == compute_f1 relevant retrieved)%Q.
Proof.
  pose proof (precision_range retrieved relevant) as Hp.
  pose proof (recall_range retrieved relevant) as Hr.
  split; [exact Hp|]. split; [exact Hr|]. split; [|split; [|split]].
  - unfold compute_f1. cbv zeta.
    destruct (Qeq_bool _ 0) eqn:Hz; [split; [apply Qle_refl|discriminate]|].
    apply harmonic_range; [exact Hp|exact Hr|].
    intros E. apply Qeq_bool_neq in Hz. contradiction.
  - unfold compute_recall. destruct relevant as [|x l] eqn:Hrel; cbn [is_nil].
    + split; [intros E; discriminate E|intros [Hne _]; contradiction].
    + rewrite <- Hrel. unfold count.
      assert (Hne : (list_to_set relevant : gset string) <> ∅)
        by (apply list_to_set_not_empty; rewrite Hrel; discriminate).
      assert (Hpos : (0 < size (list_to_set relevant : gset string))%nat).
      { destruct (size (list_to_set relevant : gset string)) eqn:Hs; [|lia].
        apply size_empty_iff in Hs. apply leibniz_equiv in Hs. contradiction. }
      rewrite (ratio_one _ _ Hpos). split.
      * intros Hsize. split; [rewrite Hrel; discriminate|]. intros y Hy.
        assert (Heq : (list_to_set retrieved ∩ list_to_set relevant : gset string)
                      = list_to_set relevant).
        { apply set_subseteq_size_eq; [apply intersection_subseteq_r|lia]. }
        assert (Hin : y ∈ (list_to_set retrieved ∩ list_to_set relevant : gset string)).
        { rewrite Heq. apply elem_of_list_to_set, list_elem_of_In. exact Hy. }
        apply elem_of_intersection in Hin. destruct Hin as [Hin _].
        apply elem_of_list_to_set, list_elem_of_In in Hin. exact Hin.
      * intros [_ Hall]. f_equal. apply leibniz_equiv.
        apply set_equiv. intros y. rewrite elem_of_intersection, !elem_of_list_to_set.
        rewrite !list_elem_of_In. split; [intros [_ Hy]; exact Hy|].
        intros Hy. split; [apply Hall; exact Hy|exact Hy].
  - apply precision_is_recall.
  - unfold compute_f1. cbv zeta.
    rewrite (precision_is_recall relevant retrieved).
    rewrite <- (precision_is_recall retrieved relevant).
    set (p := compute_precision retrieved relevant).
    set (r := compute_recall retrieved relevant).
    assert (Hz : Qeq_bool (p + r) 0 = Qeq_bool (r + p) 0).
    { destruct (Qeq_bool (p + r) 0) eqn:E1; destruct (Qeq_bool (r + p) 0) eqn:E2;
        try reflexivity.
      - apply Qeq_bool_iff in E1. apply Qeq_bool_neq in E2. exfalso. apply E2.
        rewrite Qplus_comm. exact E1.
      - apply Qeq_bool_iff in E2. apply Qeq_bool_neq in E1. exfalso. apply E1.
        rewrite Qplus_comm. exact E2. }
    rewrite <- Hz. destruct (Qeq_bool (p + r) 0) eqn:E; [reflexivity|].
    apply Qeq_bool_neq in E. field.
    intros E'. apply E. rewrite Qplus_comm. exact E'.
Qed.

(** ** Sums and means *)

Lemma fold_plus_shift (l : list Q) : forall a,
  (List.fold_left Qplus l a == a + List.fold_left Qplus l 0)%Q.
Proof.
  induction l as [|x l IH]; intros a; cbn [List.fold_left]; [ring|].
  rewrite (IH (a + x)%Q), (IH (0 + x)%Q). ring.
Qed.

Lemma sum_cons (x : Q) (l : list Q) : (sum (x :: l) == x + sum l)%Q.
Proof. unfold sum. cbn [List.fold_left]. rewrite fold_plus_shift. ring. Qed.

Lemma sum_between (terms weights : list Q) :
  Forall2 (fun t w => (0 <= t <= w)%Q) terms weights ->
  (0 <= sum terms <= sum weights)%Q.
Proof.
  induction 1 as [|t w terms weights [Ht0 Htw] _ [IH0 IH1]].
  - split; apply Qle_refl.
  - rewrite !sum_cons. split.
    + rewrite <- (Qplus_0_l 0). apply Qplus_le_compat; assumption.
    + apply Qplus_le_compat; assumption.
Qed.

Lemma sum_unit (l : list Q) :
  Forall (fun x => (0 <= x <= 1)%Q) l ->
  (0 <= sum l <= inject_Z (Z.of_nat (List.length l)))%Q.
Proof.
  induction 1 as [|x l [Hx0 Hx1] _ [IH0 IH1]].
  - split; apply Qle_refl.
  - rewrite sum_cons. cbn [List.length]. rewrite Nat2Z.inj_succ, <- Z.add_1_l, inject_Z_plus.
    split.
    + rewrite <- (Qplus_0_l 0). apply Qplus_le_compat; assumption.
    + apply Qplus_le_compat; assumption.
Qed.

Lemma reciprocal_rank_unit relevant_set ranking : forall i,
  (1 <= i)%nat -> (0 <= reciprocal_rank relevant_set i ranking <= 1)%Q.
Proof.
  induction ranking as [|item rest IH]; intros i Hi; cbn [reciprocal_rank].
  - split; [apply Qle_refl|discriminate].
  - destruct (bool_decide (item ∈ relevant_set)); [|apply IH; lia].
    assert (Hpos : (0 < inject_Z (Z.of_nat i))%Q).
    { change 0%Q with (inject_Z 0). rewrite <- Zlt_Qlt. lia. }
    split.
    + apply Qle_shift_div_l; [exact Hpos|]. rewrite Qmult_0_l. discriminate.
    + apply Qle_shift_div_r; [exact Hpos|]. rewrite Qmult_1_l.
      change 1%Q with (inject_Z 1). rewrite <- Zle_Qle. lia.
Qed.

(** The mean reciprocal rank lies between 0 and 1; it is 0 when no
    ranking is given. *)
Lemma compute_mrr_range (rankings : list (list string)) (relevant_items : list string) :
  (0 <= compute_mrr rankings relevant_items <= 1)%Q
  /\ (rankings = [] -> compute_mrr rankings relevant_items = 0%Q).
Proof.
  unfold compute_mrr. cbv zeta. split.
  - set (ranks := List.map _ rankings).
    assert (Hranks : Forall (fun x => (0 <= x <= 1)%Q) ranks).
    { apply List.Forall_forall. intros x Hx. apply in_map_iff in Hx.
      destruct Hx as [ranking [<- _]]. apply reciprocal_rank_unit. lia. }
    destruct ranks as [|r ranks'] eqn:Hr; cbn [is_nil]; [split; [apply Qle_refl|discriminate]|].
    rewrite <- Hr in *. destruct (sum_unit _ Hranks) as [H0 H1].
    assert (Hpos : (0 < inject_Z (Z.of_nat (List.length ranks)))%Q).
    { change 0%Q with (inject_Z 0). rewrite <- Zlt_Qlt. rewrite Hr. cbn [List.length]. lia. }
    split.
    + apply Qle_shift_div_l; [exact Hpos|]. rewrite Qmult_0_l. exact H0.
    + apply Qle_shift_div_r; [exact Hpos|]. rewrite Qmult_1_l. exact H1.
  - intros ->. reflexivity.
Qed.

(** ** Combined scores *)

Lemma term_values_between (normalized : list (list Q)) (weights : list Q) (i : nat) :
  List.length normalized = List.length weights ->
  Forall (fun row => (i < List.length row)%nat
                     /\ Forall (fun x => (0 <= x <= 1)%Q) row) normalized ->
  Forall (fun w => (0 <= w)%Q) weights ->
  exists terms,
    term_values normalized weights i = Some terms
    /\ Forall2 (fun t w => (0 <= t <= w)%Q) terms weights.
Proof.
  revert normalized. induction weights as [|w weights IH]; intros normalized Hlen Hrows Hw.
  - destruct normalized; [|discriminate]. exists []. split; [reflexivity|constructor].
  - destruct normalized as [|row normalized]; [discriminate|].
    inversion Hrows as [|? ? [Hi Hrow] Hrest]; subst. inversion Hw as [|? ? Hw0 Hws]; subst.
    destruct (IH normalized ltac:(cbn in Hlen; lia) Hrest Hws) as [terms [Hterms Hbetween]].
    cbn [term_values].
    destruct (nth_error row i) as [x|] eqn:Hx; [|apply nth_error_None in Hx; lia].
    rewrite Hterms. eexists. split; [reflexivity|]. constructor; [|exact Hbetween].
    rewrite List.Forall_forall in Hrow. destruct (Hrow x (nth_error_In _ _ Hx)) as [Hx0 Hx1].
    split.
    + apply Qmult_le_0_compat; assumption.
    + rewrite <- (Qmult_1_l w) at 2. apply Qmult_le_compat_r; assumption.
Qed.

Lemma combined_values_between (normalized : list (list Q)) (weights : list Q)
    (items : list nat) :
  List.length normalized = List.length weights ->
  Forall (fun row => Forall (fun x => (0 <= x <= 1)%Q) row) normalized ->
  (forall i row, In i items -> In row normalized -> (i < List.length row)%nat) ->
  Forall (fun w => (0 <= w)%Q) weights ->
  (0 < sum weights)%Q ->
  exists combined,
    combined_values normalized weights items = inr combined
    /\ List.length combined = List.length items
    /\ Forall (fun x => (0 <= x <= 1)%Q) combined.
Proof.
  intros Hlen Hunit Hfit Hw Hpos.
  induction items as [|i items IH]; cbn [combined_values].
  - exists []. repeat split. constructor.
  - destruct IH as [combined [Hrun [Hl Hc]]].
    { intros j row Hj Hrow. apply Hfit; [right; exact Hj|exact Hrow]. }
    destruct (term_values_between normalized weights i Hlen) as [terms [Hterms Hbetween]].
    { apply List.Forall_forall. intros row Hrow. split.
      - apply Hfit; [left; reflexivity|exact Hrow].
      - rewrite List.Forall_forall in Hunit. apply Hunit. exact Hrow. }
    { exact Hw. }
    rewrite Hterms.
    assert (Hz : Qeq_bool (sum weights) 0 = false).
    { destruct (Qeq_bool (sum weights) 0) eqn:E; [|reflexivity].
      apply Qeq_bool_iff in E. rewrite E in Hpos. discriminate Hpos. }
    rewrite Hz, Hrun. eexists. split; [reflexivity|]. split; [cbn; rewrite Hl; reflexivity|].
    constructor; [|exact Hc].
    destruct (sum_between _ _ Hbetween) as [H0 H1]. split.
    + apply Qle_shift_div_l; [exact Hpos|]. rewrite Qmult_0_l. exact H0.
    + apply Qle_shift_div_r; [exact Hpos|]. rewrite Qmult_1_l. exact H1.
Qed.

(** A sum of terms that are not negative is computed without overflow when
    its value stays below the threshold. *)
Lemma fold_fadd_values (terms : list Q) : forall acc,
  (0 <= acc)%Q -> Forall (fun t => (0 <= t)%Q) terms ->
  (List.fold_left Qplus terms acc < overflow_threshold)%Q ->
  List.fold_left fadd (List.map Finite terms) (Finite acc)
  = Finite (List.fold_left Qplus terms acc).
Proof.
  induction terms as [|t terms IH]; intros acc Hacc Hterms Hlt; cbn [List.fold_left List.map].
  - reflexivity.
  - inversion Hterms as [|? ? Ht Hrest]; subst.
    assert (Hstep : (0 <= acc + t)%Q).
    { rewrite <- (Qplus_0_l 0). apply Qplus_le_compat; assumption. }
    assert (Hgrow : (acc + t <= List.fold_left Qplus terms (acc + t))%Q).
    { clear - Hrest. revert Hrest. generalize (acc + t)%Q as a.
      induction terms as [|x terms IHt]; intros a Hr; cbn [List.fold_left];
        [apply Qle_refl|].
      inversion Hr as [|? ? Hx Hxs]; subst.
      eapply Qle_trans; [|apply IHt; exact Hxs].
      rewrite <- (Qplus_0_r a) at 1. apply Qplus_le_r. exact Hx. }
    cbn [fadd]. rewrite round_within;
      [|exact Hstep|eapply Qle_lt_trans; [exact Hgrow|exact Hlt]].
    apply IH; assumption.
Qed.

Lemma fsum_values (terms : list Q) :
  Forall (fun t => (0 <= t)%Q) terms -> (sum terms < overflow_threshold)%Q ->
  fsum (List.map Finite terms) = Finite (sum terms).
Proof.
  intros Hterms Hlt. unfold fsum, sum. apply fold_fadd_values; [apply Qle_refl| |];
    assumption.
Qed.

Lemma nth_error_finite (row : list Q) (i : nat) :
  nth_error (List.map Finite row) i = option_map Finite (nth_error row i).
Proof. apply nth_error_map. Qed.

(** The terms of an item are computed without overflow. *)
Lemma weighted_terms_values (rows : list (list Q)) (weights : list Q) (i : nat) terms :
  term_values rows weights i = Some terms ->
  Forall2 (fun t w => (0 <= t <= w)%Q) terms weights ->
  Forall (fun w => (w < overflow_threshold)%Q) weights ->
  weighted_terms (List.map (List.map Finite) rows) weights i
  = Some (List.map Finite terms).
Proof.
  revert rows terms. induction weights as [|w weights IH]; intros rows terms Hrun Hbetween Hw.
  - destruct rows; cbn in Hrun; injection Hrun as <-; reflexivity.
  - destruct rows as [|row rows]; [discriminate|]. cbn [term_values] in Hrun.
    cbn [weighted_terms List.map]. rewrite nth_error_finite.
    destruct (nth_error row i) as [x|]; [|discriminate]. cbn [option_map].
    destruct (term_values rows weights i) as [rest|] eqn:Hrest; [|discriminate].
    injection Hrun as <-.
    inversion Hbetween as [|? ? ? ? [Ht0 Htw] Hrest2]; subst.
    inversion Hw as [|? ? Hw0 Hws]; subst.
    rewrite (IH rows rest Hrest Hrest2 Hws). cbn [fmul List.map].
    rewrite round_within; [reflexivity|exact Ht0|].
    eapply Qle_lt_trans; [exact Htw|exact Hw0].
Qed.

Lemma weight_below_sum (weights : list Q) :
  Forall (fun w => (0 <= w)%Q) weights ->
  Forall (fun w => (w <= sum weights)%Q) weights.
Proof.
  induction 1 as [|w weights Hw Hws IH]; constructor.
  - rewrite sum_cons. rewrite <- (Qplus_0_r w) at 1. apply Qplus_le_r.
    clear - Hws. induction Hws as [|x l Hx _ IHl]; [apply Qle_refl|].
    rewrite sum_cons. rewrite <- (Qplus_0_l 0). apply Qplus_le_compat; assumption.
  - eapply List.Forall_impl; [|exact IH]. intros x Hx. cbv beta in *.
    rewrite sum_cons. eapply Qle_trans; [exact Hx|].
    rewrite <- (Qplus_0_l (sum weights)) at 1. apply Qplus_le_l. exact Hw.
Qed.

(** When no sum overflows, [combine_from] computes the combined values. *)
Lemma combine_from_values (rows : list (list Q)) (weights : list Q) (items : list nat) :
  List.length rows = List.length weights ->
  Forall (fun row => Forall (fun x => (0 <= x <= 1)%Q) row) rows ->
  (forall i row, In i items -> In row rows -> (i < List.length row)%nat) ->
  Forall (fun w => (0 <= w)%Q) weights ->
  (0 < sum weights)%Q ->
  (sum weights < overflow_threshold)%Q ->
  exists combined,
    combine_from (List.map (List.map Finite) rows) weights items
    = inr (List.map Finite combined)
    /\ List.length combined = List.length items
    /\ Forall (fun x => (0 <= x <= 1)%Q) combined.
Proof.
  intros Hlen Hunit Hfit Hw Hpos Hlt.
  assert (Htotal : fsum (List.map Finite weights) = Finite (sum weights))
    by (apply fsum_values; assumption).
  assert (Hz : Qeq_bool (sum weights) 0 = false).
  { destruct (Qeq_bool (sum weights) 0) eqn:E; [|reflexivity].
    apply Qeq_bool_iff in E. rewrite E in Hpos. discriminate Hpos. }
  assert (Hsmall : Forall (fun w => (w < overflow_threshold)%Q) weights).
  { eapply List.Forall_impl; [|apply weight_below_sum; exact Hw].
    intros w Hle. cbv beta in *. eapply Qle_lt_trans; [exact Hle|exact Hlt]. }
  induction items as [|i items IH]; cbn [combine_from].
  - exists []. repeat split. constructor.
  - destruct IH as [combined [Hrun [Hl Hc]]].
    { intros j row Hj Hrow. apply Hfit; [right; exact Hj|exact Hrow]. }
    destruct (term_values_between rows weights i Hlen) as [terms [Hterms Hbetween]].
    { apply List.Forall_forall. intros row Hrow. split.
      - apply Hfit; [left; reflexivity|exact Hrow].
      - rewrite List.Forall_forall in Hunit. apply Hunit. exact Hrow. }
    { exact Hw. }
    rewrite (weighted_terms_values rows weights i terms Hterms Hbetween Hsmall).
    rewrite Htotal. cbn [is_zero]. rewrite Hz, Hrun.
    destruct (sum_between _ _ Hbetween) as [H0 H1].
    assert (Hterms0 : Forall (fun t => (0 <= t)%Q) terms).
    { clear - Hbetween. induction Hbetween as [|t w ? ? [Ht _] _ IHb]; constructor;
        assumption. }
    rewrite (fsum_values terms Hterms0) by (eapply Qle_lt_trans; eassumption).
    assert (Hq : (0 <= sum terms / sum weights <= 1)%Q).
    { split.
      - apply Qle_shift_div_l; [exact Hpos|]. rewrite Qmult_0_l. exact H0.
      - apply Qle_shift_div_r; [exact Hpos|]. rewrite Qmult_1_l. exact H1. }
    cbn [fdiv]. rewrite (round_unit _ Hq).
    exists ((sum terms / sum weights)%Q :: combined).
    split; [reflexivity|]. split; [cbn; rewrite Hl; reflexivity|].
    constructor; [exact Hq|exact Hc].
Qed.

(** X30.  [combine_scores] returns the empty list when it is given no score
    lists or no weights, and raises a [ValueError] when it is given
    different numbers of them.  Given as many weights as score lists, the
    lists all of one length, weights that are not negative and not all 0,
    and magnitudes that binary64 holds (the differences of the scores of a
    list and the sum of the weights stay below the overflow threshold), it
    returns one finite combined score for each item, each between 0 and
    1. *)
Theorem combine_scores_result (scores_list : list (list Q)) (weights : list Q) :
  (scores_list = [] \/ weights = [] -> combine_scores scores_list weights = inr [])
  /\ (scores_list <> [] -> weights <> [] ->
      List.length scores_list <> List.length weights ->
      combine_scores scores_list weights
      = inl (ValueError "Number of score lists must match number of weights"))
  /\ (scores_list <> [] ->
      List.length scores_list = List.length weights ->
      (forall row, In row scores_list ->
         List.length row = List.length (List.hd [] scores_list)) ->
      Forall (fun w => (0 <= w)%Q) weights ->
      (0 < sum weights)%Q ->
      Forall spread_in_range scores_list ->
      (sum weights < overflow_threshold)%Q ->
      exists combined,
        combine_scores scores_list weights = inr (List.map Finite combined)
        /\ List.length combined = List.length (List.hd [] scores_list)
        /\ Forall (fun x => (0 <= x <= 1)%Q) combined).
Proof.
  unfold combine_scores. split; [|split].
  - intros [-> | ->]; [reflexivity|]. destruct scores_list; reflexivity.
  - intros Hs Hw Hlen. destruct scores_list; [contradiction|]. destruct weights; [contradiction|].
    cbn [is_nil orb]. destruct (Nat.eqb_spec (List.length (l :: scores_list))
                                  (List.length (q :: weights))); [contradiction|reflexivity].
  - intros Hs Hlen Hrows Hw Hpos Hspread Hlt.
    destruct scores_list as [|row0 rest] eqn:Hlist; [contradiction|].
    destruct weights as [|w0 ws] eqn:Hweights; [discriminate|].
    rewrite <- Hlist, <- Hweights in *.
    assert (Hnil : is_nil scores_list || is_nil weights = false)
      by (rewrite Hlist, Hweights; reflexivity).
    rewrite Hnil, Hlen, Nat.eqb_refl. cbn [negb].
    assert (Hnorm : List.map normalize_scores scores_list
                    = List.map (List.map Finite) (List.map normalized_values scores_list)).
    { rewrite List.map_map. apply List.map_ext_in. intros scores Hin.
      apply normalize_scores_values. rewrite List.Forall_forall in Hspread.
      apply Hspread. exact Hin. }
    rewrite Hnorm.
    assert (Hhd : List.length (List.hd [] (List.map (List.map Finite)
                                             (List.map normalized_values scores_list)))
                  = List.length (List.hd [] scores_list)).
    { rewrite Hlist. cbn [List.map List.hd]. rewrite length_map.
      apply normalized_values_unit. }
    destruct (combine_from_values (List.map normalized_values scores_list) weights
                (List.seq 0 (List.length (List.hd [] (List.map (List.map Finite)
                                             (List.map normalized_values scores_list))))))
      as [combined [Hrun [Hl Hc]]].
    + rewrite length_map. exact Hlen.
    + apply List.Forall_forall. intros row Hrow. apply in_map_iff in Hrow.
      destruct Hrow as [scores [<- _]]. apply normalized_values_unit.
    + intros i row Hi Hrow. apply in_seq in Hi. apply in_map_iff in Hrow.
      destruct Hrow as [scores [<- Hin]].
      destruct (normalized_values_unit scores) as [Hnl _]. rewrite Hnl.
      rewrite (Hrows scores Hin). rewrite Hhd in Hi. lia.
    + exact Hw.
    + exact Hpos.
    + exact Hlt.
    + exists combined. split; [exact Hrun|]. split; [|exact Hc].
      rewrite Hl, length_seq. exact Hhd.
Qed.

(** Weights that binary64 holds but whose sum it does not: the sum of the
    weights is infinite, and so is the weighted sum of the best item. *)
Lemma combine_scores_overflow :
  let big := inject_Z (10 ^ 308) in
  combine_scores [[1; 2]; [1; 2]]%Q [big; big] = inr [Finite 0; NaN].
Proof. vm_compute. reflexivity. Qed.

End ScoringFacts.
